(** * The merge engine of geoip-all-in-one (scripts/merge.py)

    A shallow embedding of the range table, the center picker, the conflict
    resolver, the merge loop, the hexadecimal helpers and the TSV loaders,
    with the properties the specification states about them and further
    properties read off the code.

    Conventions of the embedding:
    - Python integers are [Z]; list positions and lengths are [nat].
    - A Python exception is the [Raised] case of [outcome].
    - A [dict] is an association list in insertion order (Python keeps it);
      a [set] is a list used through membership only, except where the source
      iterates it.
    - The object state of a [RangeTable] (its cursor) is passed explicitly.
    - A [str] is a [string]: the characters of code below 256. Country
      codes, coordinates and source names are ASCII in the sources' data.
    - [isinstance(data, tuple)] is a match on the two shapes of [payload]. *)

From Stdlib Require Import List ZArith Bool String Ascii Lia PeanoNat.
From Stdlib Require Import Sorted Permutation.
From Stdlib Require HexadecimalString HexadecimalPos PrimFloat Floats.
Import ListNotations.

Set Implicit Arguments.

(** ** Exceptions *)

Inductive exn : Type :=
| IndexError (what : string)   (* "list", "string" or "tuple" index out of range *)
| ValueError                   (* float() of a string that is no number *)
| OverflowError                (* float ** on a result out of range *)
| TypeError.                   (* an operation on values of the wrong shape *)

Inductive outcome (A : Type) : Type :=
| Ok (a : A)
| Raised (e : exn).

Arguments Ok {A} a.
Arguments Raised {A} e.

Definition bind {A B : Type} (m : outcome A) (k : A -> outcome B) : outcome B :=
  match m with
  | Ok a => k a
  | Raised e => Raised e
  end.

Declare Scope outcome_scope.
Delimit Scope outcome_scope with outcome.
Notation "x <- m ;; k" := (bind m (fun x => k))
  (at level 61, m at next level, right associativity) : outcome_scope.
Notation "' p <- m ;; k" := (bind m (fun x => match x with p => k end))
  (at level 61, p pattern, m at next level, right associativity) : outcome_scope.

(** [l[i]] on a Python list. *)
Definition list_getitem {A : Type} (l : list A) (i : nat) : outcome A :=
  match nth_error l i with
  | Some a => Ok a
  | None => Raised (IndexError "list")
  end.

(** ** Range table *)

Module RangeTable.
Section Table.

  (** The payload of one table: every record of a table has the same shape
      (a country string, or a (country, lat, lon) tuple), so Python's [<] on
      two payloads is defined; [payload_lt] is that comparison. *)
  Variable A : Type.
  Variable payload_lt : A -> A -> bool.

Record t : Type := mk {
    starts : list Z;
    ends : list Z;
    data : list A;
    _cursor : nat
  }.

  (** [__init__] *)
Definition init : t := mk [] [] [] 0.

Definition add (self : t) (start end_ : Z) (value : A) : t :=
    mk (starts self ++ [start]) (ends self ++ [end_]) (data self ++ [value])
       (_cursor self).

  (** Python's [<] on the tuples [(start, end, payload)]: the first position
      where the two differ decides. *)
Definition tuple_lt (x y : Z * Z * A) : bool :=
    let '(s1, e1, d1) := x in
    let '(s2, e2, d2) := y in
    if negb (s1 =? s2)%Z then (s1 <? s2)%Z
    else if negb (e1 =? e2)%Z then (e1 <? e2)%Z
    else payload_lt d1 d2.

  (** [sorted]: a stable sort by [<]; on a total order every stable sort
      returns this list. *)
Fixpoint insert (x : Z * Z * A) (l : list (Z * Z * A)) : list (Z * Z * A) :=
    match l with
    | [] => [x]
    | y :: l' => if tuple_lt y x then y :: insert x l' else x :: y :: l'
    end.

Fixpoint sorted (l : list (Z * Z * A)) : list (Z * Z * A) :=
    match l with
    | [] => []
    | x :: l' => insert x (sorted l')
    end.

  (** [zip(self.starts, self.ends, self.data)] *)
Definition zip3 (self : t) : list (Z * Z * A) :=
    combine (combine (starts self) (ends self)) (data self).

  (** The number [finalize] prints in its warning: the positions [i >= 1]
      with [starts[i] < ends[i - 1]]. *)
Fixpoint count_overlaps (starts ends : list Z) : nat :=
    match starts, ends with
    | _ :: ((s1 :: _) as starts'), e0 :: ends' =>
        (if (s1 <? e0)%Z then 1 else 0) + count_overlaps starts' ends'
    | _, _ => 0
    end.

Definition finalize (self : t) : t :=
    match starts self with
    | [] => self
    | _ =>
        let combined := sorted (zip3 self) in
        mk (map (fun c => fst (fst c)) combined)
           (map (fun c => snd (fst c)) combined)
           (map (fun c => snd c) combined)
           (_cursor self)
    end.

  (** The end of [finalize]: the number of overlaps its warning reports on
      stderr, [None] when it prints no warning (an empty table returns
      before the count). *)
Definition finalize_warning (self : t) : option nat :=
    match starts self with
    | [] => None
    | _ =>
        let self' := finalize self in
        let overlaps := count_overlaps (starts self') (ends self') in
        if overlaps =? 0 then None else Some overlaps
    end.

  (** The [while] loop of [sweep]; it runs at most [n - c] times, which is
      the fuel [sweep] gives it. *)
Fixpoint advance (ends : list Z) (n : nat) (point : Z) (fuel c : nat) : nat :=
    match fuel with
    | O => c
    | S fuel' =>
        if (c <? n) && (nth c ends 0 <=? point)%Z
        then advance ends n point fuel' (S c)
        else c
    end.

Definition sweep (self : t) (point : Z) : option A * t :=
    let n := List.length (starts self) in
    let c := advance (ends self) n point (n - _cursor self) (_cursor self) in
    let self' := mk (starts self) (ends self) (data self) c in
    if (c <? n) && (nth c (starts self) 0 <=? point)%Z
    then (nth_error (data self) c, self')
    else (None, self').

  (** [boundaries]: the set of all starts and ends, as a list. *)
Definition boundaries (self : t) : list Z :=
    flat_map (fun se => [fst se; snd se]) (combine (starts self) (ends self)).

  (** A table filled by [add] from a list of records, in that order. *)
Definition of_records (recs : list (Z * Z * A)) : t :=
    fold_left (fun self r => add self (fst (fst r)) (snd (fst r)) (snd r)) recs init.

  (** Successive calls of [sweep] on one table. *)
Fixpoint sweeps (self : t) (points : list Z) : list (option A) :=
    match points with
    | [] => []
    | p :: points' =>
        let '(r, self') := sweep self p in r :: sweeps self' points'
    end.

  (** The record [(start, end, _)] contains [p]. *)
Definition contains (r : Z * Z * A) (p : Z) : Prop :=
    (fst (fst r) <= p < snd (fst r))%Z.

  (** No point lies in two records (two positions of the list). *)
Definition non_overlapping (recs : list (Z * Z * A)) : Prop :=
    forall i j r1 r2 p,
      i <> j -> nth_error recs i = Some r1 -> nth_error recs j = Some r2 ->
      contains r1 p -> ~ contains r2 p.

End Table.
End RangeTable.

(** ** Generic helpers for the Python constructs used below *)

Local Open Scope string_scope.
Local Open Scope nat_scope.
Local Open Scope list_scope.
Local Open Scope outcome_scope.

(** A [for] loop that threads a state and stops at the first exception. *)
Fixpoint foldM {S X : Type} (f : S -> X -> outcome S) (l : list X) (s : S)
  : outcome S :=
  match l with
  | [] => Ok s
  | x :: l' => s' <- f s x ;; foldM f l' s'
  end.

(** A list comprehension whose element expression may raise. *)
Fixpoint mapM {X Y : Type} (f : X -> outcome Y) (l : list X) : outcome (list Y) :=
  match l with
  | [] => Ok []
  | x :: l' => y <- f x ;; ys <- mapM f l' ;; Ok (y :: ys)
  end.

(** [range(a, b)] *)
Definition range (a b : nat) : list nat := seq a (b - a).

(** [x in s] for a list or a set of strings. *)
Definition mem (x : string) (s : list string) : bool :=
  existsb (String.eqb x) s.

(** [len(set(l))] *)
Definition distinct (l : list string) : nat :=
  List.length (nodup string_dec l).

(** *** dict: keys in insertion order *)

Definition dict (V : Type) : Type := list (string * V).

(** [k in d], [d[k]] *)
Fixpoint dict_get {V : Type} (d : dict V) (k : string) : option V :=
  match d with
  | [] => None
  | (k', v) :: d' => if String.eqb k k' then Some v else dict_get d' k
  end.

(** [d[k] = v]: a key already there keeps its place. *)
Fixpoint dict_set {V : Type} (d : dict V) (k : string) (v : V) : dict V :=
  match d with
  | [] => [(k, v)]
  | (k', v') :: d' =>
      if String.eqb k k' then (k', v) :: d' else (k', v') :: dict_set d' k v
  end.

(** [collections.Counter(l)]: element -> number of occurrences, keys in the
    order of first occurrence. *)
Definition Counter (l : list string) : dict nat :=
  fold_left
    (fun votes c =>
       dict_set votes c (S (match dict_get votes c with Some n => n | None => 0 end)))
    l [].

(** [Counter.most_common()]: the items sorted by count, highest first; items
    of equal count stay in the order first encountered (the sort is stable).
    [most_common(1)] is its first item. *)
Fixpoint insert_by_count (x : string * nat) (l : list (string * nat))
  : list (string * nat) :=
  match l with
  | [] => [x]
  | y :: l' => if snd x <? snd y then y :: insert_by_count x l' else x :: y :: l'
  end.

Fixpoint most_common (votes : dict nat) : list (string * nat) :=
  match votes with
  | [] => []
  | x :: votes' => insert_by_count x (most_common votes')
  end.

(** ** Observations *)

(** What a source reports at a point: a country string (a country-only
    source) or a tuple (country, lat, lon) of strings (a latlong source). *)
Inductive payload : Type :=
| CountryOnly (code : string)
| WithCoords (code lat lon : string).

(** Python's [<] on two payloads of one shape: strings by code point, tuples
    by their first differing item. *)
Definition payload_lt (a b : payload) : bool :=
  match a, b with
  | CountryOnly x, CountryOnly y => String.ltb x y
  | WithCoords c1 lat1 lon1, WithCoords c2 lat2 lon2 =>
      if negb (String.eqb c1 c2) then String.ltb c1 c2
      else if negb (String.eqb lat1 lat2) then String.ltb lat1 lat2
      else String.ltb lon1 lon2
  | _, _ => false
  end.

(** Truth value of [all_data.get(name)]: [None] and the empty string are
    false, a tuple of three items is true. *)
Definition truthy (data : option payload) : bool :=
  match data with
  | None => false
  | Some (CountryOnly "") => false
  | Some _ => true
  end.

(** [data[i]]: an item of the tuple, or a character of the string. *)
Definition payload_getitem (data : payload) (i : nat) : outcome string :=
  match data with
  | WithCoords code lat lon =>
      match i with
      | 0 => Ok code
      | 1 => Ok lat
      | 2 => Ok lon
      | _ => Raised (IndexError "tuple")
      end
  | CountryOnly s =>
      match String.get i s with
      | Some ch => Ok (String ch "")
      | None => Raised (IndexError "string")
      end
  end.

(** [data[0] if isinstance(data, tuple) else data] *)
Definition country_of (data : payload) : string :=
  match data with
  | WithCoords code _ _ => code
  | CountryOnly code => code
  end.

(** [all_data.get(name)]: the observation, [None] also for an unknown name. *)
Definition get_obs (all_data : dict (option payload)) (name : string)
  : option payload :=
  match dict_get all_data name with
  | Some data => data
  | None => None
  end.

(** ** Floating point

    The resolver touches floats only in the center picker: [float()] on a
    coordinate string, [-], [+], [** 2], [** 0.5], the builtin [sum], [<],
    [<=], the int literal [0] and [float('inf')]. Their results depend on
    the host's arithmetic, so they are the operations of a class.
    [parse_float] is [None] on a string that is no number (ValueError) and
    [pow2] is [None] when the square is out of range (OverflowError);
    [pow_half] is only applied to a sum of two squares, where the result is
    a float. [fsum] is [sum] on the floats its argument yields, in their
    order; how it rounds is the interpreter's matter ([Float64] below). *)

Class PyFloat : Type := {
  F : Type;
  parse_float : string -> option F;
  of_int : Z -> F;
  inf : F;
  fsub : F -> F -> F;
  fadd : F -> F -> F;
  fsum : list F -> F;
  pow2 : F -> option F;
  pow_half : F -> F;
  flt : F -> F -> bool;
  fle : F -> F -> bool
}.

(** ** Merge configuration (the [merge] section of sources.yaml) *)

Record merge_config {PF : PyFloat} : Type := {
  coord_priority : option (list string);   (* None: the key is absent *)
  vote_priority : list string;             (* an absent key reads as [[]] *)
  coord_spread_threshold : option F;       (* None: the key is absent *)
  overrides : list (list string)           (* each rule's ['match'] list *)
}.

Arguments Build_merge_config {PF} _ _ _ _.

Definition decision : Type := string * string * string * string.

Section Resolver.

  Context {PF : PyFloat}.

  (** *** distance *)

  (** [float(s)] on a string *)
Definition float (s : string) : outcome F :=
    match parse_float s with
    | Some x => Ok x
    | None => Raised ValueError
    end.

  (** [x ** 2] *)
Definition square (x : F) : outcome F :=
    match pow2 x with
    | Some y => Ok y
    | None => Raised OverflowError
    end.

  (** The arguments are floats already, so the [float()] calls of the source
      return them unchanged. *)
Definition distance (lat1 lon1 lat2 lon2 : F) : outcome F :=
    a <- square (fsub lat1 lat2) ;;
    b <- square (fsub lon1 lon2) ;;
    Ok (pow_half (fadd a b)).

  (** [max(a, b)]: the first argument unless the second is greater. *)
Definition pymax (a b : F) : F := if flt a b then b else a.

  (** *** pick_center_coords *)

  (** [(data[1], data[2], name)] for one entry [(name, data)]. *)
Definition entry_coords (e : string * payload)
    : outcome (string * string * string) :=
    let '(name, data) := e in
    lat <- payload_getitem data 1 ;;
    lon <- payload_getitem data 2 ;;
    Ok (lat, lon, name).

  (** [coords = [(float(d[1]), float(d[2])) for _, d in named_ll]] *)
Definition parse_coords (named_ll : list (string * payload))
    : outcome (list (F * F)) :=
    mapM (fun e : string * payload =>
            s1 <- payload_getitem (snd e) 1 ;;
            x <- float s1 ;;
            s2 <- payload_getitem (snd e) 2 ;;
            y <- float s2 ;;
            Ok (x, y)) named_ll.

  (** [distance(coords[a][0], coords[a][1], coords[b][0], coords[b][1])] *)
Definition distance_between (coords : list (F * F)) (a b : nat) : outcome F :=
    ca <- list_getitem coords a ;;
    cb <- list_getitem coords b ;;
    distance (fst ca) (snd ca) (fst cb) (snd cb).

  (** The first pair of loops: the largest distance between two entries. *)
Definition max_spread (coords : list (F * F)) : outcome F :=
    let n := List.length coords in
    foldM (fun max_dist a =>
             foldM (fun max_dist b =>
                      dist <- distance_between coords a b ;;
                      Ok (pymax max_dist dist))
                   (range (a + 1) n) max_dist)
          (range 0 n) (of_int 0).

  (** [sum(distance(idx, j) for j in range(len(coords)) if j != idx)] *)
Definition total_distance (coords : list (F * F)) (idx : nat) : outcome F :=
    ds <- mapM (fun j => distance_between coords idx j)
               (filter (fun j => negb (j =? idx)) (range 0 (List.length coords))) ;;
    Ok (fsum ds).

  (** The last loop: the position with the smallest total, the first such. *)
Definition best_index (coords : list (F * F)) : outcome nat :=
    r <- foldM (fun (st : F * nat) idx =>
                  total <- total_distance coords idx ;;
                  if flt total (fst st) then Ok (total, idx) else Ok st)
               (range 0 (List.length coords)) (inf, 0) ;;
    Ok (snd r).

Definition pick_center_coords (named_ll : list (string * payload))
      (threshold : F) : outcome (string * string * string) :=
    if List.length named_ll <? 3 then
      e <- list_getitem named_ll 0 ;; entry_coords e
    else
      coords <- parse_coords named_ll ;;
      max_dist <- max_spread coords ;;
      if fle max_dist threshold then
        e <- list_getitem named_ll 0 ;; entry_coords e
      else
        best <- best_index coords ;;
        e <- list_getitem named_ll best ;; entry_coords e.

  (** *** pick_winner *)

  Section PickWinner.

    Variable all_data : dict (option payload).
    Variable latlong_names : list string.   (* a set; iterated once, below *)
    Variable cfg : merge_config.

    (** The first loop: the country of every source that has data. *)
Definition countries : dict string :=
      fold_left
        (fun acc (item : string * option payload) =>
           match snd item with
           | None => acc
           | Some data => dict_set acc (fst item) (country_of data)
           end)
        all_data [].

Definition votes : dict nat := Counter (map snd countries).

    (** [merge_config.get('coord_priority', list(latlong_names))] *)
Definition coord_priority_list : list string :=
      match coord_priority cfg with
      | Some l => l
      | None => latlong_names
      end.

Definition coord_sources : list (string * string * string * string) :=
      flat_map
        (fun name =>
           match get_obs all_data name with
           | Some (WithCoords code lat lon) => [(code, lat, lon, name)]
           | _ => []
           end)
        coord_priority_list.

Definition find_coords (country : string)
      : option (string * string * string) :=
      match find (fun cs => String.eqb (fst (fst (fst cs))) country) coord_sources with
      | Some (_, lat, lon, src) => Some (lat, lon, src)
      | None => None
      end.

    (** [merge_config.get('coord_spread_threshold', 2)] *)
Definition threshold : F :=
      match coord_spread_threshold cfg with
      | Some x => x
      | None => of_int 2
      end.

Definition available_ll : list (string * payload) :=
      flat_map
        (fun name =>
           if mem name latlong_names && truthy (get_obs all_data name)
           then match get_obs all_data name with
                | Some data => [(name, data)]
                | None => []
                end
           else [])
        coord_priority_list.

    (** [ll_country_list = [data[0] for _, data in available_ll]] *)
Definition ll_country_list : outcome (list string) :=
      mapM (fun e : string * payload => payload_getitem (snd e) 0) available_ll.

    (** The loop over the override rules; [None] when it ends without a
        [return]. *)
Fixpoint match_countries (match_names : list string) : option (list string) :=
      match match_names with
      | [] => Some []
      | src_name :: rest =>
          match dict_get countries src_name with
          | None => None                       (* all_present = False; break *)
          | Some c =>
              match match_countries rest with
              | Some cs => Some (c :: cs)
              | None => None
              end
          end
      end.

Fixpoint walk_overrides (rules : list (list string)) : option decision :=
      match rules with
      | [] => None
      | match_names :: rules' =>
          match match_countries match_names with
          | Some ((matched_country :: _) as mc) =>
              if distinct mc =? 1 then
                match find_coords matched_country with
                | Some (lat, lon, src) =>
                    Some (matched_country, lat, lon,
                          (String.concat "+" match_names ++ "->" ++ src)%string)
                | None => walk_overrides rules'
                end
              else walk_overrides rules'
          | _ => walk_overrides rules'
          end
      end.

    (** The loop over [vote_priority] among tied countries. *)
Fixpoint walk_vote_priority (tied : list string) (names : list string)
      : option decision :=
      match names with
      | [] => None
      | prio_name :: names' =>
          match dict_get countries prio_name with
          | Some c =>
              if mem c tied then
                match find_coords c with
                | Some (lat, lon, src) => Some (c, lat, lon, ("vote->" ++ src)%string)
                | None => walk_vote_priority tied names'
                end
              else walk_vote_priority tied names'
          | None => walk_vote_priority tied names'
          end
      end.

    (** The loop over the voted countries, highest count first. *)
Fixpoint walk_top (top : list (string * nat)) : option decision :=
      match top with
      | [] => None
      | (country, _) :: top' =>
          match find_coords country with
          | Some (lat, lon, src) => Some (country, lat, lon, ("vote->" ++ src)%string)
          | None => walk_top top'
          end
      end.

    (** [top[0][1] == top[1][1]] guarded by [len(top) >= 2] *)
Definition top_two_tied (top : list (string * nat)) : bool :=
      match top with
      | (_, n0) :: (_, n1) :: _ => n0 =? n1
      | _ => false
      end.

    (** [{c for c, n in top if n == top[0][1]}] *)
Definition tied_set (top : list (string * nat)) : list string :=
      match top with
      | [] => []
      | (_, n0) :: _ => map fst (filter (fun cn => snd cn =? n0) top)
      end.

    (** Everything after the override rules. *)
Definition vote_steps : outcome (option decision) :=
      match coord_sources with
      | [] =>
          t <- list_getitem (firstn 1 (most_common votes)) 0 ;;
          Ok (Some (fst t, "0", "0", "no_coords"))
      | _ =>
          let top := most_common votes in
          match (if top_two_tied top
                 then walk_vote_priority (tied_set top) (vote_priority cfg)
                 else None) with
          | Some d => Ok (Some d)
          | None =>
              match walk_top top with
              | Some d => Ok (Some d)
              | None =>
                  t <- list_getitem top 0 ;;
                  Ok (Some (fst t, "0", "0", "no_match"))
              end
          end
      end.

    (** The argument of the call of [pick_center_coords], when the call is
        made. *)
Definition center_call : outcome (option (list (string * payload))) :=
      l <- ll_country_list ;;
      if (2 <=? List.length available_ll) && (distinct l =? 1)
      then Ok (Some available_ll) else Ok None.

Definition pick_winner : outcome (option decision) :=
      match countries with
      | [] => Ok None
      | _ =>
          call <- center_call ;;
          match call with
          | Some named_ll =>
              r <- pick_center_coords named_ll threshold ;;
              l <- ll_country_list ;;
              c0 <- list_getitem l 0 ;;
              let '(lat, lon, src) := r in
              Ok (Some (c0, lat, lon, ("unanimous->" ++ src)%string))
          | None =>
              match walk_overrides (overrides cfg) with
              | Some d => Ok (Some d)
              | None => vote_steps
              end
          end
      end.

  End PickWinner.

End Resolver.

(** ** The merge loop of [main] *)

(** An output tuple [(start, end, country, lat, lon)]. *)
Record segment : Type := mk_segment {
  seg_start : Z;
  seg_end : Z;
  seg_country : string;
  seg_lat : string;
  seg_lon : string
}.

Definition table : Type := RangeTable.t payload.

(** [sorted(boundary_set)]: ascending, each value once. *)
Fixpoint insert_boundary (x : Z) (l : list Z) : list Z :=
  match l with
  | [] => [x]
  | y :: l' =>
      if (x <? y)%Z then x :: l
      else if (x =? y)%Z then l
      else y :: insert_boundary x l'
  end.

Definition sorted_boundaries (all_tables : list table) : list Z :=
  fold_right insert_boundary [] (flat_map (@RangeTable.boundaries payload) all_tables).

(** The inner loop: [sweep] every table at [start]; the tables come back
    with their cursors moved. *)
Fixpoint query_all (tables : list (string * table)) (start : Z)
    (all_data : dict (option payload)) (any_data : bool)
  : dict (option payload) * bool * list (string * table) :=
  match tables with
  | [] => (all_data, any_data, [])
  | (name, tbl) :: tables' =>
      let '(val, tbl') := RangeTable.sweep tbl start in
      let '(all_data', any_data', rest) :=
        query_all tables' start (dict_set all_data name val)
                  (match val with Some _ => true | None => any_data end) in
      (all_data', any_data', (name, tbl') :: rest)
  end.

(** [merged[-1][2:] == entry[2:]] *)
Definition same_value (a b : segment) : bool :=
  String.eqb (seg_country a) (seg_country b)
  && String.eqb (seg_lat a) (seg_lat b)
  && String.eqb (seg_lon a) (seg_lon b).

(** One round of the coalescing loop. *)
Definition coalesce_step (merged : list segment) (entry : segment) : list segment :=
  match rev merged with
  | last :: _ =>
      if same_value last entry && (seg_end last + 1 =? seg_start entry)%Z
      then removelast merged
             ++ [mk_segment (seg_start last) (seg_end entry) (seg_country entry)
                            (seg_lat entry) (seg_lon entry)]
      else merged ++ [entry]
  | [] => merged ++ [entry]
  end.

Definition coalesce (output : list segment) : list segment :=
  fold_left coalesce_step output [].

(** [f"{n:x}"] *)
Definition int_to_hex (n : Z) : string :=
  HexadecimalString.NilZero.string_of_int (Z.to_hex_int n).

Definition tab : string := String (ascii_of_nat 9) "".
Definition newline : string := String (ascii_of_nat 10) "".

Definition write_line (s : segment) : string :=
  (int_to_hex (seg_start s) ++ tab ++ int_to_hex (seg_end s) ++ tab
   ++ seg_country s ++ tab ++ seg_lat s ++ tab ++ seg_lon s ++ newline)%string.

Section Main.

  Context {PF : PyFloat}.

  Variable latlong_name_set : list string.   (* set(latlong_sources.keys()) *)
  Variable merge_cfg : merge_config.

  (** The loop over [idx in range(len(boundaries) - 1)], on the list of
      boundaries from position [idx] on. *)
Fixpoint process_segments (boundaries : list Z) (tables : list (string * table))
      (output : list segment) : outcome (list segment) :=
    match boundaries with
    | start :: ((next :: _) as boundaries') =>
        let '(all_data, any_data, tables') := query_all tables start [] false in
        if any_data then
          result <- pick_winner all_data latlong_name_set merge_cfg ;;
          match result with
          | Some (country, lat, lon, _) =>
              process_segments boundaries' tables'
                (output ++ [mk_segment start (next - 1) country lat lon])
          | None => process_segments boundaries' tables' output
          end
        else process_segments boundaries' tables' output
    | _ => Ok output
    end.

  (** [main], from the loaded tables to the list [merged]. *)
Definition merge (latlong_sources country_sources : dict table)
    : outcome (list segment) :=
    let all_tables_named := latlong_sources ++ country_sources in
    let boundaries := sorted_boundaries (map snd all_tables_named) in
    output <- process_segments boundaries all_tables_named [] ;;
    Ok (coalesce output).

  (** The text written to the output file. *)
Definition main (latlong_sources country_sources : dict table) : outcome string :=
    merged <- merge latlong_sources country_sources ;;
    Ok (String.concat "" (map write_line merged)).

End Main.

(** ** Conversion helpers and file loaders

    [int(h, 16)] and [str.strip()] are as CPython has them on strings of
    characters below 256. A loader is given the lines its [for] loop reads
    from the file ([read_lines] below, for a file of a given text), or
    [None] when the file does not exist. *)

(** What [int()] and [float()] do first to a string that is not all ASCII:
    a character below 127 stays, a blank (of those below 256, the next-line
    character 133 and the no-break space 160) becomes a space, and at any
    other character the string ends in a question mark. *)
Definition is_ascii (c : ascii) : bool := nat_of_ascii c <? 128.

Fixpoint all_ascii (s : string) : bool :=
  match s with
  | String c s' => is_ascii c && all_ascii s'
  | EmptyString => true
  end.

Fixpoint transform (s : string) : string :=
  match s with
  | String c s' =>
      let n := nat_of_ascii c in
      if n <? 127 then String c (transform s')
      else if (n =? 133) || (n =? 160) then String " " (transform s')
      else String "?" EmptyString
  | EmptyString => EmptyString
  end.

Definition to_ascii (s : string) : string :=
  if all_ascii s then s else transform s.

(** [Py_ISSPACE], the whitespace [int()] skips: tab to carriage return,
    and the space. *)
Definition is_space (c : ascii) : bool :=
  let n := nat_of_ascii c in
  ((9 <=? n) && (n <=? 13)) || (n =? 32).

(** The value of a hexadecimal digit, upper or lower case. *)
Definition hex_digit (c : ascii) : option Z :=
  let n := nat_of_ascii c in
  if (48 <=? n) && (n <=? 57) then Some (Z.of_nat (n - 48))
  else if (97 <=? n) && (n <=? 102) then Some (Z.of_nat (n - 87))
  else if (65 <=? n) && (n <=? 70) then Some (Z.of_nat (n - 55))
  else None.

Fixpoint skip_spaces (s : string) : string :=
  match s with
  | String c s' => if is_space c then skip_spaces s' else s
  | EmptyString => s
  end.

(** The scan over digits and underscores: [None] on two underscores in a
    row or an underscore at the end; otherwise the value, the number of
    digits and the rest of the string. *)
Fixpoint scan_digits (s : string) (prev_underscore : bool) (acc : Z) (digits : nat)
  : option (Z * nat * string) :=
  match s with
  | String c s' =>
      if Ascii.eqb c "_" then
        if prev_underscore then None else scan_digits s' true acc digits
      else
        match hex_digit c with
        | Some d => scan_digits s' false (16 * acc + d)%Z (S digits)
        | None => if prev_underscore then None else Some (acc, digits, s)
        end
  | EmptyString => if prev_underscore then None else Some (acc, digits, s)
  end.

(** [int(s, 16)]: whitespace, a sign, [0x] or [0X] and one underscore, the
    digits with single underscores between them, whitespace, the end. *)
Definition int_base16 (s : string) : outcome Z :=
  let s1 := skip_spaces (to_ascii s) in
  let '(negative, s2) :=
    match s1 with
    | String "+" r => (false, r)
    | String "-" r => (true, r)
    | _ => (false, s1)
    end in
  let s3 :=
    match s2 with
    | String "0" (String x r) =>
        if Ascii.eqb x "x" || Ascii.eqb x "X"
        then match r with String "_" r' => r' | _ => r end
        else s2
    | _ => s2
    end in
  match s3 with
  | String "_" _ => Raised ValueError
  | _ =>
      match scan_digits s3 false 0 0 with
      | Some (value, S _, rest) =>
          match skip_spaces rest with
          | EmptyString => Ok (if negative then (- value)%Z else value)
          | _ => Raised ValueError
          end
      | _ => Raised ValueError
      end
  end.

Definition hex_to_int (h : string) : outcome Z := int_base16 h.

(** Whitespace for [str.strip()]: also the separators 28 to 31, the
    next-line character and the no-break space. *)
Definition is_whitespace (c : ascii) : bool :=
  let n := nat_of_ascii c in
  ((9 <=? n) && (n <=? 13)) || ((28 <=? n) && (n <=? 32))
  || (n =? 133) || (n =? 160).

Fixpoint lstrip (s : string) : string :=
  match s with
  | String c s' => if is_whitespace c then lstrip s' else s
  | EmptyString => s
  end.

Fixpoint rstrip (s : string) : string :=
  match s with
  | String c s' =>
      match rstrip s' with
      | EmptyString => if is_whitespace c then EmptyString else String c EmptyString
      | r => String c r
      end
  | EmptyString => EmptyString
  end.

Definition strip (s : string) : string := rstrip (lstrip s).

(** [s.split(sep)] for a separator of one character. *)
Fixpoint split (sep : ascii) (s : string) : list string :=
  match s with
  | String c s' =>
      if Ascii.eqb c sep then EmptyString :: split sep s'
      else match split sep s' with
           | part :: parts => String c part :: parts
           | [] => [String c EmptyString]
           end
  | EmptyString => [EmptyString]
  end.

(** [l[i]] for a Python int [i]: a negative index counts from the end. *)
Definition list_getitem_int {A : Type} (l : list A) (i : Z) : outcome A :=
  let n := Z.of_nat (List.length l) in
  let j := if (i <? 0)%Z then (i + n)%Z else i in
  if (0 <=? j)%Z && (j <? n)%Z then list_getitem l (Z.to_nat j)
  else Raised (IndexError "list").

(** The body of the loop of [load_latlong_tsv]: a line with too few fields
    is passed over, a line whose [try] block raises is reported and
    skipped. *)
Definition add_latlong_line (lat_col long_col : Z) (tbl : RangeTable.t payload)
    (line : string) : RangeTable.t payload :=
  let parts := split (ascii_of_nat 9) (strip line) in
  if (Z.max lat_col long_col <? Z.of_nat (List.length parts))%Z then
    match (p0 <- list_getitem_int parts 0 ;;
           start <- hex_to_int p0 ;;
           p1 <- list_getitem_int parts 1 ;;
           end_ <- hex_to_int p1 ;;
           p2 <- list_getitem_int parts 2 ;;
           lat <- list_getitem_int parts lat_col ;;
           lon <- list_getitem_int parts long_col ;;
           Ok (RangeTable.add tbl start (end_ + 1) (WithCoords p2 lat lon))) with
    | Ok tbl' => tbl'
    | Raised _ => tbl
    end
  else tbl.

Definition load_latlong_tsv (file : option (list string)) (lat_col long_col : Z)
  : RangeTable.t payload :=
  match file with
  | None => RangeTable.init payload
  | Some lines =>
      RangeTable.finalize payload_lt
        (fold_left (add_latlong_line lat_col long_col) lines (RangeTable.init payload))
  end.

(** The body of the loop of [load_country_tsv]. *)
Definition add_country_line (tbl : RangeTable.t payload) (line : string)
  : RangeTable.t payload :=
  let parts := split (ascii_of_nat 9) (strip line) in
  if 3 <=? List.length parts then
    match (p0 <- list_getitem_int parts 0 ;;
           start <- hex_to_int p0 ;;
           p1 <- list_getitem_int parts 1 ;;
           end_ <- hex_to_int p1 ;;
           p2 <- list_getitem_int parts 2 ;;
           Ok (RangeTable.add tbl start (end_ + 1) (CountryOnly p2))) with
    | Ok tbl' => tbl'
    | Raised _ => tbl
    end
  else tbl.

Definition load_country_tsv (file : option (list string)) : RangeTable.t payload :=
  match file with
  | None => RangeTable.init payload
  | Some lines =>
      RangeTable.finalize payload_lt
        (fold_left add_country_line lines (RangeTable.init payload))
  end.

(** *** The lines of a text file

    [open(filename)] reads in text mode with universal newlines: a
    carriage return, alone or followed by a line feed, is read as a line
    feed. *)
Fixpoint universal_newlines (s : string) : string :=
  match s with
  | String c s' =>
      if Ascii.eqb c (ascii_of_nat 13) then
        String (ascii_of_nat 10)
          match s' with
          | String c' s'' =>
              if Ascii.eqb c' (ascii_of_nat 10) then universal_newlines s''
              else universal_newlines s'
          | EmptyString => EmptyString
          end
      else String c (universal_newlines s')
  | EmptyString => EmptyString
  end.

(** The text cut after every line feed; a line keeps its line feed, and
    what follows the last one is a line if it is not empty. *)
Fixpoint lines_of (s : string) : list string :=
  match s with
  | String c s' =>
      if Ascii.eqb c (ascii_of_nat 10) then String c EmptyString :: lines_of s'
      else match lines_of s' with
           | line :: rest => String c line :: rest
           | [] => [String c EmptyString]
           end
  | EmptyString => []
  end.

(** [for line in f], for a file that holds [text]. *)
Definition read_lines (text : string) : list string :=
  lines_of (universal_newlines text).

(** ** Binary64 hosts as instances of [PyFloat]

    Subtraction, addition, the comparisons and [float('inf')] are those of
    IEEE 754 binary64, which the kernel floats are. [float(s)] is written
    out below as CPython reads a string, correctly rounded. Two
    things are left to the host: the last bit of [x ** y], which is the C
    library's [pow], and the rounding of the builtin [sum], which changed
    with the interpreter's version. [host] is the arithmetic of a host
    given these two; [binary64] is one such host, used for the worked
    inputs. *)

Module Float64.

Definition digit_of (c : ascii) : option Z :=
    let n := nat_of_ascii c in
    if (48 <=? n) && (n <=? 57) then Some (Z.of_nat (n - 48)) else None.

Definition is_digit (c : ascii) : bool :=
    match digit_of c with Some _ => true | None => false end.

  (** Reads the leading digits of [s]: the number they extend [acc] to, how
      many there were, and the rest of the string. *)
Fixpoint read_digits (s : string) (acc : Z) (count : nat) : Z * nat * string :=
    match s with
    | String c s' =>
        match digit_of c with
        | Some d => read_digits s' (10 * acc + d)%Z (S count)
        | None => (acc, count, s)
        end
    | EmptyString => (acc, count, s)
    end.

  (** An optional sign. *)
Definition read_sign (s : string) : bool * string :=
    match s with
    | String "-" r => (true, r)
    | String "+" r => (false, r)
    | _ => (false, s)
    end.

  (** *** Underscores

      A string with an underscore is accepted when every underscore stands
      between two digits, and is read without them. [prev] is the
      character before, and is no character at the start. *)
Fixpoint has_underscore (s : string) : bool :=
    match s with
    | String c s' => Ascii.eqb c "_" || has_underscore s'
    | EmptyString => false
    end.

Fixpoint drop_underscores (s : string) (prev : option ascii) : option string :=
    match s with
    | String c s' =>
        if Ascii.eqb c "_" then
          match prev with
          | Some p => if is_digit p then drop_underscores s' (Some c) else None
          | None => None
          end
        else
          match prev with
          | Some "_"%char =>
              if is_digit c then option_map (String c) (drop_underscores s' (Some c))
              else None
          | _ => option_map (String c) (drop_underscores s' (Some c))
          end
    | EmptyString =>
        match prev with
        | Some "_"%char => None
        | _ => Some EmptyString
        end
    end.

  (** *** Rounding

      The binary64 nearest to [m * 10 ^ e] for [m > 0] of at most [digits]
      decimal digits, ties to even; beyond the range an infinity, below it
      a zero. The two tests on [e] only spare the computation of powers of
      ten whose result is known: [m * 10 ^ e >= 10 ^ 400] in the first
      case, [m * 10 ^ e < 10 ^ (- 400)] in the second. *)
Definition round_decimal (neg : bool) (m : positive) (digits : nat) (e : Z)
    : SpecFloat.spec_float :=
    if (400 <? e)%Z then SpecFloat.S754_infinity neg
    else if (e + Z.of_nat digits <? - 400)%Z then SpecFloat.S754_zero neg
    else if (0 <=? e)%Z then
      SpecFloat.binary_round FloatOps.prec FloatOps.emax neg
        (m * Z.to_pos (10 ^ e))%positive 0
    else
      SpecFloat.SFdiv FloatOps.prec FloatOps.emax
        (SpecFloat.S754_finite neg m 0)
        (SpecFloat.S754_finite false (Z.to_pos (10 ^ (- e))) 0).

  (** *** Numerals

      The exponent part: [e] or [E], an optional sign and at least one
      digit; without a digit nothing of it is read. *)
Definition read_exponent (s : string) : Z * string :=
    match s with
    | String c r =>
        if Ascii.eqb c "e" || Ascii.eqb c "E" then
          let '(eneg, r1) := read_sign r in
          let '(v, n, r2) := read_digits r1 0%Z 0 in
          if n =? 0 then (0%Z, s) else ((if eneg then - v else v)%Z, r2)
        else (0%Z, s)
    | EmptyString => (0%Z, s)
    end.

  (** [Py_TOLOWER] *)
Definition to_lower (c : ascii) : ascii :=
    let n := nat_of_ascii c in
    if (65 <=? n) && (n <=? 90) then ascii_of_nat (n + 32) else c.

  (** The rest of [s] after the lower-case word [t], read without regard
      to case. *)
Fixpoint read_word (s t : string) : option string :=
    match t with
    | EmptyString => Some s
    | String ct t' =>
        match s with
        | String cs s' => if Ascii.eqb (to_lower cs) ct then read_word s' t' else None
        | EmptyString => None
        end
    end.

  (** [inf], [infinity] and [nan] with an optional sign. *)
Definition read_inf_or_nan (s : string) : option (SpecFloat.spec_float * string) :=
    let '(neg, s1) := read_sign s in
    match read_word s1 "inf" with
    | Some r =>
        Some (SpecFloat.S754_infinity neg,
              match read_word r "inity" with Some r' => r' | None => r end)
    | None =>
        match read_word s1 "nan" with
        | Some r => Some (SpecFloat.S754_nan, r)
        | None => None
        end
    end.

  (** The longest numeral at the start of [s], and the rest: a sign, digits
      with an optional point among them, an optional exponent; when there
      is no digit, [inf] or [nan]. *)
Definition read_number (s : string) : option (SpecFloat.spec_float * string) :=
    let '(neg, s1) := read_sign s in
    let '(ip, n1, s2) := read_digits s1 0%Z 0 in
    let '(m, n2, s3) :=
      match s2 with
      | String "." r => read_digits r ip 0
      | _ => (ip, 0, s2)
      end in
    if n1 + n2 =? 0 then read_inf_or_nan s
    else
      let '(e, s4) := read_exponent s3 in
      Some (match m with
            | Zpos p => round_decimal neg p (n1 + n2) (e - Z.of_nat n2)
            | _ => SpecFloat.S754_zero neg
            end, s4).

Fixpoint drop_trailing_spaces (s : string) : string :=
    match s with
    | String c s' =>
        match drop_trailing_spaces s' with
        | EmptyString => if is_space c then EmptyString else String c EmptyString
        | r => String c r
        end
    | EmptyString => EmptyString
    end.

  (** [float(s)]: the string made ASCII, the underscores, the whitespace
      around the numeral, the numeral, which must be all that is left. *)
Definition parse_float (s : string) : option PrimFloat.float :=
    let a := to_ascii s in
    match (if has_underscore a then drop_underscores a None else Some a) with
    | None => None
    | Some t =>
        match read_number (drop_trailing_spaces (skip_spaces t)) with
        | Some (x, EmptyString) => Some (FloatOps.SF2Prim x)
        | _ => None
        end
    end.

  (** An int where a float is expected: the nearest binary64; exact up to
      [2 ^ 53], which covers the literals [0] and [2] of the program. *)
Definition of_Z (z : Z) : PrimFloat.float :=
    FloatOps.SF2Prim
      (SpecFloat.binary_normalize FloatOps.prec FloatOps.emax z 0 false).

Section Host.

  (** The C library's [pow(x, y)], called for finite [x > 0] other than 1
      and for [y] 2 or 0.5, where it returns a number that is not negative
      and reports a result out of range by an infinity; the builtin [sum]
      on a list of floats. *)
  Variable c_pow : PrimFloat.float -> PrimFloat.float -> PrimFloat.float.
  Variable builtin_sum : list PrimFloat.float -> PrimFloat.float.

  (** [x ** 2]: the cases [float_pow] decides itself, then [pow]; an
      infinite result of [pow] is a range error, OverflowError. *)
Definition pow2 (x : PrimFloat.float) : option PrimFloat.float :=
    if PrimFloat.is_nan x then Some x
    else if PrimFloat.is_infinity x then Some PrimFloat.infinity
    else if PrimFloat.is_zero x then Some PrimFloat.zero
    else
      let iv := PrimFloat.abs x in
      if PrimFloat.eqb iv PrimFloat.one then Some PrimFloat.one
      else
        let ix := c_pow iv PrimFloat.two in
        if PrimFloat.is_infinity ix then None else Some ix.

  (** [x ** 0.5] for [x] a sum of two squares, hence not negative; no root
      of a binary64 is out of range. *)
Definition pow_half (x : PrimFloat.float) : PrimFloat.float :=
    if PrimFloat.is_nan x then x
    else if PrimFloat.is_infinity x then PrimFloat.infinity
    else if PrimFloat.is_zero x then PrimFloat.zero
    else if PrimFloat.eqb x PrimFloat.one then PrimFloat.one
    else c_pow x (PrimFloat.div PrimFloat.one PrimFloat.two).

Definition host : PyFloat :=
    Build_PyFloat parse_float of_Z PrimFloat.infinity PrimFloat.sub PrimFloat.add
                  builtin_sum pow2 pow_half PrimFloat.ltb PrimFloat.leb.

End Host.

  (** A C library whose [pow] is correctly rounded: the square is the
      product and the power 0.5 is the square root. Libraries that round
      [pow] otherwise differ from it in the last bit of some results; where
      the result is exact, as on the worked inputs, they agree. *)
Definition pow_rounded (x y : PrimFloat.float) : PrimFloat.float :=
    if PrimFloat.eqb y PrimFloat.two then PrimFloat.mul x x
    else PrimFloat.sqrt x.

  (** [sum] as CPython up to 3.11 computes it: the int [0], then the floats
      added from left to right. From 3.12 on the floats are added with a
      compensation term. *)
Definition sum_left (l : list PrimFloat.float) : PrimFloat.float :=
    fold_left PrimFloat.add l (of_Z 0).

  (** [sum] as CPython from 3.12 on computes it: the first float added to
      the int [0], the others added with Neumaier's compensation term [c],
      which is added at the end when it is finite and not zero. *)
Definition sum_step (st : PrimFloat.float * PrimFloat.float) (x : PrimFloat.float)
    : PrimFloat.float * PrimFloat.float :=
    let '(f, c) := st in
    let t := PrimFloat.add f x in
    (t, if PrimFloat.leb (PrimFloat.abs x) (PrimFloat.abs f)
        then PrimFloat.add c (PrimFloat.add (PrimFloat.sub f t) x)
        else PrimFloat.add c (PrimFloat.add (PrimFloat.sub x t) f)).

Definition sum_compensated (l : list PrimFloat.float) : PrimFloat.float :=
    match l with
    | [] => of_Z 0
    | x :: l' =>
        let '(f, c) := fold_left sum_step l' (PrimFloat.add (of_Z 0) x, PrimFloat.zero) in
        if negb (PrimFloat.is_zero c) && PrimFloat.is_finite c
        then PrimFloat.add f c else f
    end.

#[global] Instance binary64 : PyFloat := host pow_rounded sum_left.

End Float64.

(** * Properties *)

(** ** Range table: the forward-only cursor *)

Section RangeTableFacts.

  Import RangeTable.

  Variable A : Type.
  Variable payload_lt : A -> A -> bool.

  Local Abbreviation record := (Z * Z * A)%type.
  Local Abbreviation start_of := (fun c : record => fst (fst c)).
  Local Abbreviation end_of := (fun c : record => snd (fst c)).
  Local Abbreviation payload_of := (fun c : record => snd c).

  (** The table whose three columns are those of [L], with cursor [c]. *)
Definition columns (L : list record) (c : nat) : RangeTable.t A :=
    RangeTable.mk (map start_of L) (map end_of L) (map payload_of L) c.

Lemma fold_add_columns (recs : list record) (self : RangeTable.t A) :
    fold_left (fun self r => add self (fst (fst r)) (snd (fst r)) (snd r)) recs self
    = RangeTable.mk (starts self ++ map start_of recs)
                    (ends self ++ map end_of recs)
                    (data self ++ map payload_of recs)
                    (_cursor self).
  Proof.
    revert self. induction recs as [|r recs IH]; intros self; simpl.
    - rewrite !app_nil_r. now destruct self.
    - rewrite IH. unfold add; simpl. now rewrite <- !app_assoc.
  Qed.

Lemma of_records_columns (recs : list record) :
    of_records recs = columns recs 0.
  Proof. unfold of_records. now rewrite fold_add_columns. Qed.

Lemma zip3_columns (L : list record) (c : nat) : zip3 (columns L c) = L.
  Proof.
    unfold zip3, columns; simpl.
    induction L as [|[[s e] v] L IH]; simpl; [reflexivity | now rewrite IH].
  Qed.

Lemma finalize_of_records (recs : list record) :
    finalize payload_lt (of_records recs) = columns (sorted payload_lt recs) 0.
  Proof.
    rewrite of_records_columns. unfold finalize.
    rewrite zip3_columns.
    destruct recs as [|r recs]; reflexivity.
  Qed.

Lemma insert_In (x y : record) (l : list record) :
    In y (insert payload_lt x l) <-> y = x \/ In y l.
  Proof.
    induction l as [|z l IH]; simpl.
    - intuition.
    - destruct (tuple_lt payload_lt z x); simpl; rewrite ?IH; intuition.
  Qed.

Lemma sorted_In (y : record) (l : list record) :
    In y (sorted payload_lt l) <-> In y l.
  Proof.
    induction l as [|x l IH]; simpl; [tauto|].
    rewrite insert_In, IH. intuition.
  Qed.

Definition by_start (a b : record) : Prop := (start_of a <= start_of b)%Z.

Lemma tuple_lt_start (x y : record) :
    tuple_lt payload_lt x y = true -> by_start x y.
  Proof.
    destruct x as [[s1 e1] d1], y as [[s2 e2] d2]; unfold by_start; simpl.
    destruct (Z.eqb_spec s1 s2); simpl; [lia|].
    intros H; apply Z.ltb_lt in H; lia.
  Qed.

Lemma tuple_not_lt_start (x y : record) :
    tuple_lt payload_lt x y = false -> by_start y x.
  Proof.
    destruct x as [[s1 e1] d1], y as [[s2 e2] d2]; unfold by_start; simpl.
    destruct (Z.eqb_spec s1 s2); simpl; [lia|].
    intros H; apply Z.ltb_ge in H; lia.
  Qed.

Lemma insert_by_start (x : record) (l : list record) :
    StronglySorted by_start l -> StronglySorted by_start (insert payload_lt x l).
  Proof.
    induction 1 as [|y l Hl IH Hy]; simpl.
    - repeat constructor.
    - destruct (tuple_lt payload_lt y x) eqn:E.
      + constructor; [assumption|].
        apply Forall_forall; intros z Hz. apply insert_In in Hz as [->|Hz].
        * now apply tuple_lt_start.
        * rewrite Forall_forall in Hy; auto.
      + pose proof (tuple_not_lt_start _ _ E) as Hxy.
        constructor; [now constructor|].
        constructor; [assumption|].
        apply Forall_forall; intros z Hz.
        rewrite Forall_forall in Hy. specialize (Hy z Hz).
        unfold by_start in *; lia.
  Qed.

  (** After [finalize] the records are in ascending order of [start]. *)
Lemma sorted_by_start (l : list record) :
    StronglySorted by_start (sorted payload_lt l).
  Proof.
    induction l as [|x l IH]; simpl; [constructor | now apply insert_by_start].
  Qed.

Lemma advance_spec (es : list Z) (n : nat) (p : Z) (fuel c : nat) :
    n - c <= fuel ->
    let c' := advance es n p fuel c in
    c <= c' /\
    (forall i, c <= i < c' -> i < n /\ (nth i es 0 <= p)%Z) /\
    (c' < n -> (p < nth c' es 0)%Z).
  Proof.
    revert c; induction fuel as [|fuel IH]; intros c Hf; simpl.
    - repeat split; try lia.
    - destruct (Nat.ltb_spec c n) as [Hc|Hc]; simpl.
      + destruct (Z.leb_spec (nth c es 0%Z) p) as [He|He].
        * destruct (IH (S c) ltac:(lia)) as (H1 & H2 & H3).
          repeat split; try lia; try assumption;
            destruct (Nat.eq_dec i c) as [->|]; try lia; apply H2; lia.
        * repeat split; try lia.
      + repeat split; try lia.
  Qed.

Lemma nth_map_col (f : record -> Z) (L : list record) (i : nat) (r : record) :
    nth_error L i = Some r -> nth i (map f L) 0%Z = f r.
  Proof.
    revert i; induction L as [|x L IH]; intros [|i] H; simpl in *;
      try discriminate; [now inversion H | now apply IH].
  Qed.

Lemma StronglySorted_nth (L : list record) (i j : nat) (a b : record) :
    StronglySorted by_start L -> i <= j ->
    nth_error L i = Some a -> nth_error L j = Some b -> by_start a b.
  Proof.
    intros HS; revert i j; induction HS as [|x L HS IH Hx]; intros i j Hij Hi Hj.
    - destruct i; discriminate.
    - destruct i as [|i], j as [|j]; simpl in *; try lia.
      + inversion Hi; inversion Hj; subst. unfold by_start; lia.
      + inversion Hi; subst. rewrite Forall_forall in Hx.
        apply Hx. eapply nth_error_In; eauto.
      + apply (IH i j); [lia | assumption | assumption].
  Qed.

  (** Every record before the cursor ends at or before [q]. *)
Definition passed (L : list record) (c : nat) (q : Z) : Prop :=
    forall i r, i < c -> nth_error L i = Some r -> (end_of r <= q)%Z.

  (** One call of [sweep] at [p], when the cursor has passed only records
      that end at or before an earlier point [q <= p]. *)
Lemma sweep_step (L : list record) (c : nat) (q p : Z) :
    StronglySorted by_start L -> passed L c q -> (q <= p)%Z ->
    exists c',
      snd (sweep (columns L c) p) = columns L c' /\
      passed L c' p /\
      match fst (sweep (columns L c) p) with
      | Some v => exists r, In r L /\ contains r p /\ payload_of r = v
      | None => forall r, In r L -> ~ contains r p
      end.
  Proof.
    intros HS Hpass Hqp.
    unfold sweep; simpl. rewrite !length_map.
    set (n := List.length L).
    pose proof (@advance_spec (map end_of L) n p (n - c) c (le_n _)) as H.
    set (c' := advance (map end_of L) n p (n - c) c) in *.
    cbv zeta in H. destruct H as (Hle & Hskip & Hstop).
    assert (Hpass' : passed L c' p).
    { intros i r Hi Hr. destruct (Nat.lt_ge_cases i c) as [Hic|Hic].
      - specialize (Hpass i r Hic Hr). cbv beta in *. lia.
      - destruct (Hskip i ltac:(lia)) as [_ He].
        rewrite (@nth_map_col end_of L i r Hr) in He. exact He. }
    exists c'.
    destruct (Nat.ltb_spec c' n) as [Hc'|Hc']; simpl.
    - destruct (nth_error L c') as [r|] eqn:Hr;
        [|apply nth_error_None in Hr; unfold n in Hc'; lia].
      specialize (Hstop Hc').
      rewrite (@nth_map_col end_of L c' r Hr) in Hstop.
      rewrite (@nth_map_col start_of L c' r Hr).
      destruct (Z.leb_spec (start_of r) p) as [Hs|Hs]; simpl.
      + repeat split; try assumption.
        rewrite nth_error_map, Hr; simpl.
        exists r; split; [eapply nth_error_In; eauto|].
        split; [unfold contains; lia | reflexivity].
      + repeat split; try assumption.
        intros r' Hin Hcont. apply In_nth_error in Hin as [i Hi].
        destruct (Nat.lt_ge_cases i c') as [Hic|Hic].
        * specialize (Hpass' i r' Hic Hi). unfold contains in Hcont.
          cbv beta in *; lia.
        * pose proof (@StronglySorted_nth L c' i r r' HS Hic Hr Hi) as Hb.
          unfold by_start, contains in *; cbv beta in *; lia.
    - repeat split; try assumption.
      intros r' Hin Hcont. apply In_nth_error in Hin as [i Hi].
      assert (i < n) by (apply nth_error_Some; congruence).
      specialize (Hpass' i r' ltac:(lia) Hi). unfold contains in Hcont.
      cbv beta in *; lia.
  Qed.

Lemma sweeps_sound (L : list record) (ps : list Z) :
    StronglySorted by_start L -> Sorted Z.le ps ->
    forall c q, passed L c q -> HdRel Z.le q ps ->
    Forall2 (fun p r =>
               match r with
               | Some v => exists x, In x L /\ contains x p /\ payload_of x = v
               | None => forall x, In x L -> ~ contains x p
               end) ps (sweeps (columns L c) ps).
  Proof.
    intros HS; induction 1 as [|p ps Hps IH Hhd]; intros c q Hpass Hq; simpl.
    - constructor.
    - inversion Hq as [|? ? Hqp]; subst.
      destruct (@sweep_step L c q p HS Hpass Hqp) as (c' & Hst & Hpass' & Hres).
      destruct (sweep (columns L c) p) as [r self'] eqn:E; simpl in *.
      subst self'. constructor; [exact Hres|].
      eapply IH; eauto.
  Qed.

  (** C1. On a table filled by [add], then finalized, whose records do not
      overlap, a sequence of [sweep] calls at non-decreasing points answers
      each point [p] with the payload of the record with [start <= p < end],
      and with [None] when no record contains [p]. *)
Theorem sweep_finalized_correct (recs : list record) (points : list Z) :
    non_overlapping recs ->
    Sorted Z.le points ->
    Forall2 (fun p r =>
               (forall v, r = Some v <->
                          exists s e, In (s, e, v) recs /\ (s <= p < e)%Z) /\
               (r = None <->
                forall s e v, In (s, e, v) recs -> ~ (s <= p < e)%Z))
            points
            (sweeps (finalize payload_lt (of_records recs)) points).
  Proof.
    intros Hno Hsorted.
    rewrite finalize_of_records.
    assert (Hpass : passed (sorted payload_lt recs) 0
                      (match points with [] => 0%Z | p :: _ => p end))
      by (intros i r Hi; lia).
    assert (Hhd : HdRel Z.le (match points with [] => 0%Z | p :: _ => p end) points)
      by (destruct points; constructor; lia).
    pose proof (@sweeps_sound _ points (sorted_by_start recs) Hsorted _ _ Hpass Hhd) as H.
    eapply Forall2_impl; [|exact H].
    intros p r Hr; simpl in Hr.
    assert (Huniq : forall x y, In x recs -> In y recs ->
                      contains x p -> contains y p -> x = y).
    { intros x y Hx Hy Hcx Hcy.
      apply In_nth_error in Hx as [i Hi]. apply In_nth_error in Hy as [j Hj].
      destruct (Nat.eq_dec i j) as [->|Hij]; [congruence|].
      exfalso. exact (Hno i j x y p Hij Hi Hj Hcx Hcy). }
    destruct r as [v|].
    - destruct Hr as (x & Hx & Hcx & Hv). rewrite sorted_In in Hx.
      split.
      + intros v'; split.
        * intros [= <-]. destruct x as [[s e] v0]; simpl in *; subst.
          exists s, e; split; [assumption | exact Hcx].
        * intros (s & e & Hin & Hc).
          assert (x = (s, e, v')) by (apply Huniq; auto).
          subst x; simpl in Hv; now subst.
      + split; [discriminate|].
        intros Hnone. destruct x as [[s e] v0]. exfalso.
        exact (Hnone s e v0 Hx Hcx).
    - split.
      + intros v; split; [discriminate|].
        intros (s & e & Hin & Hc). exfalso.
        apply (Hr (s, e, v)); [rewrite sorted_In; exact Hin | exact Hc].
      + split; [|reflexivity].
        intros _ s e v Hin Hc.
        apply (Hr (s, e, v)); [rewrite sorted_In; exact Hin | exact Hc].
  Qed.

End RangeTableFacts.

(** ** Coalescing *)

Section Coalescing.

  (** Two neighbours the coalescing pass must combine: equal country, lat
      and lon, and [a.end + 1 = b.start]. *)
Definition mergeable (a b : segment) : Prop :=
    seg_country a = seg_country b /\ seg_lat a = seg_lat b /\
    seg_lon a = seg_lon b /\ (seg_end a + 1 = seg_start b)%Z.

Lemma mergeable_test (a b : segment) :
    same_value a b && (seg_end a + 1 =? seg_start b)%Z = true <-> mergeable a b.
  Proof.
    unfold same_value, mergeable.
    rewrite !andb_true_iff, !String.eqb_eq, Z.eqb_eq. tauto.
  Qed.

  (** The loop body on the list [merged] kept newest first. *)
Definition step_rev (acc : list segment) (entry : segment) : list segment :=
    match acc with
    | last :: before =>
        if same_value last entry && (seg_end last + 1 =? seg_start entry)%Z
        then mk_segment (seg_start last) (seg_end entry) (seg_country entry)
                        (seg_lat entry) (seg_lon entry) :: before
        else entry :: acc
    | [] => [entry]
    end.

Lemma coalesce_step_rev (merged : list segment) (entry : segment) :
    rev (coalesce_step merged entry) = step_rev (rev merged) entry.
  Proof.
    unfold coalesce_step, step_rev.
    destruct (rev merged) as [|last before] eqn:E.
    - rewrite rev_app_distr; simpl. now rewrite E.
    - assert (Hm : merged = rev before ++ [last]).
      { rewrite <- (rev_involutive merged), E. reflexivity. }
      destruct (same_value last entry && (seg_end last + 1 =? seg_start entry)%Z).
      + rewrite Hm, removelast_last, rev_app_distr; simpl.
        now rewrite rev_involutive.
      + rewrite rev_app_distr; simpl. now rewrite E.
  Qed.

Lemma coalesce_rev (output merged : list segment) :
    rev (fold_left coalesce_step output merged)
    = fold_left step_rev output (rev merged).
  Proof.
    revert merged; induction output as [|e output IH]; intros merged; simpl.
    - reflexivity.
    - now rewrite IH, coalesce_step_rev.
  Qed.

  (** Newest first: no element is mergeable with the one after it in time. *)
Definition separated (newer older : segment) : Prop := ~ mergeable older newer.

Lemma step_rev_separated (acc : list segment) (entry : segment) :
    Sorted separated acc -> Sorted separated (step_rev acc entry).
  Proof.
    intros HS. destruct acc as [|last before]; simpl.
    - repeat constructor.
    - destruct (same_value last entry && (seg_end last + 1 =? seg_start entry)%Z) eqn:E.
      + apply mergeable_test in E. destruct E as (Hc & Hla & Hlo & _).
        apply Sorted_inv in HS as [HS Hhd].
        constructor; [assumption|].
        destruct Hhd as [|p before' Hp]; constructor.
        intros (H1 & H2 & H3 & H4); simpl in *.
        apply Hp. unfold mergeable. repeat split; congruence.
      + constructor; [assumption|]. constructor.
        intros Hm. apply mergeable_test in Hm. congruence.
  Qed.

Lemma fold_step_rev_separated (output acc : list segment) :
    Sorted separated acc -> Sorted separated (fold_left step_rev output acc).
  Proof.
    revert acc; induction output as [|e output IH]; intros acc HS; simpl.
    - assumption.
    - apply IH. now apply step_rev_separated.
  Qed.

Lemma Sorted_middle (R : segment -> segment -> Prop) (xs ys : list segment)
      (b a : segment) :
    Sorted R (xs ++ b :: a :: ys) -> R b a.
  Proof.
    induction xs as [|x xs IH]; simpl; intros HS.
    - apply Sorted_inv in HS as [_ Hhd]. now inversion Hhd.
    - apply Sorted_inv in HS as [HS _]. auto.
  Qed.

  (** A run of the sweep's output: a segment and those that follow it, each
      mergeable with the next. *)
Definition run : Type := segment * list segment.

Definition run_segments (r : run) : list segment := fst r :: snd r.

Fixpoint chain_from (a : segment) (rest : list segment) : Prop :=
    match rest with
    | [] => True
    | b :: rest' => mergeable a b /\ chain_from b rest'
    end.

Definition chain (r : run) : Prop := chain_from (fst r) (snd r).

  (** The one segment a run is combined into: from the start of its first
      segment to the end of its last, with the values of the last. *)
Definition join (r : run) : segment :=
    let l := last (snd r) (fst r) in
    mk_segment (seg_start (fst r)) (seg_end l) (seg_country l) (seg_lat l) (seg_lon l).

  (** The loop body on the runs behind the segments of [merged], newest
      first. *)
Definition step_runs (runs : list run) (entry : segment) : list run :=
    match runs with
    | r :: before =>
        if same_value (join r) entry && (seg_end (join r) + 1 =? seg_start entry)%Z
        then (fst r, snd r ++ [entry]) :: before
        else (entry, []) :: runs
    | [] => [(entry, [])]
    end.

Lemma join_single (e : segment) : join (e, []) = e.
  Proof. destruct e. reflexivity. Qed.

Lemma step_rev_runs (runs : list run) (entry : segment) :
    step_rev (map join runs) entry = map join (step_runs runs entry).
  Proof.
    destruct runs as [|[f rest] before]; cbn [map step_rev step_runs].
    - now rewrite join_single.
    - destruct (same_value (join (f, rest)) entry
                && (seg_end (join (f, rest)) + 1 =? seg_start entry)%Z);
        cbn [map fst snd].
      + unfold join at 3. cbn [fst snd]. now rewrite last_last.
      + now rewrite join_single.
  Qed.

Lemma fold_step_rev_runs (output : list segment) (runs : list run) :
    fold_left step_rev output (map join runs)
    = map join (fold_left step_runs output runs).
  Proof.
    revert runs; induction output as [|e output IH]; intros runs; simpl;
      [reflexivity|].
    now rewrite step_rev_runs, IH.
  Qed.

Lemma last_cons (a b : segment) (rest : list segment) :
    last (b :: rest) a = last rest b.
  Proof.
    revert a b; induction rest as [|c rest IH]; intros a b; [reflexivity|].
    change (last (b :: c :: rest) a) with (last (c :: rest) a).
    now rewrite (IH a c), (IH b c).
  Qed.

Lemma chain_from_snoc (a : segment) (rest : list segment) (e : segment) :
    chain_from a rest -> mergeable (last rest a) e -> chain_from a (rest ++ [e]).
  Proof.
    revert a; induction rest as [|b rest IH]; intros a.
    - simpl. auto.
    - rewrite last_cons. simpl. intros [Hab Hc] Hl. auto.
  Qed.

Lemma mergeable_join (r : run) (e : segment) :
    mergeable (join r) e <-> mergeable (last (snd r) (fst r)) e.
  Proof. unfold mergeable, join. simpl. tauto. Qed.

Lemma step_runs_chain (runs : list run) (entry : segment) :
    Forall chain runs -> Forall chain (step_runs runs entry).
  Proof.
    intros HF. destruct runs as [|r before]; cbn [step_runs].
    - repeat constructor.
    - destruct (same_value (join r) entry
                && (seg_end (join r) + 1 =? seg_start entry)%Z) eqn:E.
      + apply mergeable_test in E. apply (proj1 (mergeable_join r entry)) in E.
        apply Forall_inv in HF as Hr. apply Forall_inv_tail in HF.
        constructor; [|assumption].
        unfold chain; cbn [fst snd]. now apply chain_from_snoc.
      + constructor; [exact I | assumption].
  Qed.

Lemma step_runs_segments (runs : list run) (entry : segment) :
    flat_map run_segments (rev (step_runs runs entry))
    = flat_map run_segments (rev runs) ++ [entry].
  Proof.
    destruct runs as [|r before]; cbn [step_runs]; [reflexivity|].
    destruct (same_value (join r) entry
              && (seg_end (join r) + 1 =? seg_start entry)%Z); cbn [rev].
    - rewrite !flat_map_app. cbn [flat_map]. rewrite !app_nil_r.
      unfold run_segments. cbn [fst snd]. now rewrite <- app_assoc.
    - rewrite !flat_map_app. reflexivity.
  Qed.

Lemma fold_step_runs (output : list segment) (runs : list run) :
    Forall chain runs ->
    Forall chain (fold_left step_runs output runs) /\
    flat_map run_segments (rev (fold_left step_runs output runs))
    = flat_map run_segments (rev runs) ++ output.
  Proof.
    revert runs; induction output as [|e output IH]; intros runs HF; simpl.
    - split; [assumption | now rewrite app_nil_r].
    - destruct (IH _ (step_runs_chain e HF)) as [H1 H2].
      split; [assumption|].
      rewrite H2, step_runs_segments, <- app_assoc. reflexivity.
  Qed.

  (** The merged list is the list of the runs of the output, each combined
      into one segment. *)
Lemma coalesce_runs (output : list segment) :
    exists runs : list run,
      flat_map run_segments runs = output /\ Forall chain runs /\
      coalesce output = map join runs.
  Proof.
    destruct (@fold_step_runs output [] (Forall_nil _)) as [Hc Hs].
    exists (rev (fold_left step_runs output [])).
    split; [exact Hs|]. split.
    - apply Forall_forall. intros r Hr. apply in_rev in Hr.
      rewrite Forall_forall in Hc. auto.
    - unfold coalesce.
      rewrite <- (rev_involutive (fold_left coalesce_step output [])).
      rewrite coalesce_rev. simpl.
      change (@nil segment) with (map join []).
      now rewrite fold_step_rev_runs, map_rev.
  Qed.

  (** No two neighbours of the merged list are mergeable. *)
Lemma coalesce_separated (output : list segment) (i : nat) (a b : segment) :
    nth_error (coalesce output) i = Some a ->
    nth_error (coalesce output) (S i) = Some b ->
    ~ mergeable a b.
  Proof.
    intros Ha Hb.
    pose proof (fold_step_rev_separated output (Sorted_nil separated)) as HS.
    change [] with (rev (@nil segment)) in HS.
    rewrite <- coalesce_rev in HS. fold (coalesce output) in HS.
    apply nth_error_split in Ha as (l1 & l2 & Hm & Hlen).
    rewrite Hm in Hb, HS.
    replace (S i) with (List.length l1 + 1) in Hb by lia.
    rewrite nth_error_app2 in Hb by lia.
    replace (List.length l1 + 1 - List.length l1) with 1 in Hb by lia.
    destruct l2 as [|b' l3]; simpl in Hb; [discriminate|].
    injection Hb as ->.
    rewrite rev_app_distr in HS; simpl in HS.
    rewrite <- !app_assoc in HS; simpl in HS.
    eapply (@Sorted_middle separated); exact HS.
  Qed.

  (** C8. After the coalescing pass no two neighbouring segments [a], [b] of
      the merged list have the same country, lat and lon together with
      [a.end + 1 = b.start]; and the merged list is the sweep's output cut
      into runs of segments, each mergeable with the next, every run
      combined into a single segment, from the start of its first segment
      to the end of its last. *)
Theorem coalesce_no_mergeable_neighbours (output : list segment) :
    (forall (i : nat) (a b : segment),
        nth_error (coalesce output) i = Some a ->
        nth_error (coalesce output) (S i) = Some b ->
        ~ mergeable a b) /\
    exists runs : list run,
      flat_map run_segments runs = output /\ Forall chain runs /\
      coalesce output = map join runs.
  Proof.
    split; [apply coalesce_separated | apply coalesce_runs].
  Qed.

End Coalescing.

(** ** Loops that may raise *)

Section Loops.

  (** [m] does not raise [e]. *)
Definition never {A : Type} (e : exn) (m : outcome A) : Prop := m <> Raised e.

Lemma never_Ok {A : Type} (e : exn) (a : A) : never e (Ok a).
  Proof. discriminate. Qed.

Lemma never_other {A : Type} (e e' : exn) :
    e' <> e -> never e (@Raised A e').
  Proof. intros H [=]. contradiction. Qed.

Lemma never_bind {A B : Type} (e : exn) (m : outcome A) (k : A -> outcome B) :
    never e m -> (forall a, m = Ok a -> never e (k a)) -> never e (bind m k).
  Proof.
    destruct m as [a|e']; simpl; intros Hm Hk; [now apply Hk|].
    intros [= ->]. now apply Hm.
  Qed.

Lemma bind_Ok {A B : Type} (m : outcome A) (k : A -> outcome B) (b : B) :
    bind m k = Ok b -> exists a, m = Ok a /\ k a = Ok b.
  Proof. destruct m as [a|e]; simpl; [eauto | discriminate]. Qed.

  (** A loop keeps an invariant and avoids an exception when each round does. *)
Lemma foldM_invariant {S X : Type} (P : S -> Prop) (f : S -> X -> outcome S)
      (l : list X) :
    (forall s x s', In x l -> P s -> f s x = Ok s' -> P s') ->
    forall s s', P s -> foldM f l s = Ok s' -> P s'.
  Proof.
    induction l as [|x l IH]; simpl; intros Hf s s' Hs H.
    - now injection H as <-.
    - apply bind_Ok in H as (s1 & H1 & H2).
      apply (IH (fun s0 y s0' Hy => Hf s0 y s0' (or_intror Hy)) s1 s'); [|exact H2].
      apply (Hf s x s1); auto.
  Qed.

Lemma never_foldM {S X : Type} (e : exn) (P : S -> Prop)
      (f : S -> X -> outcome S) (l : list X) :
    (forall s x, In x l -> P s -> never e (f s x)) ->
    (forall s x s', In x l -> P s -> f s x = Ok s' -> P s') ->
    forall s, P s -> never e (foldM f l s).
  Proof.
    induction l as [|x l IH]; simpl; intros Hn Hf s Hs.
    - apply never_Ok.
    - apply never_bind; [apply Hn; auto|].
      intros s1 H1. apply IH; eauto.
  Qed.

Lemma foldM_pure {S X : Type} (f : S -> X -> outcome S) (g : S -> X -> S)
      (l : list X) :
    (forall s x, In x l -> f s x = Ok (g s x)) ->
    forall s, foldM f l s = Ok (fold_left g l s).
  Proof.
    induction l as [|x l IH]; simpl; intros Hf s; [reflexivity|].
    rewrite Hf by auto. simpl. apply IH. auto.
  Qed.

Lemma never_mapM {X Y : Type} (e : exn) (f : X -> outcome Y) (l : list X) :
    (forall x, In x l -> never e (f x)) -> never e (mapM f l).
  Proof.
    induction l as [|x l IH]; simpl; intros Hn; [apply never_Ok|].
    apply never_bind; [apply Hn; auto|]. intros y _.
    apply never_bind; [apply IH; auto|]. intros ys _. apply never_Ok.
  Qed.

Lemma mapM_length {X Y : Type} (f : X -> outcome Y) (l : list X) (ys : list Y) :
    mapM f l = Ok ys -> List.length ys = List.length l.
  Proof.
    revert ys; induction l as [|x l IH]; simpl; intros ys H.
    - now injection H as <-.
    - apply bind_Ok in H as (y & _ & H).
      apply bind_Ok in H as (ys' & H' & H).
      injection H as <-. simpl. f_equal. now apply IH.
  Qed.

Lemma mapM_pure {X Y : Type} (f : X -> outcome Y) (g : X -> Y) (l : list X) :
    (forall x, In x l -> f x = Ok (g x)) -> mapM f l = Ok (map g l).
  Proof.
    induction l as [|x l IH]; simpl; intros Hf; [reflexivity|].
    rewrite Hf by auto. simpl. rewrite IH by auto. reflexivity.
  Qed.

Lemma list_getitem_Ok {A : Type} (l : list A) (i : nat) :
    i < List.length l -> exists a, nth_error l i = Some a /\ list_getitem l i = Ok a.
  Proof.
    intros Hi. unfold list_getitem.
    destruct (nth_error l i) as [a|] eqn:E; [eauto|].
    apply nth_error_None in E. lia.
  Qed.

Lemma in_range (a b i : nat) : In i (range a b) <-> a <= i < b.
  Proof. unfold range. rewrite in_seq. lia. Qed.

End Loops.

(** ** Center picker: list positions stay in range *)

Section CenterPickerBounds.

  Context {PF : PyFloat}.

  (** Python's "list index out of range". *)
Definition list_index_error : exn := IndexError "list".

Lemma never_payload_getitem (data : payload) (i : nat) :
    never list_index_error (payload_getitem data i).
  Proof.
    unfold payload_getitem, list_index_error.
    destruct data as [s|c la lo].
    - destruct (String.get i s); [apply never_Ok | now apply never_other].
    - destruct i as [|[|[|i]]]; try apply never_Ok. now apply never_other.
  Qed.

Lemma never_float (s : string) : never list_index_error (float s).
  Proof.
    unfold float. destruct (parse_float s); [apply never_Ok | now apply never_other].
  Qed.

Lemma never_square (x : F) : never list_index_error (square x).
  Proof.
    unfold square. destruct (pow2 x); [apply never_Ok | now apply never_other].
  Qed.

Lemma never_distance (a b c d : F) : never list_index_error (distance a b c d).
  Proof.
    unfold distance.
    apply never_bind; [apply never_square|]; intros x _.
    apply never_bind; [apply never_square|]; intros y _.
    apply never_Ok.
  Qed.

Lemma never_entry_coords (e : string * payload) :
    never list_index_error (entry_coords e).
  Proof.
    destruct e as [name data]; unfold entry_coords.
    apply never_bind; [apply never_payload_getitem|]; intros lat _.
    apply never_bind; [apply never_payload_getitem|]; intros lon _.
    apply never_Ok.
  Qed.

Lemma never_parse_coords (named_ll : list (string * payload)) :
    never list_index_error (parse_coords named_ll).
  Proof.
    unfold parse_coords. apply never_mapM. intros e _.
    apply never_bind; [apply never_payload_getitem|]; intros s1 _.
    apply never_bind; [apply never_float|]; intros x _.
    apply never_bind; [apply never_payload_getitem|]; intros s2 _.
    apply never_bind; [apply never_float|]; intros y _.
    apply never_Ok.
  Qed.

Lemma never_distance_between (coords : list (F * F)) (a b : nat) :
    a < List.length coords -> b < List.length coords ->
    never list_index_error (distance_between coords a b).
  Proof.
    intros Ha Hb. unfold distance_between.
    destruct (list_getitem_Ok coords Ha) as (ca & _ & ->).
    destruct (list_getitem_Ok coords Hb) as (cb & _ & ->).
    simpl. apply never_distance.
  Qed.

Lemma never_max_spread (coords : list (F * F)) :
    never list_index_error (max_spread coords).
  Proof.
    unfold max_spread.
    apply never_foldM with (P := fun _ => True); auto.
    intros m a Ha _. apply in_range in Ha.
    apply never_foldM with (P := fun _ => True); auto.
    intros m' b Hb _. apply in_range in Hb.
    apply never_bind; [apply never_distance_between; lia|].
    intros d _. apply never_Ok.
  Qed.

Lemma never_total_distance (coords : list (F * F)) (idx : nat) :
    idx < List.length coords ->
    never list_index_error (total_distance coords idx).
  Proof.
    intros Hidx. unfold total_distance.
    apply never_bind; [|intros ds _; apply never_Ok].
    apply never_mapM. intros j Hj.
    apply filter_In in Hj as [Hj _]. apply in_range in Hj.
    apply never_distance_between; lia.
  Qed.

Lemma never_best_index (coords : list (F * F)) :
    never list_index_error (best_index coords).
  Proof.
    unfold best_index.
    apply never_bind; [|intros r _; apply never_Ok].
    apply never_foldM with (P := fun _ => True); auto.
    intros st idx Hidx _. apply in_range in Hidx.
    apply never_bind; [apply never_total_distance; lia|].
    intros total _. destruct (flt total (fst st)); apply never_Ok.
  Qed.

  (** The position [best_index] returns is one of the list. *)
Lemma best_index_in_range (coords : list (F * F)) (best : nat) :
    0 < List.length coords -> best_index coords = Ok best ->
    best < List.length coords.
  Proof.
    intros Hn H. unfold best_index in H.
    apply bind_Ok in H as (r & Hr & [= <-]).
    revert Hr.
    apply foldM_invariant
      with (P := fun st : F * nat => snd st < List.length coords); [|exact Hn].
    intros st idx st' Hidx Hst Hstep. apply in_range in Hidx.
    apply bind_Ok in Hstep as (total & _ & Hstep).
    destruct (flt total (fst st)); injection Hstep as <-; simpl; lia.
  Qed.

Lemma pick_center_coords_in_bounds (named_ll : list (string * payload))
      (threshold : F) :
    named_ll <> [] ->
    never list_index_error (pick_center_coords named_ll threshold).
  Proof.
    intros Hne. unfold pick_center_coords.
    assert (H0 : 0 < List.length named_ll) by (destruct named_ll; simpl; [congruence | lia]).
    destruct (list_getitem_Ok named_ll H0) as (e0 & _ & He0).
    destruct (List.length named_ll <? 3).
    - rewrite He0; simpl. apply never_entry_coords.
    - apply never_bind; [apply never_parse_coords|]; intros coords Hc.
      apply mapM_length in Hc.
      apply never_bind; [apply never_max_spread|]; intros m _.
      destruct (fle m threshold).
      + rewrite He0; simpl. apply never_entry_coords.
      + apply never_bind; [apply never_best_index|]; intros best Hb.
        apply best_index_in_range in Hb; [|lia].
        destruct (@list_getitem_Ok _ named_ll best ltac:(lia)) as (e & _ & ->).
        simpl. apply never_entry_coords.
  Qed.

Lemma pick_center_coords_nil (threshold : F) :
    pick_center_coords [] threshold = Raised list_index_error.
  Proof. reflexivity. Qed.

End CenterPickerBounds.

(** ** Dictionaries and counters *)

Section Dicts.

Lemma dict_set_not_nil {V : Type} (d : dict V) (k : string) (v : V) :
    dict_set d k v <> [].
  Proof.
    destruct d as [|[k' v'] d]; simpl; [discriminate|].
    destruct (String.eqb k k'); discriminate.
  Qed.

Lemma fold_dict_set_not_nil {V X : Type} (key : X -> string)
      (val : dict V -> X -> V) (l : list X) (d : dict V) :
    d <> [] \/ l <> [] ->
    fold_left (fun acc x => dict_set acc (key x) (val acc x)) l d <> [].
  Proof.
    revert d; induction l as [|x l IH]; simpl; intros d H.
    - destruct H; congruence.
    - apply IH. left. apply dict_set_not_nil.
  Qed.

Lemma Counter_not_nil (l : list string) : l <> [] -> Counter l <> [].
  Proof.
    intros H. unfold Counter.
    apply (fold_dict_set_not_nil (fun c => c)
             (fun votes c => S (match dict_get votes c with Some n => n | None => 0 end))).
    now right.
  Qed.

Lemma insert_by_count_length (x : string * nat) (l : list (string * nat)) :
    List.length (insert_by_count x l) = S (List.length l).
  Proof.
    induction l as [|y l IH]; simpl; [reflexivity|].
    destruct (snd x <? snd y); simpl; now rewrite ?IH.
  Qed.

Lemma most_common_length (votes : dict nat) :
    List.length (most_common votes) = List.length votes.
  Proof.
    induction votes as [|x votes IH]; simpl; [reflexivity|].
    now rewrite insert_by_count_length, IH.
  Qed.

End Dicts.

(** ** Conflict resolver: the call of the center picker *)

Section CenterCall.

  Context {PF : PyFloat}.

  Variable all_data : dict (option payload).
  Variable latlong_names : list string.
  Variable cfg : merge_config.

  Local Abbreviation cp := (coord_priority_list latlong_names cfg).
  Local Abbreviation avail := (available_ll all_data latlong_names cfg).

  (** [data[0]] of an observation that is true: the country of a tuple, the
      first character of a non-empty string. *)
Definition item0 (data : payload) : string :=
    match data with
    | WithCoords code _ _ => code
    | CountryOnly (String ch _) => String ch ""
    | CountryOnly EmptyString => ""
    end.

Lemma truthy_item0 (data : payload) :
    truthy (Some data) = true -> payload_getitem data 0 = Ok (item0 data).
  Proof. destruct data as [[|ch s]|c la lo]; simpl; [discriminate | reflexivity..]. Qed.

Lemma available_ll_In (name : string) (data : payload) :
    In (name, data) avail <->
    In name cp /\ mem name latlong_names = true /\
    get_obs all_data name = Some data /\ truthy (Some data) = true.
  Proof.
    unfold available_ll. rewrite in_flat_map. split.
    - intros (x & Hx & Hin).
      destruct (get_obs all_data x) as [d|] eqn:Hg;
        [|destruct (mem x latlong_names && truthy None); contradiction].
      destruct (mem x latlong_names) eqn:Hm; [|contradiction].
      destruct (truthy (Some d)) eqn:Ht; [|contradiction].
      destruct Hin as [[= <- <-]|[]]. auto.
    - intros (Hin & Hm & Hg & Ht). exists name. split; [assumption|].
      rewrite Hm, Hg, Ht. simpl. auto.
  Qed.

Lemma ll_country_list_eq :
    ll_country_list all_data latlong_names cfg
    = Ok (map (fun e => item0 (snd e)) avail).
  Proof.
    unfold ll_country_list. apply mapM_pure.
    intros [name data] Hin. apply available_ll_In in Hin. simpl.
    apply truthy_item0. tauto.
  Qed.

  (** The unanimous step applies: at least two entries of the coordinate
      priority list name latlong sources with an observation, and the first
      items of all those observations are one country. *)
Definition unanimous : Prop :=
    2 <= List.length avail /\ distinct (map (fun e => item0 (snd e)) avail) = 1.

Lemma center_call_cases :
    (unanimous /\
     center_call all_data latlong_names cfg = Ok (Some avail)) \/
    (~ unanimous /\ center_call all_data latlong_names cfg = Ok None).
  Proof.
    unfold center_call, unanimous. rewrite ll_country_list_eq. cbn [bind].
    destruct (Nat.leb_spec 2 (List.length avail)) as [H2|H2]; cbn [andb].
    - destruct (Nat.eqb_spec (distinct (map (fun e => item0 (snd e)) avail)) 1).
      + left; auto.
      + right; split; [tauto | reflexivity].
    - right; split; [lia | reflexivity].
  Qed.

Lemma countries_votes_not_nil :
    countries all_data <> [] -> most_common (votes all_data) <> [].
  Proof.
    intros Hc Hm.
    apply (f_equal (@List.length _)) in Hm. rewrite most_common_length in Hm.
    apply length_zero_iff_nil in Hm. revert Hm. apply Counter_not_nil.
    destruct (countries all_data); simpl; congruence.
  Qed.

Lemma vote_steps_returns :
    countries all_data <> [] ->
    exists d, vote_steps all_data latlong_names cfg = Ok (Some d).
  Proof.
    intros Hc. apply countries_votes_not_nil in Hc.
    unfold vote_steps.
    destruct (most_common (votes all_data)) as [|t top] eqn:Htop; [congruence|].
    destruct (coord_sources all_data latlong_names cfg); simpl; [eauto|].
    match goal with |- context [match ?x with Some d => _ | None => _ end] =>
      destruct x as [d|]; [eauto|] end.
    match goal with |- context [match ?x with Some d => _ | None => _ end] =>
      destruct x as [d|]; [eauto|] end.
    eauto.
  Qed.

End CenterCall.

Section CenterCallSafety.

  Context {PF : PyFloat}.

  (** C10. [pick_center_coords] reads [named_ll[0]] unguarded, so an empty
      list raises IndexError; [pick_winner] calls it only with at least two
      entries, and no run of [pick_winner] raises a list IndexError. *)
Theorem center_picker_index_unreachable :
    (forall threshold : F,
        pick_center_coords [] threshold = Raised (IndexError "list")) /\
    (forall all_data latlong_names cfg named_ll,
        center_call all_data latlong_names cfg = Ok (Some named_ll) ->
        2 <= List.length named_ll) /\
    (forall all_data latlong_names cfg,
        pick_winner all_data latlong_names cfg <> Raised (IndexError "list")).
  Proof.
    split; [exact pick_center_coords_nil|]. split.
    - intros all_data names cfg l H.
      destruct (center_call_cases all_data names cfg) as [[[H2 _] Hc]|[_ Hc]];
        rewrite Hc in H; [|discriminate].
      now injection H as <-.
    - intros all_data names cfg. fold list_index_error.
      change (never list_index_error (pick_winner all_data names cfg)).
      unfold pick_winner.
      destruct (countries all_data) as [|c0 cs] eqn:Hcs; [apply never_Ok|].
      assert (Hne : countries all_data <> []) by (rewrite Hcs; discriminate).
      destruct (center_call_cases all_data names cfg) as [[[H2 _] Hc]|[_ Hc]];
        rewrite Hc; simpl.
      + apply never_bind.
        * apply pick_center_coords_in_bounds.
          destruct (available_ll all_data names cfg); simpl in *; [lia | discriminate].
        * intros [[lat lon] src] _. rewrite ll_country_list_eq; simpl.
          destruct (@list_getitem_Ok _
                      (map (fun e => item0 (snd e)) (available_ll all_data names cfg)) 0)
            as (c & _ & ->); [rewrite length_map; lia|].
          simpl. apply never_Ok.
      + destruct (walk_overrides all_data names cfg (overrides cfg));
          [apply never_Ok|].
        destruct (@vote_steps_returns _ all_data names cfg Hne) as [d ->].
        apply never_Ok.
  Qed.

End CenterCallSafety.

(** ** Center picker: what it returns *)

(** What the comparisons of IEEE 754 floats satisfy. [fle x x] holds exactly
    when [x] is a number (not a NaN); two numbers are always comparable. *)
Class PyFloatOrder (PF : PyFloat) : Prop := {
  flt_irrefl : forall x : F, flt x x = false;
  flt_trans : forall x y z : F, flt x y = true -> flt y z = true -> flt x z = true;
  flt_inf : forall x y : F, flt x y = true -> flt x inf = true;
  flt_fle : forall x y : F, flt x y = true -> fle x y = true;
  fle_trans : forall x y z : F, fle x y = true -> fle y z = true -> fle x z = true;
  fle_refl_l : forall x y : F, fle x y = true -> fle x x = true;
  fle_refl_r : forall x y : F, fle x y = true -> fle y y = true;
  fle_total : forall x y : F,
      fle x x = true -> fle y y = true -> flt x y = false -> fle y x = true;
  flt_fle_trans : forall x y z : F,
      flt x y = true -> fle y z = true -> flt x z = true
}.

Section CenterPickerLoops.

Context {PF : PyFloat}.

Variable coords : list (F * F).
Variable D : nat -> nat -> F.

Local Abbreviation n := (List.length coords).

(** [D a b] is the distance the source computes between entries [a], [b]. *)
Hypothesis distances :
  forall a b, a < n -> b < n -> a <> b -> distance_between coords a b = Ok (D a b).

(** The pairwise distances in the order the first loops visit them. *)
Definition pair_distances : list F :=
  flat_map (fun a => map (D a) (range (a + 1) n)) (range 0 n).

Lemma pair_distances_In (d : F) :
  In d pair_distances <-> exists a b, a < b < n /\ d = D a b.
Proof.
  unfold pair_distances. rewrite in_flat_map. split.
  - intros (a & Ha & Hd). apply in_map_iff in Hd as (b & <- & Hb).
    apply in_range in Ha, Hb. exists a, b. split; [lia | reflexivity].
  - intros (a & b & Hab & ->). exists a. split; [apply in_range; lia|].
    apply in_map_iff. exists b. split; [reflexivity | apply in_range; lia].
Qed.

Lemma fold_left_flat_map {S X Y : Type} (g : S -> Y -> S) (h : X -> list Y)
    (l : list X) (s : S) :
  fold_left (fun s x => fold_left g (h x) s) l s = fold_left g (flat_map h l) s.
Proof.
  revert s; induction l as [|x l IH]; intros s; simpl; [reflexivity|].
  now rewrite fold_left_app, IH.
Qed.

Lemma fold_left_map {S X Y : Type} (g : S -> Y -> S) (h : X -> Y)
    (l : list X) (s : S) :
  fold_left (fun s x => g s (h x)) l s = fold_left g (map h l) s.
Proof.
  revert s; induction l as [|x l IH]; intros s; simpl; [reflexivity | apply IH].
Qed.

Lemma max_spread_eq :
  max_spread coords = Ok (fold_left pymax pair_distances (of_int 0)).
Proof.
  unfold max_spread, pair_distances.
  rewrite <- fold_left_flat_map.
  apply foldM_pure. intros m a Ha. apply in_range in Ha.
  rewrite <- fold_left_map.
  apply foldM_pure. intros m' b Hb. apply in_range in Hb.
  rewrite distances by lia. reflexivity.
Qed.

(** The sum of the distances from entry [i] to all the others, as the
    builtin [sum] returns it. *)
Definition sum_to_others (i : nat) : F :=
  fsum (map (D i) (filter (fun j => negb (j =? i)) (range 0 n))).

Lemma total_distance_eq (idx : nat) :
  idx < n -> total_distance coords idx = Ok (sum_to_others idx).
Proof.
  intros Hidx. unfold total_distance, sum_to_others.
  rewrite (mapM_pure _ (D idx)); [reflexivity|].
  intros j Hj. apply filter_In in Hj as [Hj Hne]. apply in_range in Hj.
  apply negb_true_iff, Nat.eqb_neq in Hne.
  apply distances; lia.
Qed.

(** One round of the last loop, on the totals. *)
Definition best_step (st : F * nat) (idx : nat) : F * nat :=
  if flt (sum_to_others idx) (fst st) then (sum_to_others idx, idx) else st.

Lemma best_index_eq :
  best_index coords = Ok (snd (fold_left best_step (range 0 n) (inf, 0))).
Proof.
  unfold best_index.
  rewrite (foldM_pure _ best_step); [reflexivity|].
  intros st idx Hidx. apply in_range in Hidx.
  rewrite total_distance_eq by lia. unfold best_step; simpl.
  now destruct (flt (sum_to_others idx) (fst st)).
Qed.

End CenterPickerLoops.

Section CenterPickerSpec.

Context {PF : PyFloat} {PO : PyFloatOrder PF}.

Lemma fold_pymax_cases (ds : list F) (m0 : F) :
  fold_left pymax ds m0 = m0 \/ In (fold_left pymax ds m0) ds.
Proof.
  revert m0; induction ds as [|d ds IH]; intros m0; simpl; [now left|].
  destruct (IH (pymax m0 d)) as [H|H]; [|now right; right].
  rewrite H. unfold pymax. destruct (flt m0 d); [right; now left | now left].
Qed.

(** The running maximum is above its start value and above every number it
    has seen. *)
Lemma fold_pymax_upper (ds : list F) (m0 : F) :
  fle m0 m0 = true -> (forall d, In d ds -> fle d d = true) ->
  fle m0 (fold_left pymax ds m0) = true /\
  forall d, In d ds -> fle d (fold_left pymax ds m0) = true.
Proof.
  revert m0; induction ds as [|d ds IH]; intros m0 Hm0 Hds; simpl.
  - split; [assumption | contradiction].
  - assert (Hd : fle d d = true) by (apply Hds; now left).
    assert (H1 : fle (pymax m0 d) (pymax m0 d) = true /\
                 fle m0 (pymax m0 d) = true /\ fle d (pymax m0 d) = true).
    { unfold pymax. destruct (flt m0 d) eqn:E.
      - repeat split; auto using flt_fle.
      - repeat split; auto using fle_total. }
    destruct H1 as (Hn & Hm & Hdm).
    destruct (IH (pymax m0 d) Hn (fun x Hx => Hds x (or_intror Hx))) as [Hup Hall].
    split; [eapply fle_trans; eauto|].
    intros x [<-|Hx]; [eapply fle_trans; eauto | auto].
Qed.

(** The state of the last loop after the positions below [m]: no total seen
    is below the recorded minimum, which is still [inf] (and the position 0)
    or is the total of the recorded position; and the minimum is below
    every total, a number, of an earlier position. *)
Definition best_inv (T : nat -> F) (m : nat) (st : F * nat) : Prop :=
  (forall j, j < m -> flt (T j) (fst st) = false) /\
  ((fst st = inf /\ snd st = 0) \/ (fst st = T (snd st) /\ snd st < m)) /\
  (forall j, j < snd st -> fle (T j) (T j) = true -> flt (fst st) (T j) = true).

Lemma best_step_inv (coords : list (F * F)) (D : nat -> nat -> F)
    (m : nat) (st : F * nat) :
  best_inv (sum_to_others coords D) m st ->
  best_inv (sum_to_others coords D) (S m) (best_step coords D st m).
Proof.
  intros (Hlow & Hst & Hfirst). unfold best_step.
  destruct (flt (sum_to_others coords D m) (fst st)) eqn:E;
    unfold best_inv; cbn [fst snd].
  - assert (Hnum : fle (fst st) (fst st) = true).
    { eapply fle_refl_r. apply flt_fle. exact E. }
    split; [|split].
    + intros j Hj. destruct (Nat.eq_dec j m) as [->|Hne]; [apply flt_irrefl|].
      destruct (flt (sum_to_others coords D j) (sum_to_others coords D m)) eqn:E';
        [|reflexivity].
      rewrite <- (Hlow j) by lia. symmetry. eapply flt_trans; eauto.
    + right. split; [reflexivity | lia].
    + intros j Hj Hnj. eapply flt_fle_trans; [exact E|].
      apply fle_total; auto.
  - split; [|split].
    + intros j Hj. destruct (Nat.eq_dec j m) as [->|Hne]; [exact E|].
      apply Hlow. lia.
    + destruct Hst as [Hst|[Hst Hin]]; [now left|]. right. split; [assumption | lia].
    + exact Hfirst.
Qed.

Lemma fold_best_inv (coords : list (F * F)) (D : nat -> nat -> F)
    (k m : nat) (st : F * nat) :
  best_inv (sum_to_others coords D) m st ->
  best_inv (sum_to_others coords D) (m + k)
           (fold_left (best_step coords D) (seq m k) st).
Proof.
  revert m st; induction k as [|k IH]; intros m st Hinv; simpl.
  - now rewrite Nat.add_0_r.
  - rewrite Nat.add_succ_r. apply (IH (S m)). now apply best_step_inv.
Qed.

(** The position the last loop ends on: no total is below its total, and
    its total is below every total, a number, of an earlier position. *)
Lemma best_index_minimal (coords : list (F * F)) (D : nat -> nat -> F) :
  0 < List.length coords ->
  let best := snd (fold_left (best_step coords D) (range 0 (List.length coords)) (inf, 0)) in
  best < List.length coords /\
  (forall j, j < List.length coords ->
             flt (sum_to_others coords D j) (sum_to_others coords D best) = false) /\
  (forall j, j < best ->
             fle (sum_to_others coords D j) (sum_to_others coords D j) = true ->
             flt (sum_to_others coords D best) (sum_to_others coords D j) = true).
Proof.
  intros Hn.
  assert (H0 : best_inv (sum_to_others coords D) 0 (inf, 0)).
  { split; [intros j Hj; lia|]. split; [left; auto|]. simpl. intros j Hj. lia. }
  apply (@fold_best_inv coords D (List.length coords)) in H0.
  simpl in H0. unfold range. rewrite Nat.sub_0_r.
  destruct H0 as (Hlow & Hst & Hfirst). cbv zeta.
  set (st := fold_left (best_step coords D) (seq 0 (List.length coords)) (inf, 0)) in *.
  destruct Hst as [[Hinf H0]|[HT Hin]].
  - rewrite H0. split; [assumption|]. split; [|intros j Hj; lia].
    intros j Hj.
    destruct (flt (sum_to_others coords D j) (sum_to_others coords D 0)) eqn:E;
      [|reflexivity].
    apply flt_inf in E. rewrite <- Hinf, Hlow in E; [discriminate | exact Hj].
  - split; [lia|]. rewrite <- HT. split; [exact Hlow | exact Hfirst].
Qed.

(** An entry [(name, (country, lat, lon))] of the picker's input, and the
    triple [(lat, lon, name)] the picker returns for it. *)
Definition tuple_entry (e : string * (string * string * string)) : string * payload :=
  let '(name, (country, lat, lon)) := e in (name, WithCoords country lat lon).

Definition entry_result (e : string * (string * string * string))
  : string * string * string :=
  let '(name, (country, lat, lon)) := e in (lat, lon, name).

Lemma entry_coords_tuple (e : string * (string * string * string)) :
  entry_coords (tuple_entry e) = Ok (entry_result e).
Proof. destruct e as [name [[c lat] lon]]. reflexivity. Qed.

(** The coordinate strings of an entry. *)
Definition entry_lat (e : string * (string * string * string)) : string :=
  let '(name, (country, lat, lon)) := e in lat.

Definition entry_lon (e : string * (string * string * string)) : string :=
  let '(name, (country, lat, lon)) := e in lon.

(** [float()] refuses one of the coordinate strings of [e]. *)
Definition not_numeric (e : string * (string * string * string)) : Prop :=
  parse_float (entry_lat e) = None \/ parse_float (entry_lon e) = None.

(** A comprehension whose items raise nothing but [e], and one of which
    raises it, raises [e]. *)
Lemma mapM_raises {X Y : Type} (f : X -> outcome Y) (e : exn) (l : list X) :
  (forall x, In x l -> f x = Raised e \/ exists y, f x = Ok y) ->
  (exists x, In x l /\ f x = Raised e) ->
  mapM f l = Raised e.
Proof.
  induction l as [|x l IH]; intros Hall (x0 & Hin & Hx0); [destruct Hin|].
  cbn [mapM].
  destruct (Hall x (or_introl eq_refl)) as [Hx|[y Hx]]; rewrite Hx; [reflexivity|].
  cbn [bind]. rewrite IH; [reflexivity | intros z Hz; apply Hall; now right|].
  destruct Hin as [<-|Hin]; [congruence | eauto].
Qed.

(** The list comprehension stops at the first string that is no number. *)
Lemma parse_coords_not_numeric (named : list (string * (string * string * string))) :
  (exists e, In e named /\ not_numeric e) ->
  parse_coords (map tuple_entry named) = Raised ValueError.
Proof.
  intros (e & Hin & He). unfold parse_coords. apply mapM_raises.
  - intros x Hx. apply in_map_iff in Hx as ([name [[c lat] lon]] & <- & _).
    cbn [tuple_entry snd payload_getitem bind]. unfold float.
    destruct (parse_float lat); [|now left]. cbn [bind].
    destruct (parse_float lon); [|now left]. cbn [bind]. right. eauto.
  - exists (tuple_entry e). split; [now apply in_map|].
    destruct e as [name [[c lat] lon]]. unfold not_numeric in He. simpl in He.
    cbn [tuple_entry snd payload_getitem bind]. unfold float.
    destruct He as [-> | He]; [reflexivity|].
    destruct (parse_float lat); [|reflexivity]. cbn [bind]. now rewrite He.
Qed.

(** [M] is the largest of the distances between two of the [n] entries. *)
Definition max_pairwise (D : nat -> nat -> F) (n : nat) (M : F) : Prop :=
  (exists a b, a < b < n /\ M = D a b) /\
  (forall a b, a < b < n -> fle (D a b) M = true).

(** C6 (as amended). With fewer than 3 entries the picker returns the first
    entry's coordinates. With 3 or more entries whose coordinate strings
    are numbers and whose distances are computed without overflow, with [M]
    the largest pairwise distance (a non-negative number): the first entry's
    coordinates when [M <= threshold], otherwise the coordinates of the
    first entry of smallest total, the total of an entry being the sum of
    its distances to the others: no total is below it, and it is below
    every total, a number, of an earlier entry. With 3 or more entries of
    which one has a coordinate string that is no number, the picker raises
    ValueError. *)
Theorem pick_center_coords_spec (first : string * (string * string * string))
    (rest : list (string * (string * string * string))) (threshold : F) :
  let named := first :: rest in
  let n := List.length named in
  let result := pick_center_coords (map tuple_entry named) threshold in
  (n < 3 -> result = Ok (entry_result first)) /\
  (3 <= n ->
   forall (coords : list (F * F)) (D : nat -> nat -> F) (M : F),
     parse_coords (map tuple_entry named) = Ok coords ->
     (forall a b, a < n -> b < n -> a <> b ->
                  distance_between coords a b = Ok (D a b)) ->
     max_pairwise D n M ->
     fle (of_int 0) M = true ->
     (fle M threshold = true -> result = Ok (entry_result first)) /\
     (fle M threshold = false ->
      exists best e,
        nth_error named best = Some e /\
        result = Ok (entry_result e) /\
        (forall j, j < n ->
                   flt (sum_to_others coords D j) (sum_to_others coords D best) = false) /\
        (forall j, j < best ->
                   fle (sum_to_others coords D j) (sum_to_others coords D j) = true ->
                   flt (sum_to_others coords D best) (sum_to_others coords D j) = true))) /\
  (3 <= n ->
   (exists e, In e named /\ not_numeric e) -> result = Raised ValueError).
Proof.
  cbv zeta. unfold pick_center_coords. rewrite length_map.
  split; [|split].
  - intros Hn. apply Nat.ltb_lt in Hn. rewrite Hn. simpl.
    apply entry_coords_tuple.
  - intros Hn coords D M Hparse Hdist [(a0 & b0 & Hab0 & HM) Hmax] H0M.
    apply Nat.ltb_ge in Hn. rewrite Hn. apply Nat.ltb_ge in Hn.
    rewrite Hparse. cbn [bind].
    pose proof (mapM_length _ _ Hparse) as Hlen. rewrite length_map in Hlen.
    rewrite <- Hlen in Hdist, Hab0, Hmax.
    rewrite (max_spread_eq coords D Hdist). cbn [bind].
    set (m := fold_left pymax (pair_distances coords D) (of_int 0)).
    assert (Hnum : forall d, In d (pair_distances coords D) -> fle d d = true).
    { intros d Hd. apply pair_distances_In in Hd as (a & b & Hab & ->).
      eapply fle_refl_l. apply Hmax. exact Hab. }
    assert (H00 : fle (of_int 0) (of_int 0) = true) by (eapply fle_refl_l; eauto).
    destruct (fold_pymax_upper (pair_distances coords D) (of_int 0) H00 Hnum)
      as [_ Hup]. fold m in Hup.
    assert (HMm : fle M m = true).
    { apply Hup. apply pair_distances_In. exists a0, b0. auto. }
    assert (HmM : fle m M = true).
    { destruct (fold_pymax_cases (pair_distances coords D) (of_int 0)) as [H|H];
        fold m in H.
      - now rewrite H.
      - apply pair_distances_In in H as (a & b & Hab & ->). now apply Hmax. }
    split.
    + intros Hle. rewrite (fle_trans _ _ _ HmM Hle). simpl.
      apply entry_coords_tuple.
    + intros Hgt.
      destruct (fle m threshold) eqn:E.
      { rewrite (fle_trans _ _ _ HMm E) in Hgt. discriminate. }
      rewrite (best_index_eq coords D Hdist). cbn [bind].
      destruct (@best_index_minimal coords D ltac:(lia)) as (Hb & Hmin & Hfirst).
      set (best := snd (fold_left (best_step coords D)
                          (range 0 (List.length coords)) (inf, 0))) in *.
      destruct (nth_error (first :: rest) best) as [e|] eqn:He.
      2:{ apply nth_error_None in He. simpl in *. lia. }
      exists best, e. split; [exact He|]. split; [|split].
      * unfold list_getitem. rewrite nth_error_map, He. simpl.
        apply entry_coords_tuple.
      * intros j Hj. apply Hmin. simpl in *; lia.
      * exact Hfirst.
  - intros Hn Hbad. apply Nat.ltb_ge in Hn. rewrite Hn.
    rewrite (@parse_coords_not_numeric _ Hbad). reflexivity.
Qed.

End CenterPickerSpec.

(** ** The comparisons of binary64 satisfy [PyFloatOrder] *)

Section Float64Order.

Import SpecFloat.

Ltac sf_cases :=
  unfold SFltb, SFleb, SFcompare; intros;
  repeat match goal with
         | x : spec_float |- _ => destruct x
         | s : bool |- _ => destruct s
         end;
  try discriminate; try reflexivity;
  change (Pos.compare_cont Eq) with Pos.compare in *;
  repeat match goal with
         | H : context [Z.compare ?a ?b] |- _ => destruct (Z.compare_spec a b); subst
         | |- context [Z.compare ?a ?b] => destruct (Z.compare_spec a b); subst
         | H : context [Pos.compare ?a ?b] |- _ => destruct (Pos.compare_spec a b); subst
         | |- context [Pos.compare ?a ?b] => destruct (Pos.compare_spec a b); subst
         end;
  simpl in *; try discriminate; try reflexivity; try lia.

Lemma SFltb_irrefl x : SFltb x x = false.
Proof. sf_cases. Qed.

Lemma SFltb_trans x y z :
  SFltb x y = true -> SFltb y z = true -> SFltb x z = true.
Proof. sf_cases. Qed.

Lemma SFltb_infinity x y :
  SFltb x y = true -> SFltb x (S754_infinity false) = true.
Proof. sf_cases. Qed.

Lemma SFltb_SFleb x y : SFltb x y = true -> SFleb x y = true.
Proof. sf_cases. Qed.

Lemma SFleb_trans x y z :
  SFleb x y = true -> SFleb y z = true -> SFleb x z = true.
Proof. sf_cases. Qed.

Lemma SFleb_refl_l x y : SFleb x y = true -> SFleb x x = true.
Proof. sf_cases. Qed.

Lemma SFleb_refl_r x y : SFleb x y = true -> SFleb y y = true.
Proof. sf_cases. Qed.

Lemma SFleb_total x y :
  SFleb x x = true -> SFleb y y = true -> SFltb x y = false -> SFleb y x = true.
Proof. sf_cases. Qed.

Lemma SFltb_SFleb_trans x y z :
  SFltb x y = true -> SFleb y z = true -> SFltb x z = true.
Proof. sf_cases. Qed.

(** The laws hold on every binary64 host, whatever its [pow] and [sum]. *)
#[global] Instance host_order c_pow builtin_sum :
  PyFloatOrder (Float64.host c_pow builtin_sum).
Proof.
  constructor; simpl; intros *;
    rewrite ?FloatAxioms.ltb_spec, ?FloatAxioms.leb_spec.
  - apply SFltb_irrefl.
  - apply SFltb_trans.
  - change (FloatOps.Prim2SF PrimFloat.infinity) with (S754_infinity false).
    apply SFltb_infinity.
  - apply SFltb_SFleb.
  - apply SFleb_trans.
  - apply SFleb_refl_l.
  - apply SFleb_refl_r.
  - apply SFleb_total.
  - apply SFltb_SFleb_trans.
Qed.

#[global] Instance binary64_order : PyFloatOrder Float64.binary64 :=
  host_order Float64.pow_rounded Float64.sum_left.

End Float64Order.

(** ** Dictionaries: lookup, insertion order, counting *)

Section DictFacts.

(** A dict has each key once. *)
Definition is_dict {V : Type} (d : dict V) : Prop := NoDup (map fst d).

Lemma dict_get_None {V : Type} (d : dict V) (k : string) :
  dict_get d k = None <-> ~ In k (map fst d).
Proof.
  induction d as [|[k' v] d IH]; simpl; [tauto|].
  destruct (String.eqb_spec k k') as [->|Hne].
  - split; [discriminate | intros H; exfalso; apply H; now left].
  - rewrite IH. split; [intros H [E|E]; [congruence | tauto] | tauto].
Qed.

Lemma dict_get_In {V : Type} (d : dict V) (k : string) (v : V) :
  dict_get d k = Some v -> In (k, v) d.
Proof.
  induction d as [|[k' v'] d IH]; simpl; [discriminate|].
  destruct (String.eqb_spec k k') as [->|Hne].
  - intros [= ->]. now left.
  - intros H. right. auto.
Qed.

Lemma In_dict_get {V : Type} (d : dict V) (k : string) (v : V) :
  is_dict d -> In (k, v) d -> dict_get d k = Some v.
Proof.
  unfold is_dict. induction d as [|[k' v'] d IH]; simpl; [contradiction|].
  intros Hnd [[= -> ->]|Hin].
  - now rewrite String.eqb_refl.
  - apply NoDup_cons_iff in Hnd as [Hk Hnd].
    destruct (String.eqb_spec k k') as [->|Hne]; [|auto].
    exfalso. apply Hk. apply in_map_iff. now exists (k', v).
Qed.

Lemma dict_set_fresh {V : Type} (d : dict V) (k : string) (v : V) :
  ~ In k (map fst d) -> dict_set d k v = d ++ [(k, v)].
Proof.
  induction d as [|[k' v'] d IH]; simpl; intros H; [reflexivity|].
  destruct (String.eqb_spec k k') as [->|Hne]; [exfalso; apply H; now left|].
  rewrite IH; [reflexivity | tauto].
Qed.

Lemma dict_get_set {V : Type} (d : dict V) (k k' : string) (v : V) :
  dict_get (dict_set d k v) k' = if String.eqb k' k then Some v else dict_get d k'.
Proof.
  induction d as [|[k0 v0] d IH]; simpl; [reflexivity|].
  destruct (String.eqb_spec k k0) as [->|Hne]; simpl.
  - destruct (String.eqb_spec k' k0); reflexivity.
  - rewrite IH. destruct (String.eqb_spec k' k0) as [->|Hne'].
    + destruct (String.eqb_spec k0 k); [congruence | reflexivity].
    + reflexivity.
Qed.

Lemma dict_set_keys {V : Type} (d : dict V) (k : string) (v : V) :
  map fst (dict_set d k v)
  = if in_dec string_dec k (map fst d) then map fst d else map fst d ++ [k].
Proof.
  induction d as [|[k0 v0] d IH]; simpl; [reflexivity|].
  destruct (String.eqb_spec k k0) as [->|Hne]; simpl.
  - destruct (string_dec k0 k0); [reflexivity | congruence].
  - rewrite IH. destruct (string_dec k0 k); [congruence|].
    destruct (in_dec string_dec k (map fst d)); reflexivity.
Qed.

Lemma dict_set_is_dict {V : Type} (d : dict V) (k : string) (v : V) :
  is_dict d -> is_dict (dict_set d k v).
Proof.
  unfold is_dict. rewrite dict_set_keys.
  destruct (in_dec string_dec k (map fst d)) as [Hin|Hnin]; [auto|].
  intros Hnd. apply NoDup_app; [assumption | repeat constructor; auto |].
  intros x Hx [<-|[]]. contradiction.
Qed.

(** The count a counter holds for [c]; 0 when [c] is no key. *)
Definition count_in (votes : dict nat) (c : string) : nat :=
  match dict_get votes c with Some k => k | None => 0 end.

Definition counter_step (votes : dict nat) (c : string) : dict nat :=
  dict_set votes c (S (count_in votes c)).

Lemma counter_fold (l : list string) (votes : dict nat) :
  is_dict votes -> (forall c k, In (c, k) votes -> 0 < k) ->
  let votes' := fold_left counter_step l votes in
  is_dict votes' /\ (forall c k, In (c, k) votes' -> 0 < k) /\
  forall c, count_in votes' c = count_in votes c + count_occ string_dec l c.
Proof.
  revert votes; induction l as [|x l IH]; intros votes Hd Hpos; simpl.
  - repeat split; auto.
  - assert (Hd' : is_dict (counter_step votes x)) by now apply dict_set_is_dict.
    assert (Hpos' : forall c k, In (c, k) (counter_step votes x) -> 0 < k).
    { intros c k Hin. apply In_dict_get in Hin; [|exact Hd'].
      unfold counter_step in Hin. rewrite dict_get_set in Hin.
      destruct (String.eqb c x); [injection Hin as <-; lia|].
      apply dict_get_In in Hin. eauto. }
    destruct (IH _ Hd' Hpos') as (H1 & H2 & H3).
    repeat split; auto.
    intros c. rewrite H3.
    assert (Hstep : count_in (counter_step votes x) c
                    = count_in votes c + if string_dec x c then 1 else 0).
    { unfold counter_step, count_in at 1. rewrite dict_get_set.
      destruct (string_dec x c) as [->|Hne].
      - rewrite String.eqb_refl. lia.
      - destruct (String.eqb_spec c x); [congruence|].
        fold (count_in votes c). lia. }
    rewrite Hstep. destruct (string_dec x c); lia.
Qed.

(** [Counter(l)] holds, for each element of [l], how often it occurs. *)
Lemma Counter_spec (l : list string) :
  is_dict (Counter l) /\
  forall c k, In (c, k) (Counter l) <-> k = count_occ string_dec l c /\ 0 < k.
Proof.
  destruct (@counter_fold l [] (NoDup_nil _) (fun c k H => match H with end))
    as (Hd & Hpos & Hcount).
  change (fold_left counter_step l []) with (Counter l) in *.
  split; [assumption|]. intros c k. specialize (Hcount c). simpl in Hcount.
  unfold count_in in Hcount. split.
  - intros Hin. split; [|eauto].
    now rewrite (@In_dict_get _ _ c k Hd Hin) in Hcount.
  - intros [-> Hk].
    destruct (dict_get (Counter l) c) as [k|] eqn:E; [|lia].
    subst. now apply dict_get_In.
Qed.

Definition by_count (x y : string * nat) : Prop := snd y <= snd x.

Lemma insert_by_count_In (x y : string * nat) (l : list (string * nat)) :
  In y (insert_by_count x l) <-> y = x \/ In y l.
Proof.
  induction l as [|z l IH]; simpl; [intuition|].
  destruct (snd x <? snd z); simpl; rewrite ?IH; intuition.
Qed.

Lemma insert_by_count_sorted (x : string * nat) (l : list (string * nat)) :
  StronglySorted by_count l -> StronglySorted by_count (insert_by_count x l).
Proof.
  induction 1 as [|y l Hl IH Hy]; simpl; [repeat constructor|].
  destruct (Nat.ltb_spec (snd x) (snd y)) as [Hlt|Hge].
  - constructor; [assumption|]. apply Forall_forall. intros z Hz.
    apply insert_by_count_In in Hz as [->|Hz].
    + unfold by_count; lia.
    + rewrite Forall_forall in Hy; auto.
  - constructor; [now constructor|]. constructor; [exact Hge|].
    apply Forall_forall. intros z Hz. rewrite Forall_forall in Hy.
    specialize (Hy z Hz). unfold by_count in *; lia.
Qed.

Lemma most_common_In (votes : dict nat) (y : string * nat) :
  In y (most_common votes) <-> In y votes.
Proof.
  induction votes as [|x votes IH]; simpl; [tauto|].
  rewrite insert_by_count_In, IH. intuition.
Qed.

Lemma most_common_sorted (votes : dict nat) :
  StronglySorted by_count (most_common votes).
Proof.
  induction votes as [|x votes IH]; simpl; [constructor|].
  now apply insert_by_count_sorted.
Qed.

Lemma insert_by_count_keys (x : string * nat) (l : list (string * nat)) :
  Permutation (map fst (insert_by_count x l)) (fst x :: map fst l).
Proof.
  induction l as [|y l IH]; simpl; [reflexivity|].
  destruct (snd x <? snd y); simpl; [|reflexivity].
  rewrite IH. apply perm_swap.
Qed.

Lemma most_common_is_dict (votes : dict nat) :
  is_dict votes -> is_dict (most_common votes).
Proof.
  unfold is_dict. intros H.
  assert (P : Permutation (map fst (most_common votes)) (map fst votes)).
  { clear H. induction votes as [|x votes IH]; simpl; [reflexivity|].
    rewrite insert_by_count_keys. now constructor. }
  eapply Permutation_NoDup; [symmetry; exact P | exact H].
Qed.

(** [len(set(l)) == 1]: [l] is not empty and all its elements are equal. *)
Lemma distinct_one (l : list string) (c : string) :
  (l <> [] /\ forall x, In x l -> x = c) <-> (distinct l = 1 /\ In c l).
Proof.
  unfold distinct. split.
  - intros [Hne Hall]. induction l as [|x l IH]; [congruence|].
    assert (x = c) by (apply Hall; now left). subst x.
    split; [|now left]. simpl.
    destruct (in_dec string_dec c l) as [Hin|Hnin].
    + apply IH; [destruct l; [contradiction | discriminate]|].
      intros y Hy. apply Hall. now right.
    + destruct l as [|y l]; [reflexivity|].
      exfalso. apply Hnin. left. apply Hall. right. now left.
  - intros [Hlen Hin]. split; [destruct l; [contradiction | discriminate]|].
    intros x Hx.
    apply (nodup_In string_dec) in Hin, Hx.
    destruct (nodup string_dec l) as [|y [|z t]]; simpl in *; try discriminate.
    destruct Hin as [<-|[]], Hx as [<-|[]]. reflexivity.
Qed.

End DictFacts.

(** ** Conflict resolver: countries, votes and coordinate lookup *)

Section ResolverFacts.

Context {PF : PyFloat}.

Variable all_data : dict (option payload).
Variable latlong_names : list string.
Variable cfg : merge_config.

Local Abbreviation cp := (coord_priority_list latlong_names cfg).

(** The country a source reports, when it has an observation. *)
Definition present_country (name : string) : option string :=
  option_map country_of (get_obs all_data name).

(** The reported countries of all the sources that have an observation, in
    the order of the sources, and the number of votes of a country. *)
Definition reported : list string :=
  flat_map (fun item : string * option payload =>
              match snd item with
              | Some data => [country_of data]
              | None => []
              end) all_data.

Definition tally (c : string) : nat := count_occ string_dec reported c.

(** [src] is the first name of the coordinate priority list whose
    observation is a tuple with country [c]; [lat], [lon] are its
    coordinates. *)
Definition first_coord_source (c lat lon src : string) : Prop :=
  exists before after,
    cp = before ++ src :: after /\
    get_obs all_data src = Some (WithCoords c lat lon) /\
    forall x la lo, In x before -> get_obs all_data x <> Some (WithCoords c la lo).

Definition has_coords (c : string) : Prop :=
  exists lat lon src, first_coord_source c lat lon src.

(** Every source the rule lists has an observation, all with country [c]. *)
Definition rule_matches (rule : list string) (c : string) : Prop :=
  rule <> [] /\ forall s, In s rule -> present_country s = Some c.

Definition country_item (item : string * option payload) : list (string * string) :=
  match snd item with
  | Some data => [(fst item, country_of data)]
  | None => []
  end.

Lemma countries_fold (l : dict (option payload)) (acc : dict string) :
  NoDup (map fst acc ++ map fst l) ->
  fold_left
    (fun acc (item : string * option payload) =>
       match snd item with
       | None => acc
       | Some data => dict_set acc (fst item) (country_of data)
       end) l acc
  = acc ++ flat_map country_item l.
Proof.
  revert acc; induction l as [|[k o] l IH]; intros acc Hnd; simpl.
  - now rewrite app_nil_r.
  - simpl in Hnd. destruct o as [d|]; unfold country_item at 1; simpl.
    + rewrite dict_set_fresh.
      * rewrite IH; [now rewrite <- app_assoc|].
        rewrite map_app; simpl. now rewrite <- app_assoc.
      * apply NoDup_remove_2 in Hnd. intros H. apply Hnd.
        apply in_or_app. now left.
    + apply IH. now apply NoDup_remove_1 in Hnd.
Qed.

Lemma countries_eq :
  is_dict all_data -> countries all_data = flat_map country_item all_data.
Proof. intros H. unfold countries. now rewrite countries_fold. Qed.

Lemma country_item_keys (l : dict (option payload)) (k : string) :
  In k (map fst (flat_map country_item l)) -> In k (map fst l).
Proof.
  induction l as [|[k' o] l IH]; simpl; [auto|].
  rewrite map_app, in_app_iff. intros [H|H]; [|auto].
  destruct o; simpl in H; [destruct H as [<-|[]]; now left | contradiction].
Qed.

Lemma countries_get (name : string) :
  is_dict all_data ->
  dict_get (countries all_data) name = present_country name.
Proof.
  intros Hd. rewrite countries_eq by assumption.
  unfold present_country, get_obs. unfold is_dict in Hd.
  induction all_data as [|[k o] l IH]; simpl; [reflexivity|].
  apply NoDup_cons_iff in Hd as [Hk Hd].
  destruct (String.eqb_spec name k) as [->|Hne].
  - destruct o as [d|]; simpl; [now rewrite String.eqb_refl|].
    apply dict_get_None. intros H. apply Hk. now apply country_item_keys.
  - destruct o as [d|]; simpl; [|now apply IH].
    destruct (String.eqb_spec name k); [congruence | now apply IH].
Qed.

Lemma countries_values :
  is_dict all_data -> map snd (countries all_data) = reported.
Proof.
  intros Hd. rewrite countries_eq by assumption. unfold reported.
  clear Hd. induction all_data as [|[k o] l IH]; simpl; [reflexivity|].
  rewrite map_app, IH. now destruct o.
Qed.

Lemma countries_nil :
  countries all_data = [] <-> forall item, In item all_data -> snd item = None.
Proof.
  unfold countries.
  assert (H : forall l acc,
             fold_left
               (fun acc (item : string * option payload) =>
                  match snd item with
                  | None => acc
                  | Some data => dict_set acc (fst item) (country_of data)
                  end) l acc = [] <->
             acc = [] /\ forall item, In item l -> snd item = None).
  { induction l as [|[k o] l IH]; intros acc; simpl.
    - intuition.
    - rewrite IH. destruct o as [d|]; simpl.
      + split.
        * intros [H _]. now apply dict_set_not_nil in H.
        * intros [_ H]. specialize (H (k, Some d) (or_introl eq_refl)).
          discriminate.
      + split.
        * intros [-> H]. split; [reflexivity|]. intros item [<-|Hin]; auto.
        * intros [-> H]. split; [reflexivity|]. auto. }
  rewrite H. tauto.
Qed.

Lemma votes_spec :
  is_dict all_data ->
  is_dict (votes all_data) /\
  forall c k, In (c, k) (votes all_data) <-> k = tally c /\ 0 < k.
Proof.
  intros Hd. unfold votes, tally. rewrite countries_values by assumption.
  apply Counter_spec.
Qed.

(** The first item of [most_common] has the largest number of votes. *)
Lemma top_voted (t : string * nat) (rest : list (string * nat)) :
  is_dict all_data -> most_common (votes all_data) = t :: rest ->
  snd t = tally (fst t) /\ 0 < tally (fst t) /\ forall c, tally c <= tally (fst t).
Proof.
  intros Hd Htop. destruct (votes_spec Hd) as [_ Hv].
  assert (Ht : In t (votes all_data)).
  { apply most_common_In. rewrite Htop. now left. }
  destruct t as [c0 k0]. apply Hv in Ht as [-> Hpos]. simpl.
  repeat split; [assumption|]. intros c.
  destruct (Nat.eq_dec (tally c) 0) as [->|Hc]; [lia|].
  assert (Hin : In (c, tally c) (most_common (votes all_data))).
  { apply most_common_In, Hv. split; [reflexivity | lia]. }
  pose proof (most_common_sorted (votes all_data)) as HS.
  rewrite Htop in HS, Hin. apply StronglySorted_inv in HS as [_ HS].
  destruct Hin as [[= -> _]|Hin]; [lia|].
  rewrite Forall_forall in HS. exact (HS _ Hin).
Qed.

End ResolverFacts.

(** ** Conflict resolver: the steps after the unanimous one *)

Section ResolverSteps.

Context {PF : PyFloat}.

Variable all_data : dict (option payload).
Variable latlong_names : list string.
Variable cfg : merge_config.

Local Abbreviation cp := (coord_priority_list latlong_names cfg).
Local Abbreviation find_c := (find_coords all_data latlong_names cfg).
Local Abbreviation first_src := (first_coord_source all_data latlong_names cfg).
Local Abbreviation coords_for := (has_coords all_data latlong_names cfg).

Lemma find_coords_first (c : string) :
  match find_c c with
  | Some (lat, lon, src) => first_src c lat lon src
  | None => forall x la lo, In x cp -> get_obs all_data x <> Some (WithCoords c la lo)
  end.
Proof.
  unfold find_coords, coord_sources, first_coord_source.
  induction cp as [|name l IH]; simpl.
  - intros x la lo [].
  - destruct (get_obs all_data name) as [[s|c' la' lo']|] eqn:Hg; simpl.
    + destruct (find _ _) as [[[[c0 lat] lon] src]|].
      * destruct IH as (before & after & -> & Hsrc & Hbefore).
        exists (name :: before), after. repeat split; auto.
        intros x la lo [<-|Hx]; [congruence | auto].
      * intros x la lo [<-|Hx]; [congruence | auto].
    + destruct (String.eqb_spec c' c) as [->|Hne].
      * exists [], l. repeat split; auto.
      * destruct (find _ _) as [[[[c0 lat] lon] src]|].
        -- destruct IH as (before & after & -> & Hsrc & Hbefore).
           exists (name :: before), after. repeat split; auto.
           intros x la lo [<-|Hx]; [congruence | auto].
        -- intros x la lo [<-|Hx]; [congruence | auto].
    + destruct (find _ _) as [[[[c0 lat] lon] src]|].
      * destruct IH as (before & after & -> & Hsrc & Hbefore).
        exists (name :: before), after. repeat split; auto.
        intros x la lo [<-|Hx]; [congruence | auto].
      * intros x la lo [<-|Hx]; [congruence | auto].
Qed.

Lemma first_coord_source_unique (c lat lon src lat' lon' src' : string) :
  first_src c lat lon src -> first_src c lat' lon' src' ->
  lat = lat' /\ lon = lon' /\ src = src'.
Proof.
  unfold first_coord_source.
  intros (b1 & a1 & E1 & H1 & F1) (b2 & a2 & E2 & H2 & F2).
  rewrite E1 in E2. clear E1.
  revert b2 E2 F2. induction b1 as [|x b1 IH]; intros [|y b2] E2 F2; simpl in E2.
  - injection E2 as <- _. rewrite H1 in H2. now injection H2.
  - injection E2 as <- _. exfalso. apply (F2 src lat lon); [now left | exact H1].
  - injection E2 as -> _. exfalso. apply (F1 src' lat' lon'); [now left | exact H2].
  - injection E2 as <- E2.
    apply (IH (fun z la lo Hz => F1 z la lo (or_intror Hz)) b2 E2).
    intros z la lo Hz. apply F2. now right.
Qed.

Lemma find_coords_Some (c lat lon src : string) :
  first_src c lat lon src <-> find_c c = Some (lat, lon, src).
Proof.
  pose proof (find_coords_first c) as H. split.
  - intros Hf. destruct (find_c c) as [[[lat' lon'] src']|].
    + destruct (first_coord_source_unique Hf H) as (-> & -> & ->). reflexivity.
    + destruct Hf as (before & after & E & Hsrc & _). exfalso.
      apply (H src lat lon); [rewrite E; apply in_or_app; right; now left | exact Hsrc].
  - intros E. now rewrite E in H.
Qed.

Lemma find_coords_None (c : string) : ~ coords_for c <-> find_c c = None.
Proof.
  split.
  - intros Hn. destruct (find_c c) as [[[lat lon] src]|] eqn:E; [|reflexivity].
    exfalso. apply Hn. exists lat, lon, src. now apply find_coords_Some.
  - intros E (lat & lon & src & H). apply find_coords_Some in H. congruence.
Qed.

(** *** Override rules *)

Lemma match_countries_all (rule : list string) (c : string) :
  is_dict all_data ->
  (forall s, In s rule -> present_country all_data s = Some c) ->
  match_countries all_data rule = Some (map (fun _ => c) rule).
Proof.
  intros Hd. induction rule as [|s rule IH]; intros H; simpl; [reflexivity|].
  rewrite countries_get, (H s (or_introl eq_refl)) by assumption.
  rewrite IH; [reflexivity|]. intros x Hx. apply H. now right.
Qed.

Lemma match_countries_Forall2 (rule mc : list string) :
  is_dict all_data -> match_countries all_data rule = Some mc ->
  Forall2 (fun s c => present_country all_data s = Some c) rule mc.
Proof.
  intros Hd. revert mc; induction rule as [|s rule IH]; intros mc; simpl.
  - intros [= <-]. constructor.
  - rewrite countries_get by assumption.
    destruct (present_country all_data s) as [c|] eqn:E; [|discriminate].
    destruct (match_countries all_data rule) as [cs|]; [|discriminate].
    intros [= <-]. constructor; auto.
Qed.

Lemma Forall2_all_equal (rule mc : list string) (c : string) :
  Forall2 (fun s x => present_country all_data s = Some x) rule mc ->
  (forall x, In x mc -> x = c) ->
  forall s, In s rule -> present_country all_data s = Some c.
Proof.
  induction 1 as [|s0 c0 rule' mc' H0 Hm IH]; intros Hall s Hs; [contradiction|].
  destruct Hs as [->|Hs].
  - rewrite H0. f_equal. apply Hall. now left.
  - apply IH; [|assumption]. intros x Hx. apply Hall. now right.
Qed.

Lemma match_countries_rule (rule mc : list string) (c : string) :
  is_dict all_data ->
  match_countries all_data rule = Some (c :: mc) -> distinct (c :: mc) = 1 ->
  rule_matches all_data rule c.
Proof.
  intros Hd Hm Hone.
  apply match_countries_Forall2 in Hm; [|assumption].
  assert (Hall : forall x, In x (c :: mc) -> x = c).
  { apply distinct_one. split; [assumption | now left]. }
  split; [inversion Hm; discriminate|].
  eapply Forall2_all_equal; eauto.
Qed.

Lemma rule_matches_countries (rule : list string) (c : string) :
  is_dict all_data -> rule_matches all_data rule c ->
  exists mc, match_countries all_data rule = Some (c :: mc) /\
             distinct (c :: mc) = 1.
Proof.
  intros Hd [Hne Hall].
  rewrite (@match_countries_all rule c Hd Hall).
  destruct rule as [|s rule]; [congruence|]. simpl.
  exists (map (fun _ => c) rule). split; [reflexivity|].
  apply (distinct_one (c :: map (fun _ => c) rule) c).
  split; [discriminate|].
  intros x [<-|Hx]; [reflexivity|].
  apply in_map_iff in Hx as (y & <- & _). reflexivity.
Qed.

(** A rule decides: it matches, and a coordinate source reports its country. *)
Definition rule_decides (rule : list string) : Prop :=
  exists c, rule_matches all_data rule c /\ coords_for c.

Lemma walk_overrides_step (rule : list string) (rules : list (list string)) :
  is_dict all_data -> ~ rule_decides rule ->
  walk_overrides all_data latlong_names cfg (rule :: rules)
  = walk_overrides all_data latlong_names cfg rules.
Proof.
  intros Hd Hn. simpl.
  destruct (match_countries all_data rule) as [[|c mc]|] eqn:Hm; try reflexivity.
  destruct (Nat.eqb_spec (distinct (c :: mc)) 1) as [Hone|]; [|reflexivity].
  pose proof (@match_countries_rule rule mc c Hd Hm Hone) as Hr.
  destruct (find_c c) as [[[lat lon] src]|] eqn:E; [|reflexivity].
  exfalso. apply Hn. exists c. split; [assumption|].
  exists lat, lon, src. now apply find_coords_Some.
Qed.

Lemma walk_overrides_none (rules : list (list string)) :
  is_dict all_data -> (forall rule, In rule rules -> ~ rule_decides rule) ->
  walk_overrides all_data latlong_names cfg rules = None.
Proof.
  intros Hd. induction rules as [|rule rules IH]; intros H; [reflexivity|].
  rewrite walk_overrides_step; [|assumption | apply H; now left].
  apply IH. intros r Hr. apply H. now right.
Qed.

Lemma walk_overrides_fire (before after : list (list string))
    (rule : list string) (c lat lon src : string) :
  is_dict all_data ->
  (forall r, In r before -> ~ rule_decides r) ->
  rule_matches all_data rule c -> first_src c lat lon src ->
  walk_overrides all_data latlong_names cfg (before ++ rule :: after)
  = Some (c, lat, lon, (String.concat "+" rule ++ "->" ++ src)%string).
Proof.
  intros Hd Hbefore Hrule Hsrc.
  induction before as [|r before IH]; simpl app.
  - destruct (@rule_matches_countries rule c Hd Hrule) as (mc & Hm & Hone).
    simpl. rewrite Hm, Hone. simpl.
    apply find_coords_Some in Hsrc. now rewrite Hsrc.
  - rewrite walk_overrides_step; [|assumption | apply Hbefore; now left].
    apply IH. intros x Hx. apply Hbefore. now right.
Qed.

(** *** Votes *)

Lemma present_country_tally (s c : string) :
  present_country all_data s = Some c -> 0 < tally all_data c.
Proof.
  unfold present_country, get_obs, tally. intros H.
  destruct (dict_get all_data s) as [[d|]|] eqn:E; try discriminate.
  injection H as <-. apply dict_get_In in E.
  apply count_occ_In. unfold reported. apply in_flat_map.
  exists (s, Some d). split; [assumption | now left].
Qed.

Lemma walk_vote_priority_none (tied names : list string) :
  is_dict all_data ->
  (forall x c, In x names -> present_country all_data x = Some c ->
               mem c tied = true -> ~ coords_for c) ->
  walk_vote_priority all_data latlong_names cfg tied names = None.
Proof.
  intros Hd. induction names as [|x names IH]; intros H; simpl; [reflexivity|].
  rewrite countries_get by assumption.
  assert (IH' : walk_vote_priority all_data latlong_names cfg tied names = None).
  { apply IH. intros y c Hy. apply H. now right. }
  destruct (present_country all_data x) as [c|] eqn:E; [|assumption].
  destruct (mem c tied) eqn:Hm; [|assumption].
  assert (Hn : ~ coords_for c) by exact (H x c (or_introl eq_refl) E Hm).
  apply find_coords_None in Hn. now rewrite Hn.
Qed.

Lemma walk_vote_priority_fire (tied before after : list string)
    (prio c lat lon src : string) :
  is_dict all_data ->
  (forall x c', In x before -> present_country all_data x = Some c' ->
                mem c' tied = true -> ~ coords_for c') ->
  present_country all_data prio = Some c -> mem c tied = true ->
  first_src c lat lon src ->
  walk_vote_priority all_data latlong_names cfg tied (before ++ prio :: after)
  = Some (c, lat, lon, ("vote->" ++ src)%string).
Proof.
  intros Hd Hbefore Hprio Hmem Hsrc.
  induction before as [|x before IH]; simpl.
  - rewrite countries_get, Hprio, Hmem by assumption.
    apply find_coords_Some in Hsrc. now rewrite Hsrc.
  - rewrite countries_get by assumption.
    assert (IH' : walk_vote_priority all_data latlong_names cfg tied
                    (before ++ prio :: after)
                  = Some (c, lat, lon, ("vote->" ++ src)%string)).
    { apply IH. intros y c' Hy. apply Hbefore. now right. }
    destruct (present_country all_data x) as [c'|] eqn:E; [|assumption].
    destruct (mem c' tied) eqn:Hm; [|assumption].
    assert (Hn : ~ coords_for c') by exact (Hbefore x c' (or_introl eq_refl) E Hm).
    apply find_coords_None in Hn. now rewrite Hn.
Qed.

Lemma walk_top_none (top : list (string * nat)) :
  (forall t, In t top -> ~ coords_for (fst t)) ->
  walk_top all_data latlong_names cfg top = None.
Proof.
  induction top as [|[c k] top IH]; intros H; simpl; [reflexivity|].
  assert (Hn : ~ coords_for c) by (apply (H (c, k)); now left).
  apply find_coords_None in Hn. rewrite Hn.
  apply IH. intros t Ht. apply H. now right.
Qed.

End ResolverSteps.

(** ** Conflict resolver: the decision procedure *)

Section ResolverTheorems.

Context {PF : PyFloat}.

Variable all_data : dict (option payload).
Variable latlong_names : list string.
Variable cfg : merge_config.

Local Abbreviation cp := (coord_priority_list latlong_names cfg).
Local Abbreviation avail := (available_ll all_data latlong_names cfg).
Local Abbreviation unanimous_here := (unanimous all_data latlong_names cfg).
Local Abbreviation first_src := (first_coord_source all_data latlong_names cfg).
Local Abbreviation coords_for := (has_coords all_data latlong_names cfg).
Local Abbreviation decides := (rule_decides all_data latlong_names cfg).
Local Abbreviation winner := (pick_winner all_data latlong_names cfg).

(** A latlong-role source with an observation. *)
Definition listed (name : string) : bool :=
  mem name latlong_names && truthy (get_obs all_data name).

Lemma available_ll_names : map fst avail = filter listed cp.
Proof.
  unfold available_ll, listed.
  induction cp as [|name l IH]; simpl; [reflexivity|].
  rewrite map_app, IH.
  destruct (mem name latlong_names && truthy (get_obs all_data name)) eqn:E;
    [|reflexivity].
  destruct (get_obs all_data name); [reflexivity|].
  apply andb_true_iff in E as [_ E]. discriminate.
Qed.

Lemma get_obs_present (name : string) (data : payload) :
  get_obs all_data name = Some data -> countries all_data <> [].
Proof.
  unfold get_obs. intros H Hnil.
  destruct (dict_get all_data name) as [o|] eqn:E; [|discriminate]. subst o.
  apply dict_get_In in E.
  rewrite countries_nil in Hnil. specialize (Hnil _ E). discriminate.
Qed.

Lemma unanimous_present : unanimous_here -> countries all_data <> [].
Proof.
  intros [H2 _].
  destruct avail as [|[name data] l] eqn:E; [simpl in H2; lia|].
  assert (Hin : In (name, data) avail) by (rewrite E; now left).
  apply available_ll_In in Hin as (_ & _ & Hg & _).
  eapply get_obs_present; eauto.
Qed.

Lemma bind_ext {A B : Type} (m : outcome A) (k k' : A -> outcome B) :
  (forall a, k a = k' a) -> bind m k = bind m k'.
Proof. intros H. destruct m; simpl; [apply H | reflexivity]. Qed.

(** The resolver when the unanimous step applies, with [c] the country all
    the listed sources report. *)
Lemma pick_winner_unanimous (c : string) :
  unanimous_here -> (forall e, In e avail -> item0 (snd e) = c) ->
  winner = bind (pick_center_coords avail (threshold cfg))
             (fun r => Ok (Some (c, fst (fst r), snd (fst r),
                                 ("unanimous->" ++ snd r)%string))).
Proof.
  intros Hu Hall. pose proof (unanimous_present Hu) as Hne.
  unfold pick_winner.
  destruct (countries all_data) as [|x xs]; [congruence|].
  destruct (center_call_cases all_data latlong_names cfg) as [[_ Hc]|[Hn _]];
    [|contradiction].
  rewrite Hc. cbn [bind]. apply bind_ext. intros [[lat lon] src].
  rewrite ll_country_list_eq. cbn [bind].
  destruct Hu as [H2 _].
  destruct avail as [|e l] eqn:E; [simpl in H2; lia|].
  simpl. rewrite (Hall e (or_introl eq_refl)). reflexivity.
Qed.

(** The resolver when the unanimous step does not apply. *)
Lemma pick_winner_not_unanimous :
  countries all_data <> [] -> ~ unanimous_here ->
  winner = match walk_overrides all_data latlong_names cfg (overrides cfg) with
           | Some d => Ok (Some d)
           | None => vote_steps all_data latlong_names cfg
           end.
Proof.
  intros Hne Hn. unfold pick_winner.
  destruct (countries all_data) as [|x xs]; [congruence|].
  destruct (center_call_cases all_data latlong_names cfg) as [[Hu _]|[_ Hc]];
    [contradiction|].
  now rewrite Hc.
Qed.

Lemma coord_sources_nil :
  coord_sources all_data latlong_names cfg = [] <->
  forall name c la lo,
    In name cp -> get_obs all_data name <> Some (WithCoords c la lo).
Proof.
  unfold coord_sources. induction cp as [|name l IH]; simpl.
  - split; [intros _ ? ? ? ? [] | reflexivity].
  - split.
    + intros H. apply app_eq_nil in H as [H1 H2].
      intros x c la lo [<-|Hx].
      * intros E. rewrite E in H1. discriminate.
      * apply IH; assumption.
    + intros H.
      rewrite (proj2 IH) by (intros x c la lo Hx; apply H; now right).
      destruct (get_obs all_data name) as [[s|c la lo]|] eqn:E; try reflexivity.
      exfalso. exact (H name c la lo (or_introl eq_refl) E).
Qed.

Lemma has_coords_source (c : string) :
  coords_for c -> coord_sources all_data latlong_names cfg <> [].
Proof.
  intros (lat & lon & src & before & after & E & Hsrc & _) Hnil.
  rewrite coord_sources_nil in Hnil.
  apply (Hnil src c lat lon); [|assumption].
  rewrite E. apply in_or_app. right. now left.
Qed.

(** C3 (as amended). When at least two entries of the coordinate priority
    list name latlong-role sources that have an observation, and all those
    observations name the country [c], the resolver returns [c] with the
    coordinates the center picker chooses among those sources, taken in the
    order of the coordinate priority list, and the label
    [unanimous-><chosen source>]; override rules and votes are not looked
    at. Latlong sources the list does not name play no part. *)
Theorem unanimous_step (c : string) :
  2 <= List.length (filter listed cp) ->
  (forall name data,
      In name cp -> mem name latlong_names = true ->
      get_obs all_data name = Some data -> truthy (Some data) = true ->
      payload_getitem data 0 = Ok c) ->
  map fst avail = filter listed cp /\
  (forall name data, In (name, data) avail -> get_obs all_data name = Some data) /\
  winner = bind (pick_center_coords avail (threshold cfg))
             (fun r => Ok (Some (c, fst (fst r), snd (fst r),
                                 ("unanimous->" ++ snd r)%string))).
Proof.
  intros H2 Hall.
  split; [apply available_ll_names|].
  split; [intros name data Hin; apply available_ll_In in Hin; tauto|].
  assert (Hitem : forall e, In e avail -> item0 (snd e) = c).
  { intros [name data] Hin. apply available_ll_In in Hin as (H1 & H3 & H4 & H5).
    specialize (Hall name data H1 H3 H4 H5).
    rewrite (truthy_item0 data H5) in Hall. simpl. congruence. }
  apply pick_winner_unanimous; [|assumption].
  rewrite <- available_ll_names, length_map in H2.
  split; [assumption|].
  destruct avail as [|e l] eqn:E; [simpl in H2; lia|].
  apply (distinct_one (map (fun e => item0 (snd e)) (e :: l)) c).
  split; [discriminate|].
  intros x Hx. apply in_map_iff in Hx as (y & <- & Hy). auto.
Qed.

Lemma rule_matches_present (rule : list string) (c : string) :
  rule_matches all_data rule c -> 0 < tally all_data c /\ countries all_data <> [].
Proof.
  intros [Hne Hall]. destruct rule as [|s rule]; [congruence|].
  specialize (Hall s (or_introl eq_refl)).
  split; [eapply present_country_tally; eauto|].
  unfold present_country in Hall.
  destruct (get_obs all_data s) as [d|] eqn:E; [|discriminate].
  eapply get_obs_present; eauto.
Qed.

(** C4 (as amended). When the unanimous step has not decided, the override
    rules are walked in the configured order. A rule decides when every
    source it lists has an observation, all with one country [c], and some
    entry of the coordinate priority list reports coordinates for [c]; the
    first such rule makes the resolver return [c], the coordinates of the
    first coordinate source reporting [c], and the label
    [<rule sources joined by +>-><coord source>]. A rule that matches while
    no coordinate source reports its country is passed over like a rule that
    does not match. *)
Theorem override_step (before after : list (list string)) (rule : list string)
    (c lat lon src : string) :
  is_dict all_data ->
  ~ unanimous_here ->
  overrides cfg = before ++ rule :: after ->
  (forall r, In r before -> ~ decides r) ->
  rule_matches all_data rule c ->
  first_src c lat lon src ->
  winner = Ok (Some (c, lat, lon, (String.concat "+" rule ++ "->" ++ src)%string)).
Proof.
  intros Hd Hn Hrules Hbefore Hrule Hsrc.
  destruct (rule_matches_present Hrule) as [_ Hne].
  rewrite (pick_winner_not_unanimous Hne Hn), Hrules.
  now rewrite (@walk_overrides_fire _ all_data latlong_names cfg before after
                 rule c lat lon src Hd Hbefore Hrule Hsrc).
Qed.

Lemma no_rule_decides_none :
  is_dict all_data -> (forall r, In r (overrides cfg) -> ~ decides r) ->
  walk_overrides all_data latlong_names cfg (overrides cfg) = None.
Proof. intros Hd H. now apply walk_overrides_none. Qed.

(** [top] holds two countries with the same, largest, number of votes. *)
Lemma top_two_tied_spec (c c2 : string) :
  is_dict all_data -> c2 <> c -> 0 < tally all_data c ->
  tally all_data c2 = tally all_data c ->
  (forall c', tally all_data c' <= tally all_data c) ->
  exists t0 t1 rest,
    most_common (votes all_data) = t0 :: t1 :: rest /\
    snd t0 = tally all_data c /\ snd t1 = tally all_data c.
Proof.
  intros Hd Hne Hpos Heq Hmax.
  destruct (votes_spec Hd) as [Hvd Hv].
  pose proof (most_common_sorted (votes all_data)) as HS.
  pose proof (most_common_is_dict Hvd) as Htd.
  assert (Hc : In (c, tally all_data c) (most_common (votes all_data))).
  { apply most_common_In, Hv. auto. }
  assert (Hc2 : In (c2, tally all_data c) (most_common (votes all_data))).
  { apply most_common_In, Hv. split; [auto | lia]. }
  destruct (most_common (votes all_data)) as [|t0 top] eqn:Htop; [contradiction|].
  destruct (top_voted Hd Htop) as (Ht0 & _ & Ht0max).
  assert (Hn0 : snd t0 = tally all_data c).
  { specialize (Ht0max c). specialize (Hmax (fst t0)). lia. }
  assert (Hrest : exists x, In (x, tally all_data c) top).
  { destruct (string_dec (fst t0) c) as [E|E].
    - exists c2. destruct Hc2 as [H|H]; [|assumption].
      subst t0. simpl in E. congruence.
    - exists c. destruct Hc as [H|H]; [|assumption].
      subst t0. simpl in E. congruence. }
  destruct Hrest as [x Hx].
  destruct top as [|t1 rest]; [contradiction|].
  exists t0, t1, rest. repeat split; [assumption|].
  apply StronglySorted_inv in HS as [HS Hhd].
  rewrite Forall_forall in Hhd. pose proof (Hhd t1 (or_introl eq_refl)) as H1.
  apply StronglySorted_inv in HS as [_ Hall]. rewrite Forall_forall in Hall.
  unfold by_count in *.
  destruct Hx as [->|Hx]; [reflexivity|].
  specialize (Hall _ Hx). simpl in Hall. lia.
Qed.

Lemma tied_set_mem (t0 : string * nat) (top : list (string * nat)) (x : string) :
  is_dict all_data -> most_common (votes all_data) = t0 :: top ->
  mem x (tied_set (t0 :: top)) = true <-> tally all_data x = snd t0.
Proof.
  intros Hd Htop. destruct (votes_spec Hd) as [_ Hv].
  destruct (top_voted Hd Htop) as (Ht0 & Hpos & _).
  unfold mem, tied_set. destruct t0 as [c0 n0]. simpl snd in *.
  rewrite <- Htop. rewrite existsb_exists. split.
  - intros (y & Hy & E). apply String.eqb_eq in E. subst y.
    apply in_map_iff in Hy as ([x' k] & Hfst & Hin). simpl in Hfst. subst x'.
    apply filter_In in Hin as [Hin Hk]. apply Nat.eqb_eq in Hk. simpl in Hk.
    apply most_common_In, Hv in Hin. lia.
  - intros E. exists x. split; [|apply String.eqb_refl].
    apply in_map_iff. exists (x, n0). split; [reflexivity|].
    apply filter_In. split; [|apply Nat.eqb_refl].
    apply most_common_In, Hv. split; [auto | lia].
Qed.

(** C5 (as amended). When the unanimous step and the override rules have not
    decided and the two highest vote counts are equal, the resolver walks
    [vote_priority] in order: the first listed source whose own country [c]
    is among the tied countries and has a coordinate source decides, and the
    resolver returns [c] with the coordinates of the first coordinate source
    reporting [c] and the label [vote-><coord source>]. *)
Theorem tie_break_step (before after : list string)
    (prio c c2 lat lon src : string) :
  is_dict all_data ->
  ~ unanimous_here ->
  (forall r, In r (overrides cfg) -> ~ decides r) ->
  c2 <> c ->
  tally all_data c2 = tally all_data c ->
  (forall c', tally all_data c' <= tally all_data c) ->
  vote_priority cfg = before ++ prio :: after ->
  present_country all_data prio = Some c ->
  first_src c lat lon src ->
  (forall x c', In x before -> present_country all_data x = Some c' ->
                tally all_data c' = tally all_data c -> ~ coords_for c') ->
  winner = Ok (Some (c, lat, lon, ("vote->" ++ src)%string)).
Proof.
  intros Hd Hn Hrules Hne Htie Hmax Hvp Hprio Hsrc Hbefore.
  pose proof (present_country_tally _ _ Hprio) as Hpos.
  assert (Hpresent : countries all_data <> []).
  { unfold present_country in Hprio.
    destruct (get_obs all_data prio) as [d|] eqn:E; [|discriminate].
    eapply get_obs_present; eauto. }
  rewrite (pick_winner_not_unanimous Hpresent Hn).
  rewrite (no_rule_decides_none Hd Hrules).
  unfold vote_steps.
  assert (Hcs : coord_sources all_data latlong_names cfg <> []).
  { apply (@has_coords_source c). now exists lat, lon, src. }
  destruct (coord_sources all_data latlong_names cfg) as [|cs0 css]; [congruence|].
  destruct (top_two_tied_spec Hd Hne Hpos Htie Hmax)
    as (t0 & t1 & rest & Htop & H0 & H1).
  rewrite Htop.
  assert (Htied : top_two_tied (t0 :: t1 :: rest) = true).
  { destruct t0, t1. simpl in *. subst. apply Nat.eqb_refl. }
  rewrite Htied, Hvp.
  rewrite (@walk_vote_priority_fire _ all_data latlong_names cfg
             (tied_set (t0 :: t1 :: rest)) before after prio c lat lon src);
    auto.
  - intros x c' Hx Hc' Hm. apply (Hbefore x c' Hx Hc').
    apply (tied_set_mem c' Hd Htop) in Hm. congruence.
  - apply (tied_set_mem c Hd Htop). congruence.
Qed.

Lemma some_present :
  (exists item, In item all_data /\ snd item <> None) <-> countries all_data <> [].
Proof.
  rewrite countries_nil. split.
  - intros (item & Hin & Hs) H. apply Hs. auto.
  - intros H.
    assert (E : forall l : dict (option payload),
               (forall item, In item l -> snd item = None) \/
               exists item, In item l /\ snd item <> None).
    { induction l as [|[k o] l IH]; [left; intros ? []|].
      destruct o as [d|].
      - right. exists (k, Some d). split; [now left | discriminate].
      - destruct IH as [IH|(item & Hin & Hs)].
        + left. intros item [<-|Hin]; auto.
        + right. exists item. split; [now right | assumption]. }
    destruct (E all_data) as [Hall|Hex]; [contradiction | assumption].
Qed.

(** C7. With at least one observation, when the unanimous step has not
    decided and no entry of the coordinate priority list has an observation
    with coordinates, the resolver returns a country with the largest number
    of votes, the placeholder coordinates [("0", "0")] and the label
    [no_coords]; no override rule can decide there. *)
Theorem no_coords_step :
  is_dict all_data ->
  (exists item, In item all_data /\ snd item <> None) ->
  ~ unanimous_here ->
  (forall name c la lo,
      In name cp -> get_obs all_data name <> Some (WithCoords c la lo)) ->
  exists c,
    winner = Ok (Some (c, "0", "0", "no_coords")) /\
    0 < tally all_data c /\
    forall c', tally all_data c' <= tally all_data c.
Proof.
  intros Hd Hsome Hn Hnone.
  apply some_present in Hsome.
  rewrite (pick_winner_not_unanimous Hsome Hn).
  assert (Hcs : coord_sources all_data latlong_names cfg = [])
    by now apply coord_sources_nil.
  rewrite walk_overrides_none; [|assumption|].
  2:{ intros r _ (c & _ & Hc). now apply has_coords_source in Hc. }
  unfold vote_steps. rewrite Hcs.
  assert (Htop : most_common (votes all_data) <> [])
    by (apply countries_votes_not_nil; assumption).
  destruct (most_common (votes all_data)) as [|t top] eqn:E; [congruence|].
  destruct (top_voted Hd E) as (_ & Hpos & Hmax).
  exists (fst t). simpl. auto.
Qed.

(** The labels of the decisions. *)
Definition has_arrow (label : string) : Prop :=
  exists pre src, label = (pre ++ "->" ++ src)%string.

Lemma walk_overrides_label (rules : list (list string)) (c lat lon label : string) :
  walk_overrides all_data latlong_names cfg rules = Some (c, lat, lon, label) ->
  has_arrow label.
Proof.
  induction rules as [|rule rules IH]; simpl; [discriminate|].
  destruct (match_countries all_data rule) as [[|c0 mc]|]; auto.
  destruct (distinct (c0 :: mc) =? 1); auto.
  destruct (find_coords all_data latlong_names cfg c0) as [[[la lo] src]|]; auto.
  intros [= _ _ _ <-]. now exists (String.concat "+" rule), src.
Qed.

Lemma walk_vote_priority_label (tied names : list string) (c lat lon label : string) :
  walk_vote_priority all_data latlong_names cfg tied names = Some (c, lat, lon, label) ->
  has_arrow label.
Proof.
  induction names as [|x names IH]; simpl; [discriminate|].
  destruct (dict_get (countries all_data) x) as [c0|]; auto.
  destruct (mem c0 tied); auto.
  destruct (find_coords all_data latlong_names cfg c0) as [[[la lo] src]|]; auto.
  intros [= _ _ _ <-]. now exists "vote", src.
Qed.

Lemma walk_top_label (top : list (string * nat)) (c lat lon label : string) :
  walk_top all_data latlong_names cfg top = Some (c, lat, lon, label) ->
  has_arrow label.
Proof.
  induction top as [|[c0 k] top IH]; simpl; [discriminate|].
  destruct (find_coords all_data latlong_names cfg c0) as [[[la lo] src]|]; auto.
  intros [= _ _ _ <-]. now exists "vote", src.
Qed.

Lemma walk_top_None (top : list (string * nat)) :
  walk_top all_data latlong_names cfg top = None ->
  forall t, In t top -> ~ coords_for (fst t).
Proof.
  induction top as [|[c0 k] top IH]; simpl; [intros _ ? []|].
  destruct (find_coords all_data latlong_names cfg c0) as [[[la lo] src]|] eqn:E;
    [discriminate|].
  intros H t [<-|Ht]; [now apply find_coords_None | auto].
Qed.

(** An observation with coordinates under a name of the coordinate priority
    list makes its own country a voted country with a coordinate source. *)
Lemma coord_source_voted :
  is_dict all_data ->
  coord_sources all_data latlong_names cfg <> [] ->
  exists c, 0 < tally all_data c /\ coords_for c.
Proof.
  intros Hd Hcs.
  assert (Hex : exists name c la lo,
             In name cp /\ get_obs all_data name = Some (WithCoords c la lo)).
  { unfold coord_sources in Hcs.
    induction cp as [|name l IH]; simpl in Hcs; [congruence|].
    destruct (get_obs all_data name) as [[s|c la lo]|] eqn:E; simpl in Hcs.
    - destruct (IH Hcs) as (x & c & la & lo & Hin & Hx).
      exists x, c, la, lo. split; [now right | assumption].
    - exists name, c, la, lo. split; [now left | assumption].
    - destruct (IH Hcs) as (x & c & la & lo & Hin & Hx).
      exists x, c, la, lo. split; [now right | assumption]. }
  destruct Hex as (name & c & la & lo & Hin & Hobs).
  exists c. split.
  - apply (@present_country_tally all_data name c).
    unfold present_country. now rewrite Hobs.
  - pose proof (find_coords_first all_data latlong_names cfg c) as H.
    destruct (find_coords all_data latlong_names cfg c) as [[[lat lon] src]|].
    + now exists lat, lon, src.
    + exfalso. exact (H name la lo Hin Hobs).
Qed.

Lemma has_arrow_dash (label : string) :
  has_arrow label -> exists i, String.get i label = Some "-"%char.
Proof.
  intros (pre & src & ->). exists (String.length pre).
  induction pre as [|ch pre IH]; simpl; [reflexivity | exact IH].
Qed.

Lemma no_match_no_arrow : ~ has_arrow "no_match".
Proof.
  intros H. apply has_arrow_dash in H as [i H].
  do 9 (destruct i as [|i]; [discriminate|]). discriminate.
Qed.

(** C9 (as amended). The resolver returns [None] exactly when every
    observation is absent. With an observation present it returns a
    decision, except that an exception raised by the center picker in the
    unanimous step (a coordinate string that is no number, among three or
    more agreeing sources) propagates. No decision carries the label
    [no_match]: when the votes are reached with a coordinate source present,
    that source's own country is a voted country and is found. *)
Theorem pick_winner_total :
  (winner = Ok None <-> forall item, In item all_data -> snd item = None) /\
  ((exists item, In item all_data /\ snd item <> None) ->
   (exists d, winner = Ok (Some d)) \/
   (unanimous_here /\
    exists e, pick_center_coords avail (threshold cfg) = Raised e /\
              winner = Raised e)) /\
  (is_dict all_data ->
   forall c lat lon label,
     winner = Ok (Some (c, lat, lon, label)) -> label <> "no_match").
Proof.
  assert (Hcases : countries all_data <> [] ->
            (unanimous_here /\ exists c,
                winner = bind (pick_center_coords avail (threshold cfg))
                           (fun r => Ok (Some (c, fst (fst r), snd (fst r),
                                               ("unanimous->" ++ snd r)%string)))) \/
            (~ unanimous_here /\
             winner = match walk_overrides all_data latlong_names cfg (overrides cfg) with
                      | Some d => Ok (Some d)
                      | None => vote_steps all_data latlong_names cfg
                      end)).
  { intros Hne.
    destruct (center_call_cases all_data latlong_names cfg) as [[Hu _]|[Hn _]].
    - left. split; [assumption|].
      destruct Hu as [H2 H1].
      destruct avail as [|e0 l] eqn:E; [simpl in H2; lia|].
      exists (item0 (snd e0)). rewrite <- E in *.
      apply pick_winner_unanimous; [split; assumption|].
      intros e He.
      apply (distinct_one (map (fun e => item0 (snd e)) avail) (item0 (snd e0))).
      + split; [assumption|]. rewrite E. now left.
      + apply in_map_iff. now exists e.
    - right. split; [assumption|]. now apply pick_winner_not_unanimous. }
  assert (Hpresent : countries all_data <> [] ->
            (exists d, winner = Ok (Some d)) \/
            (unanimous_here /\
             exists e, pick_center_coords avail (threshold cfg) = Raised e /\
                       winner = Raised e)).
  { intros Hne. destruct (Hcases Hne) as [[Hu [c Hw]]|[Hn Hw]]; rewrite Hw.
    - destruct (pick_center_coords avail (threshold cfg)) as [r|e]; simpl.
      + left. eauto.
      + right. split; [assumption|]. eauto.
    - left.
      destruct (walk_overrides all_data latlong_names cfg (overrides cfg));
        [eauto|].
      apply vote_steps_returns. assumption. }
  split; [|split].
  - rewrite <- countries_nil. split.
    + intros H.
      destruct (countries all_data) as [|x xs] eqn:E; [reflexivity|].
      exfalso. destruct Hpresent as [[d Hd]|(_ & e & _ & He)];
        [discriminate | congruence | congruence].
    + intros H. unfold pick_winner. now rewrite H.
  - intros Hsome. apply Hpresent. now apply some_present.
  - intros Hd c lat lon label Hw Hlabel. subst label.
    assert (Hne : countries all_data <> []).
    { intros Hnil. unfold pick_winner in Hw. rewrite Hnil in Hw. discriminate. }
    destruct (Hcases Hne) as [[Hu [c0 Hw']]|[Hn Hw']]; rewrite Hw' in Hw.
    + destruct (pick_center_coords avail (threshold cfg)) as [[[la lo] src]|e];
        simpl in Hw; discriminate.
    + destruct (walk_overrides all_data latlong_names cfg (overrides cfg))
        as [[[[c1 la] lo] label]|] eqn:Ho.
      { injection Hw as -> -> -> ->.
        apply walk_overrides_label in Ho. now apply no_match_no_arrow in Ho. }
      unfold vote_steps in Hw.
      destruct (coord_sources all_data latlong_names cfg) as [|cs0 css] eqn:Hcs.
      { destruct (list_getitem (firstn 1 (most_common (votes all_data))) 0);
          simpl in Hw; discriminate. }
      destruct (top_two_tied (most_common (votes all_data))).
      * destruct (walk_vote_priority all_data latlong_names cfg
                    (tied_set (most_common (votes all_data))) (vote_priority cfg))
          as [[[[c1 la] lo] label]|] eqn:Hv.
        { injection Hw as -> -> -> ->.
          apply walk_vote_priority_label in Hv. now apply no_match_no_arrow in Hv. }
        destruct (walk_top all_data latlong_names cfg (most_common (votes all_data)))
          as [[[[c1 la] lo] label]|] eqn:Ht.
        { injection Hw as -> -> -> ->.
          apply walk_top_label in Ht. now apply no_match_no_arrow in Ht. }
        destruct coord_source_voted as (c1 & Hpos & Hc1);
          [assumption | rewrite Hcs; discriminate|].
        destruct (votes_spec Hd) as [_ Hvs].
        apply (walk_top_None _ Ht (c1, tally all_data c1)); [|exact Hc1].
        apply most_common_In, Hvs. auto.
      * destruct (walk_top all_data latlong_names cfg (most_common (votes all_data)))
          as [[[[c1 la] lo] label]|] eqn:Ht.
        { injection Hw as -> -> -> ->.
          apply walk_top_label in Ht. now apply no_match_no_arrow in Ht. }
        destruct coord_source_voted as (c1 & Hpos & Hc1);
          [assumption | rewrite Hcs; discriminate|].
        destruct (votes_spec Hd) as [_ Hvs].
        apply (walk_top_None _ Ht (c1, tally all_data c1)); [|exact Hc1].
        apply most_common_In, Hvs. auto.
Qed.

End ResolverTheorems.

(** ** Determinism: the iteration order of the set of latlong names *)

Section Determinism.

Context {PF : PyFloat}.

Variable cfg : merge_config.
Variable priority : list string.
Hypothesis configured : coord_priority cfg = Some priority.

(** Two iteration orders of one set. *)
Variables order1 order2 : list string.
Hypothesis same_set : forall x, In x order1 <-> In x order2.

Lemma mem_order (x : string) : mem x order1 = mem x order2.
Proof.
  unfold mem. apply eq_true_iff_eq. rewrite !existsb_exists.
  split; intros (y & Hy & E); exists y; (split; [|assumption]);
    now apply same_set.
Qed.

Lemma coord_priority_list_order :
  coord_priority_list order1 cfg = coord_priority_list order2 cfg.
Proof. unfold coord_priority_list. now rewrite configured. Qed.

Lemma coord_sources_order (all_data : dict (option payload)) :
  coord_sources all_data order1 cfg = coord_sources all_data order2 cfg.
Proof. unfold coord_sources. now rewrite coord_priority_list_order. Qed.

Lemma find_coords_order (all_data : dict (option payload)) (c : string) :
  find_coords all_data order1 cfg c = find_coords all_data order2 cfg c.
Proof. unfold find_coords. now rewrite coord_sources_order. Qed.

Lemma walk_overrides_order (all_data : dict (option payload))
    (rules : list (list string)) :
  walk_overrides all_data order1 cfg rules = walk_overrides all_data order2 cfg rules.
Proof.
  induction rules as [|r rules IH]; simpl; [reflexivity|].
  rewrite IH. destruct (match_countries all_data r) as [[|c mc]|]; try reflexivity.
  now rewrite find_coords_order.
Qed.

Lemma walk_vote_priority_order (all_data : dict (option payload))
    (tied names : list string) :
  walk_vote_priority all_data order1 cfg tied names
  = walk_vote_priority all_data order2 cfg tied names.
Proof.
  induction names as [|x names IH]; simpl; [reflexivity|].
  rewrite IH. destruct (dict_get (countries all_data) x); [|reflexivity].
  now rewrite find_coords_order.
Qed.

Lemma walk_top_order (all_data : dict (option payload))
    (top : list (string * nat)) :
  walk_top all_data order1 cfg top = walk_top all_data order2 cfg top.
Proof.
  induction top as [|[c k] top IH]; simpl; [reflexivity|].
  now rewrite IH, find_coords_order.
Qed.

Lemma vote_steps_order (all_data : dict (option payload)) :
  vote_steps all_data order1 cfg = vote_steps all_data order2 cfg.
Proof.
  unfold vote_steps.
  now rewrite coord_sources_order, walk_vote_priority_order, walk_top_order.
Qed.

Lemma available_ll_order (all_data : dict (option payload)) :
  available_ll all_data order1 cfg = available_ll all_data order2 cfg.
Proof.
  unfold available_ll. rewrite coord_priority_list_order.
  apply flat_map_ext. intros name. now rewrite mem_order.
Qed.

Lemma pick_winner_order (all_data : dict (option payload)) :
  pick_winner all_data order1 cfg = pick_winner all_data order2 cfg.
Proof.
  unfold pick_winner, center_call, ll_country_list.
  now rewrite available_ll_order, walk_overrides_order, vote_steps_order.
Qed.

Lemma process_segments_order (boundaries : list Z)
    (tables : list (string * table)) (output : list segment) :
  process_segments order1 cfg boundaries tables output
  = process_segments order2 cfg boundaries tables output.
Proof.
  revert tables output.
  induction boundaries as [|start boundaries IH]; intros tables output;
    [reflexivity|].
  destruct boundaries as [|next boundaries']; [reflexivity|].
  cbn [process_segments].
  destruct (query_all tables start [] false) as [[all_data any_data] tables'].
  destruct any_data; [|apply IH].
  rewrite pick_winner_order.
  destruct (pick_winner all_data order2 cfg) as [[[[[country lat] lon] label]|]|e];
    cbn [bind]; [apply IH | apply IH | reflexivity].
Qed.

(** C2 (as amended). With [coord_priority] set in the configuration, the
    text [main] writes for given loaded tables does not depend on the order
    in which the set of latlong names is iterated: the only unordered
    iteration of the resolver, the default of [coord_priority], is not
    reached, and everything else walks ordered lists. *)
Theorem main_deterministic (latlong_sources country_sources : dict table) :
  main order1 cfg latlong_sources country_sources
  = main order2 cfg latlong_sources country_sources.
Proof.
  unfold main, merge. now rewrite process_segments_order.
Qed.

End Determinism.

(** * Worked inputs

    The theorems above applied to concrete tables and observations, with
    binary64 as the float arithmetic. *)

Section RangeTableExamples.

(** A country table filled out of order: [0x200, 0x300) DE, then
    [0x100, 0x200) US. *)
Definition two_ranges : list (Z * Z * string) :=
  [(512%Z, 768%Z, "DE"); (256%Z, 512%Z, "US")].

Lemma two_ranges_sweeps :
  RangeTable.sweeps
    (RangeTable.finalize String.ltb (RangeTable.of_records two_ranges))
    [256%Z; 511%Z; 512%Z; 1024%Z]
  = [Some "US"; Some "US"; Some "DE"; None].
Proof. reflexivity. Qed.

Lemma two_ranges_non_overlapping : RangeTable.non_overlapping two_ranges.
Proof.
  intros i j r1 r2 p Hij H1 H2.
  destruct i as [|[|i]], j as [|[|j]]; simpl in H1, H2;
    try congruence; try (destruct i; discriminate); try (destruct j; discriminate);
    injection H1 as <-; injection H2 as <-;
    unfold RangeTable.contains; simpl; lia.
Qed.

Lemma sweep_finalized_correct_witness :
  Forall2 (fun p r =>
             (forall v, r = Some v <->
                        exists s e, In (s, e, v) two_ranges /\ (s <= p < e)%Z) /\
             (r = None <->
              forall s e v, In (s, e, v) two_ranges -> ~ (s <= p < e)%Z))
          [256%Z; 511%Z; 512%Z; 1024%Z]
          (RangeTable.sweeps
             (RangeTable.finalize String.ltb (RangeTable.of_records two_ranges))
             [256%Z; 511%Z; 512%Z; 1024%Z]).
Proof.
  apply (@sweep_finalized_correct string String.ltb two_ranges
           [256%Z; 511%Z; 512%Z; 1024%Z]).
  - exact two_ranges_non_overlapping.
  - repeat constructor; lia.
Defined.

End RangeTableExamples.

Section CoalescingExamples.

Definition three_segments : list segment :=
  [mk_segment 256 511 "FR" "48.8" "2.3";
   mk_segment 512 767 "FR" "48.8" "2.3";
   mk_segment 768 1023 "DE" "52.5" "13.4"].

Lemma three_segments_coalesced :
  coalesce three_segments
  = [mk_segment 256 767 "FR" "48.8" "2.3"; mk_segment 768 1023 "DE" "52.5" "13.4"].
Proof. reflexivity. Qed.

Lemma coalesce_no_mergeable_neighbours_witness :
  ~ mergeable (mk_segment 256 767 "FR" "48.8" "2.3")
              (mk_segment 768 1023 "DE" "52.5" "13.4").
Proof.
  apply (proj1 (coalesce_no_mergeable_neighbours three_segments) 0); reflexivity.
Defined.

End CoalescingExamples.

Section CenterPickerExamples.

(** Three agreeing sources at (0, 0), (3, 4) and (0, 8): the distances are
    5, 8 and 5, so the spread exceeds the threshold 2 and the middle entry
    has the smallest total. *)
Definition three_entries : list (string * (string * string * string)) :=
  [("a", ("FR", "0", "0")); ("b", ("FR", "3", "4")); ("c", ("FR", "0", "8"))].

Definition three_coords : list (F * F) :=
  [(of_int 0, of_int 0); (of_int 3, of_int 4); (of_int 0, of_int 8)].

Definition three_distances (a b : nat) : F :=
  match distance_between three_coords a b with
  | Ok d => d
  | Raised _ => of_int 0
  end.

Lemma three_entries_picked :
  pick_center_coords (map tuple_entry three_entries) (of_int 2)
  = Ok ("3", "4", "b").
Proof. reflexivity. Qed.

(** The same on an interpreter whose [sum] compensates. *)
Lemma three_entries_picked_compensated :
  @pick_center_coords (Float64.host Float64.pow_rounded Float64.sum_compensated)
    (map tuple_entry three_entries) (of_int 2)
  = Ok ("3", "4", "b").
Proof. reflexivity. Qed.

Lemma three_entries_parse :
  parse_coords (map tuple_entry three_entries) = Ok three_coords.
Proof. reflexivity. Qed.

Lemma three_distances_computed (a b : nat) :
  a < 3 -> b < 3 -> a <> b ->
  distance_between three_coords a b = Ok (three_distances a b).
Proof.
  intros Ha Hb Hab.
  destruct a as [|[|[|a]]], b as [|[|[|b]]]; try lia; reflexivity.
Qed.

Lemma three_distances_max : max_pairwise three_distances 3 (of_int 8).
Proof.
  split.
  - exists 0, 2. split; [lia | reflexivity].
  - intros a b Hab.
    destruct a as [|[|[|a]]], b as [|[|[|b]]]; try lia; reflexivity.
Qed.

Lemma pick_center_coords_spec_witness :
  exists best e,
    nth_error three_entries best = Some e /\
    pick_center_coords (map tuple_entry three_entries) (of_int 2)
    = Ok (entry_result e) /\
    (forall j, j < 3 ->
               flt (sum_to_others three_coords three_distances j)
                   (sum_to_others three_coords three_distances best) = false) /\
    (forall j, j < best ->
               fle (sum_to_others three_coords three_distances j)
                   (sum_to_others three_coords three_distances j) = true ->
               flt (sum_to_others three_coords three_distances best)
                   (sum_to_others three_coords three_distances j) = true).
Proof.
  apply (proj2 (proj1 (proj2 (@pick_center_coords_spec Float64.binary64 binary64_order
                  ("a", ("FR", "0", "0"))
                  [("b", ("FR", "3", "4")); ("c", ("FR", "0", "8"))] (of_int 2)))
               (le_n 3) three_coords three_distances (of_int 8)
               three_entries_parse three_distances_computed three_distances_max
               eq_refl)).
  reflexivity.
Defined.

(** One coordinate string that is no number, among three entries. *)
Lemma pick_center_coords_not_numeric :
  pick_center_coords
    [("a", WithCoords "FR" "N/A" "2.3"); ("b", WithCoords "FR" "48.9" "2.4");
     ("c", WithCoords "FR" "48.7" "2.2")] (of_int 2)
  = Raised ValueError.
Proof. reflexivity. Qed.

End CenterPickerExamples.

Section ResolverExamples.

Definition config (priority : option (list string)) (votes : list string)
    (rules : list (list string)) : merge_config :=
  Build_merge_config priority votes None rules.

(** *** Unanimous step *)

(** Two latlong sources, both FR, both in the coordinate priority list. *)
Definition two_agree : dict (option payload) :=
  [("s1", Some (WithCoords "FR" "48.8" "2.3"));
   ("s2", Some (WithCoords "FR" "48.9" "2.4"))].

Lemma two_agree_decision :
  pick_winner two_agree ["s1"; "s2"] (config (Some ["s1"; "s2"]) [] [])
  = Ok (Some ("FR", "48.8", "2.3", "unanimous->s1")).
Proof. reflexivity. Qed.

Lemma unanimous_step_witness :
  pick_winner two_agree ["s1"; "s2"] (config (Some ["s1"; "s2"]) [] [])
  = bind (pick_center_coords
            (available_ll two_agree ["s1"; "s2"] (config (Some ["s1"; "s2"]) [] []))
            (of_int 2))
      (fun r => Ok (Some ("FR", fst (fst r), snd (fst r),
                          ("unanimous->" ++ snd r)%string))).
Proof.
  apply (@unanimous_step Float64.binary64 two_agree ["s1"; "s2"]
           (config (Some ["s1"; "s2"]) [] []) "FR").
  - simpl. lia.
  - intros name data [<-|[<-|[]]] _ Hobs _; injection Hobs as <-; reflexivity.
Defined.

(** The same two sources, with only [s1] in the coordinate priority list:
    both latlong sources have an observation and report FR, and the label is
    not [unanimous->...]. *)
Lemma unanimous_needs_priority_entries :
  get_obs two_agree "s1" = Some (WithCoords "FR" "48.8" "2.3") /\
  get_obs two_agree "s2" = Some (WithCoords "FR" "48.9" "2.4") /\
  pick_winner two_agree ["s1"; "s2"] (config (Some ["s1"]) [] [])
  = Ok (Some ("FR", "48.8", "2.3", "vote->s1")).
Proof. repeat split; reflexivity. Qed.

(** *** Override rules *)

(** Country-only sources X, Y report JP; the one latlong source L reports
    JP with coordinates; the rule {X, Y} is configured. *)
Definition override_jp : dict (option payload) :=
  [("L", Some (WithCoords "JP" "35.6" "139.7"));
   ("X", Some (CountryOnly "JP")); ("Y", Some (CountryOnly "JP"))].

Lemma is_dict_override_jp : is_dict override_jp.
Proof.
  unfold is_dict; simpl.
  repeat constructor; simpl; intuition discriminate.
Qed.

Lemma override_step_witness :
  pick_winner override_jp ["L"] (config (Some ["L"]) [] [["X"; "Y"]])
  = Ok (Some ("JP", "35.6", "139.7", "X+Y->L")).
Proof.
  apply (@override_step Float64.binary64 override_jp ["L"]
           (config (Some ["L"]) [] [["X"; "Y"]]) [] [] ["X"; "Y"]
           "JP" "35.6" "139.7" "L").
  - exact is_dict_override_jp.
  - intros [H _]. simpl in H. lia.
  - reflexivity.
  - intros r [].
  - split; [discriminate|]. intros s [<-|[<-|[]]]; reflexivity.
  - apply find_coords_Some. reflexivity.
Defined.

(** The same rule when L reports CN: X and Y both have an observation and
    both report JP, yet the decision is CN, by the votes. *)
Definition override_cn : dict (option payload) :=
  [("L", Some (WithCoords "CN" "39.9" "116.4"));
   ("X", Some (CountryOnly "JP")); ("Y", Some (CountryOnly "JP"))].

Lemma override_without_coords_falls_through :
  rule_matches override_cn ["X"; "Y"] "JP" /\
  ~ unanimous override_cn ["L"] (config (Some ["L"]) [] [["X"; "Y"]]) /\
  pick_winner override_cn ["L"] (config (Some ["L"]) [] [["X"; "Y"]])
  = Ok (Some ("CN", "39.9", "116.4", "vote->L")).
Proof.
  split; [|split].
  - split; [discriminate|]. intros s [<-|[<-|[]]]; reflexivity.
  - intros [H _]. simpl in H. lia.
  - reflexivity.
Qed.

(** *** Tie-break *)

(** One vote for DE (a latlong source) and one for FR (a country-only
    source); [vote_priority] lists the FR source first, but no coordinate
    source reports FR. *)
Definition tie_de_fr : dict (option payload) :=
  [("L1", Some (WithCoords "DE" "52.5" "13.4")); ("C1", Some (CountryOnly "FR"))].

Lemma is_dict_tie_de_fr : is_dict tie_de_fr.
Proof.
  unfold is_dict; simpl.
  repeat constructor; simpl; intuition discriminate.
Qed.

Lemma tie_de_fr_tally (c : string) : tally tie_de_fr c <= tally tie_de_fr "DE".
Proof.
  unfold tally. change (reported tie_de_fr) with ["DE"; "FR"].
  cbn [count_occ].
  destruct (string_dec "DE" c), (string_dec "FR" c), (string_dec "DE" "DE"),
    (string_dec "FR" "DE"); try congruence; lia.
Qed.

Lemma tie_break_step_witness :
  pick_winner tie_de_fr ["L1"] (config (Some ["L1"]) ["C1"; "L1"] [])
  = Ok (Some ("DE", "52.5", "13.4", "vote->L1")).
Proof.
  apply (@tie_break_step Float64.binary64 tie_de_fr ["L1"]
           (config (Some ["L1"]) ["C1"; "L1"] []) ["C1"] [] "L1"
           "DE" "FR" "52.5" "13.4" "L1").
  - exact is_dict_tie_de_fr.
  - intros [H _]. simpl in H. lia.
  - intros r [].
  - discriminate.
  - reflexivity.
  - exact tie_de_fr_tally.
  - reflexivity.
  - reflexivity.
  - apply find_coords_Some. reflexivity.
  - intros x c' [<-|[]] Hc' _. injection Hc' as <-.
    apply find_coords_None. reflexivity.
Defined.

(** Two votes for DE (L1, C1) and two for FR (L2, C2); [vote_priority]
    lists L2, which reports FR and is itself a coordinate source for FR;
    the rule {C1, L1} is configured. The rule is tried before the votes
    are looked at, and decides DE. *)
Definition tie_with_rule : dict (option payload) :=
  [("L1", Some (WithCoords "DE" "52.5" "13.4"));
   ("L2", Some (WithCoords "FR" "48.8" "2.3"));
   ("C1", Some (CountryOnly "DE")); ("C2", Some (CountryOnly "FR"))].

Lemma tie_break_after_overrides :
  tally tie_with_rule "FR" = tally tie_with_rule "DE" /\
  (forall c, tally tie_with_rule c <= tally tie_with_rule "FR") /\
  present_country tie_with_rule "L2" = Some "FR" /\
  find_coords tie_with_rule ["L1"; "L2"]
              (config (Some ["L1"; "L2"]) ["L2"] [["C1"; "L1"]]) "FR"
  = Some ("48.8", "2.3", "L2") /\
  pick_winner tie_with_rule ["L1"; "L2"]
              (config (Some ["L1"; "L2"]) ["L2"] [["C1"; "L1"]])
  = Ok (Some ("DE", "52.5", "13.4", "C1+L1->L1")).
Proof.
  split; [reflexivity|]. split; [|repeat split; reflexivity].
  intros c. unfold tally. change (reported tie_with_rule) with ["DE"; "FR"; "DE"; "FR"].
  cbn [count_occ].
  destruct (string_dec "DE" c), (string_dec "FR" c), (string_dec "FR" "FR"),
    (string_dec "DE" "FR"); try congruence; lia.
Qed.

(** *** No coordinate source *)

(** One country-only source reports US; the latlong source L has no
    observation at this point. *)
Definition only_country : dict (option payload) :=
  [("L", None); ("c1", Some (CountryOnly "US"))].

Lemma is_dict_only_country : is_dict only_country.
Proof.
  unfold is_dict; simpl.
  repeat constructor; simpl; intuition discriminate.
Qed.

Lemma only_country_decision :
  pick_winner only_country ["L"] (config None [] [])
  = Ok (Some ("US", "0", "0", "no_coords")).
Proof. reflexivity. Qed.

Lemma no_coords_step_witness :
  exists c,
    pick_winner only_country ["L"] (config None [] [])
    = Ok (Some (c, "0", "0", "no_coords")) /\
    0 < tally only_country c /\
    forall c', tally only_country c' <= tally only_country c.
Proof.
  apply (@no_coords_step Float64.binary64 only_country ["L"] (config None [] [])).
  - exact is_dict_only_country.
  - exists ("c1", Some (CountryOnly "US")). split; [right; now left | discriminate].
  - intros [H _]. simpl in H. lia.
  - intros name c la lo [<-|[]]. discriminate.
Defined.

(** *** A coordinate string that is no number *)

(** Three latlong sources agree on FR; the first has an empty latitude
    field. *)
Definition three_agree_bad_lat : dict (option payload) :=
  [("A", Some (WithCoords "FR" "" "2.3"));
   ("B", Some (WithCoords "FR" "48.9" "2.4"));
   ("C", Some (WithCoords "FR" "48.7" "2.2"))].

Lemma pick_winner_raises :
  (exists item, In item three_agree_bad_lat /\ snd item <> None) /\
  pick_winner three_agree_bad_lat ["A"; "B"; "C"]
              (config (Some ["A"; "B"; "C"]) [] [])
  = Raised ValueError.
Proof.
  split; [|reflexivity].
  exists ("A", Some (WithCoords "FR" "" "2.3")). split; [now left | discriminate].
Qed.

(** A point no source covers. *)
Lemma pick_winner_total_witness :
  pick_winner [("L", None); ("c1", None)] ["L"] (config (Some ["L"]) [] [])
  = Ok None.
Proof.
  apply (proj1 (@pick_winner_total Float64.binary64 [("L", None); ("c1", None)]
                  ["L"] (config (Some ["L"]) [] []))).
  intros item [<-|[<-|[]]]; reflexivity.
Defined.

End ResolverExamples.

Section MergeExamples.

(** A table as a loader leaves it: filled by [add], then finalized. *)
Definition loaded (recs : list (Z * Z * payload)) : table :=
  RangeTable.finalize payload_lt (RangeTable.of_records recs).

(** Two latlong sources cover [0x100, 0x1ff] with FR and coordinates a
    tenth of a degree apart. *)
Definition two_latlong : dict table :=
  [("A", loaded [(256%Z, 512%Z, WithCoords "FR" "48.8" "2.3")]);
   ("B", loaded [(256%Z, 512%Z, WithCoords "FR" "48.9" "2.4")])].

Lemma two_latlong_merged :
  merge ["A"; "B"] (config (Some ["A"; "B"]) [] []) two_latlong []
  = Ok [mk_segment 256 511 "FR" "48.8" "2.3"].
Proof. reflexivity. Qed.

Lemma main_deterministic_witness :
  main ["A"; "B"] (config (Some ["A"; "B"]) [] []) two_latlong []
  = main ["B"; "A"] (config (Some ["A"; "B"]) [] []) two_latlong [].
Proof.
  apply (@main_deterministic Float64.binary64 (config (Some ["A"; "B"]) [] [])
           ["A"; "B"] eq_refl ["A"; "B"] ["B"; "A"]).
  intros x; simpl; tauto.
Defined.

(** Without [coord_priority] in the configuration the two iteration orders
    of the set {A, B} give two different outputs. *)
Lemma main_depends_on_set_order :
  (forall x, In x ["A"; "B"] <-> In x ["B"; "A"]) /\
  merge ["A"; "B"] (config None [] []) two_latlong []
  = Ok [mk_segment 256 511 "FR" "48.8" "2.3"] /\
  merge ["B"; "A"] (config None [] []) two_latlong []
  = Ok [mk_segment 256 511 "FR" "48.9" "2.4"] /\
  main ["A"; "B"] (config None [] []) two_latlong []
  <> main ["B"; "A"] (config None [] []) two_latlong [].
Proof.
  split; [intros x; simpl; tauto|].
  split; [reflexivity|]. split; [reflexivity|].
  intros H. vm_compute in H. discriminate.
Qed.

End MergeExamples.

(** * Further properties

    Properties of the code beyond the statements of the specification. *)

(** ** Range table: what [finalize] leaves and what its warning means *)

Section RangeTableOrder.

  Import RangeTable.

  Variable A : Type.
  Variable payload_lt : A -> A -> bool.

  Local Abbreviation record := (Z * Z * A)%type.
  Local Abbreviation start_of := (fun c : record => fst (fst c)).
  Local Abbreviation end_of := (fun c : record => snd (fst c)).
  Local Abbreviation payload_of := (fun c : record => snd c).

  (** Ascending by [start], then by [end]. *)
Definition by_start_end (a b : record) : Prop :=
    (start_of a < start_of b)%Z
    \/ (start_of a = start_of b /\ (end_of a <= end_of b)%Z).

Lemma tuple_lt_start_end (x y : record) :
    tuple_lt payload_lt x y = true -> by_start_end x y.
  Proof.
    destruct x as [[s1 e1] d1], y as [[s2 e2] d2]; unfold by_start_end; simpl.
    destruct (Z.eqb_spec s1 s2); simpl.
    - destruct (Z.eqb_spec e1 e2); simpl; [intros _; right; lia|].
      intros H; apply Z.ltb_lt in H; right; lia.
    - intros H; apply Z.ltb_lt in H; left; lia.
  Qed.

Lemma tuple_not_lt_start_end (x y : record) :
    tuple_lt payload_lt x y = false -> by_start_end y x.
  Proof.
    destruct x as [[s1 e1] d1], y as [[s2 e2] d2]; unfold by_start_end; simpl.
    destruct (Z.eqb_spec s1 s2); simpl.
    - destruct (Z.eqb_spec e1 e2); simpl; [intros _; right; lia|].
      intros H; apply Z.ltb_ge in H; right; lia.
    - intros H; apply Z.ltb_ge in H; left; lia.
  Qed.

Lemma by_start_end_trans (x y z : record) :
    by_start_end x y -> by_start_end y z -> by_start_end x z.
  Proof. unfold by_start_end; lia. Qed.

Lemma insert_by_start_end (x : record) (l : list record) :
    StronglySorted by_start_end l ->
    StronglySorted by_start_end (insert payload_lt x l).
  Proof.
    induction 1 as [|y l Hl IH Hy]; simpl.
    - repeat constructor.
    - destruct (tuple_lt payload_lt y x) eqn:E.
      + constructor; [assumption|].
        apply Forall_forall; intros z Hz. apply insert_In in Hz as [->|Hz].
        * now apply tuple_lt_start_end.
        * rewrite Forall_forall in Hy; auto.
      + pose proof (tuple_not_lt_start_end _ _ E) as Hxy.
        constructor; [now constructor|].
        constructor; [assumption|].
        apply Forall_forall; intros z Hz.
        rewrite Forall_forall in Hy.
        exact (by_start_end_trans Hxy (Hy z Hz)).
  Qed.

Lemma sorted_by_start_end (l : list record) :
    StronglySorted by_start_end (sorted payload_lt l).
  Proof.
    induction l as [|x l IH]; simpl; [constructor | now apply insert_by_start_end].
  Qed.

Lemma insert_Permutation (x : record) (l : list record) :
    Permutation (x :: l) (insert payload_lt x l).
  Proof.
    induction l as [|y l IH]; simpl; [reflexivity|].
    destruct (tuple_lt payload_lt y x); [|reflexivity].
    rewrite perm_swap. now constructor.
  Qed.

Lemma sorted_Permutation (l : list record) : Permutation l (sorted payload_lt l).
  Proof.
    induction l as [|x l IH]; simpl; [reflexivity|].
    rewrite <- insert_Permutation. now constructor.
  Qed.

Lemma zip3_finalize (recs : list record) :
    zip3 (finalize payload_lt (of_records recs)) = sorted payload_lt recs.
  Proof. rewrite finalize_of_records. apply zip3_columns. Qed.

  (** X1. [finalize] loses and invents no record: the rows of the finalized
      table are the added records, each as often as it was added, in
      ascending order of [start] and, for equal starts, of [end]. *)
Theorem finalize_sorts_records (recs : list record) :
    Permutation recs (zip3 (finalize payload_lt (of_records recs))) /\
    StronglySorted by_start_end (zip3 (finalize payload_lt (of_records recs))).
  Proof.
    rewrite zip3_finalize. split;
      [apply sorted_Permutation | apply sorted_by_start_end].
  Qed.

  (** *** The overlap warning *)

  (** No point lies in both records. *)
Definition disjoint (a b : record) : Prop :=
    forall p, contains a p -> ~ contains b p.

Lemma disjoint_sym (a b : record) : disjoint a b -> disjoint b a.
  Proof. unfold disjoint; intros H p Hb Ha. exact (H p Ha Hb). Qed.

Lemma ForallOrdPairs_Permutation (R : record -> record -> Prop)
      (l l' : list record) :
    (forall a b, R a b -> R b a) ->
    Permutation l l' -> ForallOrdPairs R l -> ForallOrdPairs R l'.
  Proof.
    intros Hsym; induction 1 as [|x l l' HP IH|x y l|l l' l'' _ IH1 _ IH2];
      intros H.
    - assumption.
    - inversion H as [|? ? Hx Hl]; subst. constructor; [|auto].
      now rewrite <- HP.
    - inversion H as [|? ? Hy Hl]; subst.
      inversion Hl as [|? ? Hx Hl']; subst.
      inversion Hy as [|? ? Hyx Hy']; subst.
      constructor; [constructor; auto|]. now constructor.
    - auto.
  Qed.

Lemma ForallOrdPairs_nth (R : record -> record -> Prop) (l : list record)
      (i j : nat) (a b : record) :
    ForallOrdPairs R l -> i < j ->
    nth_error l i = Some a -> nth_error l j = Some b -> R a b.
  Proof.
    intros H; revert i j; induction H as [|x l Hx Hl IH]; intros i j Hij Hi Hj.
    - destruct i; discriminate.
    - destruct j as [|j]; [lia|]. destruct i as [|i]; simpl in *.
      + injection Hi as <-. rewrite Forall_forall in Hx.
        apply Hx. eapply nth_error_In; eauto.
      + apply (IH i j); [lia | assumption | assumption].
  Qed.

Lemma non_overlapping_pairs (recs : list record) :
    non_overlapping recs <-> ForallOrdPairs disjoint recs.
  Proof.
    split.
    - induction recs as [|a l IH]; intros H; constructor.
      + apply Forall_forall; intros b Hb p Ha.
        apply In_nth_error in Hb as [j Hj].
        exact (H 0 (S j) a b p ltac:(lia) eq_refl Hj Ha).
      + apply IH. intros i j r1 r2 p Hij H1 H2.
        apply (H (S i) (S j) r1 r2 p); [lia | assumption | assumption].
    - intros H i j r1 r2 p Hij H1 H2.
      destruct (Nat.lt_ge_cases i j) as [Hlt|Hge].
      + exact (@ForallOrdPairs_nth disjoint recs i j r1 r2 H Hlt H1 H2 p).
      + apply disjoint_sym.
        apply (@ForallOrdPairs_nth disjoint recs j i r2 r1 H); [lia | assumption | assumption].
  Qed.

  (** The count is zero exactly when every row ends at or before the start
      of the next one. *)
Lemma count_overlaps_zero (L : list record) :
    count_overlaps (map start_of L) (map end_of L) = 0 <->
    forall i a b, nth_error L i = Some a -> nth_error L (S i) = Some b ->
                  (end_of a <= start_of b)%Z.
  Proof.
    induction L as [|a L IH]; simpl.
    - split; [intros _ [|i] ? ? [=] | reflexivity].
    - destruct L as [|b L]; simpl in *.
      + split; [intros _ [|[|i]] ? ? ? [=] | reflexivity].
      + destruct (Z.ltb_spec (fst (fst b)) (snd (fst a))) as [Hlt|Hge].
        * split; [discriminate|]. intros H.
          specialize (H 0 a b eq_refl eq_refl). lia.
        * rewrite IH. split.
          -- intros H [|i] x y Hx Hy; simpl in *.
             ++ injection Hx as <-. injection Hy as <-. exact Hge.
             ++ exact (H i x y Hx Hy).
          -- intros H i x y Hx Hy. exact (H (S i) x y Hx Hy).
  Qed.

Lemma adjacent_ordered (L : list record) :
    StronglySorted (@by_start A) L ->
    (forall i a b, nth_error L i = Some a -> nth_error L (S i) = Some b ->
                   (end_of a <= start_of b)%Z) ->
    ForallOrdPairs (fun a b => (end_of a <= start_of b)%Z) L.
  Proof.
    induction 1 as [|a L HS IH Ha]; intros Hadj; constructor.
    - destruct L as [|b L]; constructor.
      + exact (Hadj 0 a b eq_refl eq_refl).
      + apply StronglySorted_inv in HS as [_ Hb].
        pose proof (Hadj 0 a b eq_refl eq_refl) as Hab.
        eapply Forall_impl; [|exact Hb].
        intros x Hx. unfold by_start in Hx. cbv beta in *. lia.
    - apply IH. intros i x y Hx Hy. exact (Hadj (S i) x y Hx Hy).
  Qed.

Lemma ForallOrdPairs_impl (R R' : record -> record -> Prop) (l : list record) :
    (forall a b, In a l -> In b l -> R a b -> R' a b) ->
    ForallOrdPairs R l -> ForallOrdPairs R' l.
  Proof.
    intros HR H; induction H as [|x l Hx Hl IH]; constructor.
    - rewrite Forall_forall in *. intros y Hy.
      apply HR; [now left | now right | auto].
    - apply IH. intros a b Ha Hb. apply HR; now right.
  Qed.

Lemma finalize_warning_None (recs : list record) :
    finalize_warning payload_lt (of_records recs) = None <->
    count_overlaps (map start_of (sorted payload_lt recs))
                   (map end_of (sorted payload_lt recs)) = 0.
  Proof.
    unfold finalize_warning. rewrite finalize_of_records.
    rewrite of_records_columns.
    destruct recs as [|r recs]; [simpl; tauto|].
    cbn [columns starts ends map].
    destruct (Nat.eqb_spec
                (count_overlaps (map start_of (sorted payload_lt (r :: recs)))
                                (map end_of (sorted payload_lt (r :: recs)))) 0)
      as [E|E]; [tauto|].
    split; [discriminate | contradiction].
  Qed.

  (** X2. When [finalize] prints no overlap warning, no point lies in two of
      the added records: the check of neighbouring rows after sorting is
      enough for all pairs. *)
Theorem no_warning_non_overlapping (recs : list record) :
    finalize_warning payload_lt (of_records recs) = None ->
    non_overlapping recs.
  Proof.
    intros H. apply finalize_warning_None in H.
    pose proof (proj1 (count_overlaps_zero (sorted payload_lt recs)) H) as Hadj.
    clear H.
    pose proof (adjacent_ordered (sorted_by_start payload_lt recs) Hadj) as H.
    apply non_overlapping_pairs.
    apply (@ForallOrdPairs_Permutation disjoint (sorted payload_lt recs) recs
             disjoint_sym).
    - symmetry. apply sorted_Permutation.
    - eapply ForallOrdPairs_impl; [|exact H].
      intros a b _ _ Hab p. unfold contains. cbv beta in *. lia.
  Qed.

  (** X3. Conversely, when every added record has [start < end] and no point
      lies in two of them, [finalize] prints no warning. *)
Theorem non_overlapping_no_warning (recs : list record) :
    (forall r, In r recs -> (start_of r < end_of r)%Z) ->
    non_overlapping recs ->
    finalize_warning payload_lt (of_records recs) = None.
  Proof.
    intros Hne Hno. apply finalize_warning_None.
    apply (proj2 (count_overlaps_zero (sorted payload_lt recs))).
    apply non_overlapping_pairs in Hno.
    apply (@ForallOrdPairs_Permutation disjoint recs (sorted payload_lt recs)
             disjoint_sym (sorted_Permutation recs)) in Hno.
    intros i a b Ha Hb.
    pose proof (@ForallOrdPairs_nth disjoint _ i (S i) a b Hno ltac:(lia) Ha Hb)
      as Hd.
    pose proof (@StronglySorted_nth A _ i (S i) a b
                  (sorted_by_start payload_lt recs) ltac:(lia) Ha Hb) as Hs.
    assert (Hb' : (start_of b < end_of b)%Z).
    { apply Hne. apply sorted_In with (payload_lt := payload_lt).
      eapply nth_error_In; eauto. }
    destruct (Z.le_gt_cases (end_of a) (start_of b)) as [|Hgt]; [assumption|].
    exfalso. apply (Hd (start_of b)); unfold contains, by_start in *;
      cbv beta in *; lia.
  Qed.

End RangeTableOrder.

(** ** Range table: [sweep] without the cursor *)

Section RangeTableLookup.

  Import RangeTable.

  Variable A : Type.
  Variable payload_lt : A -> A -> bool.

  Local Abbreviation record := (Z * Z * A)%type.
  Local Abbreviation start_of := (fun c : record => fst (fst c)).
  Local Abbreviation end_of := (fun c : record => snd (fst c)).
  Local Abbreviation payload_of := (fun c : record => snd c).

  (** What one call of [sweep] computes when no row that ends after [p] is
      behind the cursor: the first row that ends after [p] answers, if it
      starts at or before [p]. *)
Definition lookup (L : list record) (p : Z) : option A :=
    match find (fun r => (p <? end_of r)%Z) L with
    | Some r => if (start_of r <=? p)%Z then Some (payload_of r) else None
    | None => None
    end.

  (** The payload of the first row, in table order, that contains [p]. *)
Definition first_enclosing (L : list record) (p : Z) : option A :=
    option_map payload_of
      (find (fun r => (start_of r <=? p)%Z && (p <? end_of r)%Z) L).

Lemma find_first (f : record -> bool) (L : list record) (c : nat) (r : record) :
    (forall i x, i < c -> nth_error L i = Some x -> f x = false) ->
    nth_error L c = Some r -> f r = true -> find f L = Some r.
  Proof.
    revert c; induction L as [|x L IH]; intros c Hbefore Hr Hf.
    - destruct c; discriminate.
    - destruct c as [|c]; simpl in *.
      + injection Hr as ->. now rewrite Hf.
      + rewrite (Hbefore 0 x ltac:(lia) eq_refl).
        apply (IH c); [|assumption|assumption].
        intros i y Hi Hy. apply (Hbefore (S i) y); [lia | exact Hy].
  Qed.

Lemma find_all_false (f : record -> bool) (L : list record) :
    (forall x, In x L -> f x = false) -> find f L = None.
  Proof.
    induction L as [|x L IH]; intros H; simpl; [reflexivity|].
    rewrite (H x (or_introl eq_refl)). apply IH. intros y Hy. apply H. now right.
  Qed.

  (** One call of [sweep] at [p], when the cursor has passed only rows that
      end at or before an earlier point [q <= p]. *)
Lemma sweep_lookup (L : list record) (c : nat) (q p : Z) :
    passed L c q -> (q <= p)%Z ->
    exists c',
      sweep (columns L c) p = (lookup L p, columns L c') /\
      c <= c' /\ passed L c' p.
  Proof.
    intros Hpass Hqp.
    unfold sweep; simpl. rewrite !length_map.
    set (n := List.length L).
    pose proof (@advance_spec (map end_of L) n p (n - c) c (le_n _)) as H.
    set (c' := advance (map end_of L) n p (n - c) c) in *.
    cbv zeta in H. destruct H as (Hle & Hskip & Hstop).
    assert (Hpass' : passed L c' p).
    { intros i r Hi Hr. destruct (Nat.lt_ge_cases i c) as [Hic|Hic].
      - specialize (Hpass i r Hic Hr). cbv beta in *. lia.
      - destruct (Hskip i ltac:(lia)) as [_ He].
        rewrite (@nth_map_col A end_of L i r Hr) in He. exact He. }
    exists c'. unfold lookup.
    destruct (Nat.ltb_spec c' n) as [Hc'|Hc']; simpl.
    - destruct (nth_error L c') as [r|] eqn:Hr;
        [|apply nth_error_None in Hr; unfold n in Hc'; lia].
      specialize (Hstop Hc').
      rewrite (@nth_map_col A end_of L c' r Hr) in Hstop.
      rewrite (@nth_map_col A start_of L c' r Hr).
      rewrite (@find_first (fun r => (p <? end_of r)%Z) L c' r).
      + rewrite nth_error_map, Hr; simpl.
        destruct (Z.leb_spec (fst (fst r)) p); auto.
      + intros i x Hi Hx. apply Z.ltb_ge. exact (Hpass' i x Hi Hx).
      + exact Hr.
      + apply Z.ltb_lt. exact Hstop.
    - rewrite find_all_false; [auto|].
      intros x Hx. apply In_nth_error in Hx as [i Hi].
      assert (i < n) by (apply nth_error_Some; congruence).
      apply Z.ltb_ge. apply (Hpass' i x); [lia | exact Hi].
  Qed.

Lemma sweeps_lookup (L : list record) (ps : list Z) :
    Sorted Z.le ps ->
    forall c q, passed L c q -> HdRel Z.le q ps ->
    sweeps (columns L c) ps = map (lookup L) ps.
  Proof.
    induction 1 as [|p ps Hps IH Hhd]; intros c q Hpass Hq; simpl.
    - reflexivity.
    - inversion Hq as [|? ? Hqp]; subst.
      destruct (@sweep_lookup L c q p Hpass Hqp) as (c' & -> & _ & Hpass').
      f_equal. exact (IH c' p Hpass' Hhd).
  Qed.

  (** On rows in ascending order of [start], the row [sweep] looks at is
      the first one that contains the point. *)
Lemma lookup_first_enclosing (L : list record) (p : Z) :
    StronglySorted (@by_start A) L -> lookup L p = first_enclosing L p.
  Proof.
    unfold lookup, first_enclosing.
    induction 1 as [|a L HS IH Ha]; simpl; [reflexivity|].
    destruct (Z.ltb_spec p (snd (fst a))) as [He|He].
    - destruct (Z.leb_spec (fst (fst a)) p) as [Hs|Hs]; simpl; [reflexivity|].
      rewrite find_all_false; [reflexivity|].
      intros x Hx. rewrite Forall_forall in Ha. specialize (Ha x Hx).
      unfold by_start in Ha. apply andb_false_iff. left. apply Z.leb_gt.
      cbv beta in *. lia.
    - rewrite andb_false_r. exact IH.
  Qed.

Lemma passed_0 (L : list record) (q : Z) : passed L 0 q.
  Proof. intros i r Hi. lia. Qed.

Lemma HdRel_self (ps : list Z) :
    HdRel Z.le (match ps with [] => 0%Z | p :: _ => p end) ps.
  Proof. destruct ps; constructor; lia. Qed.

  (** X4. On a table filled by [add] and finalized, whether or not its
      records overlap, a sequence of [sweep] calls at non-decreasing points
      answers each point with the payload of the first row of the sorted
      table that contains it, and with [None] when no row contains it: the
      cursor never skips a row that a later point could need. *)
Theorem sweeps_first_enclosing (recs : list record) (points : list Z) :
    Sorted Z.le points ->
    sweeps (finalize payload_lt (of_records recs)) points
    = map (first_enclosing (zip3 (finalize payload_lt (of_records recs)))) points.
  Proof.
    intros Hps. rewrite zip3_finalize, finalize_of_records.
    rewrite (@sweeps_lookup (sorted payload_lt recs) points Hps 0 _
               (passed_0 _ _) (HdRel_self points)).
    apply map_ext. intros p. apply lookup_first_enclosing.
    apply sorted_by_start.
  Qed.

End RangeTableLookup.

(** *** Worked inputs *)

Section RangeTableOrderExamples.

(** Two records that share [0x180, 0x200), added out of order. *)
Definition two_overlapping : list (Z * Z * string) :=
  [(384%Z, 768%Z, "DE"); (256%Z, 512%Z, "US")].

Lemma two_overlapping_warning :
  RangeTable.finalize_warning String.ltb (RangeTable.of_records two_overlapping)
  = Some 1.
Proof. reflexivity. Qed.

Lemma no_warning_non_overlapping_witness :
  RangeTable.finalize_warning String.ltb (RangeTable.of_records two_ranges) = None
  /\ RangeTable.non_overlapping two_ranges.
Proof.
  split; [reflexivity|].
  apply (@no_warning_non_overlapping string String.ltb two_ranges).
  reflexivity.
Defined.

Lemma non_overlapping_no_warning_witness :
  RangeTable.finalize_warning String.ltb (RangeTable.of_records two_ranges) = None.
Proof.
  apply (@non_overlapping_no_warning string String.ltb two_ranges).
  - intros r [<-|[<-|[]]]; simpl; lia.
  - exact two_ranges_non_overlapping.
Defined.

Lemma sweeps_first_enclosing_witness :
  RangeTable.sweeps
    (RangeTable.finalize String.ltb (RangeTable.of_records two_overlapping))
    [256%Z; 400%Z; 512%Z; 768%Z]
  = map (first_enclosing
           (RangeTable.zip3
              (RangeTable.finalize String.ltb
                 (RangeTable.of_records two_overlapping))))
        [256%Z; 400%Z; 512%Z; 768%Z].
Proof.
  apply (@sweeps_first_enclosing string String.ltb two_overlapping
           [256%Z; 400%Z; 512%Z; 768%Z]).
  repeat constructor; lia.
Defined.

Lemma two_overlapping_sweeps :
  RangeTable.sweeps
    (RangeTable.finalize String.ltb (RangeTable.of_records two_overlapping))
    [256%Z; 400%Z; 512%Z; 768%Z]
  = [Some "US"; Some "US"; Some "DE"; None].
Proof. reflexivity. Qed.

End RangeTableOrderExamples.

(** ** The boundaries of [main] *)

Section Boundaries.

Lemma insert_boundary_In (x y : Z) (l : list Z) :
  In y (insert_boundary x l) <-> y = x \/ In y l.
Proof.
  induction l as [|z l IH]; simpl; [intuition|].
  destruct (Z.ltb_spec x z); simpl; [intuition|].
  destruct (Z.eqb_spec x z); simpl; [subst; intuition|].
  rewrite IH. intuition.
Qed.

Lemma insert_boundary_sorted (x : Z) (l : list Z) :
  StronglySorted Z.lt l -> StronglySorted Z.lt (insert_boundary x l).
Proof.
  induction 1 as [|z l Hl IH Hz]; simpl.
  - repeat constructor.
  - destruct (Z.ltb_spec x z).
    + constructor; [now constructor|].
      constructor; [assumption|].
      eapply Forall_impl; [|exact Hz]. intros y Hy; cbv beta in *; lia.
    + destruct (Z.eqb_spec x z); [now constructor|].
      constructor; [assumption|].
      apply Forall_forall; intros y Hy.
      apply insert_boundary_In in Hy as [->|Hy]; [lia|].
      rewrite Forall_forall in Hz; auto.
Qed.

Lemma fold_insert_boundary_In (l : list Z) (x : Z) :
  In x (fold_right insert_boundary [] l) <-> In x l.
Proof.
  induction l as [|y l IH]; simpl; [tauto|].
  rewrite insert_boundary_In, IH. intuition.
Qed.

Lemma sorted_boundaries_In (all_tables : list table) (x : Z) :
  In x (sorted_boundaries all_tables)
  <-> exists tbl, In tbl all_tables /\ In x (RangeTable.boundaries tbl).
Proof.
  unfold sorted_boundaries. rewrite fold_insert_boundary_In. apply in_flat_map.
Qed.

Lemma sorted_boundaries_sorted (all_tables : list table) :
  StronglySorted Z.lt (sorted_boundaries all_tables).
Proof.
  unfold sorted_boundaries.
  induction (flat_map (@RangeTable.boundaries payload) all_tables) as [|y l IH];
    simpl; [constructor | now apply insert_boundary_sorted].
Qed.

(** The boundaries of a table are the starts and the ends of its rows. *)
Lemma boundaries_In (tbl : table) (x : Z) :
  In x (RangeTable.boundaries tbl)
  <-> exists se, In se (combine (RangeTable.starts tbl) (RangeTable.ends tbl))
                 /\ (x = fst se \/ x = snd se).
Proof.
  unfold RangeTable.boundaries. rewrite in_flat_map.
  split; intros (se & Hse & H); exists se; (split; [assumption|]);
    simpl in *; intuition.
Qed.

(** X5. The list of boundaries [main] walks is strictly ascending, and its
    members are exactly the starts and the ends of the rows of the tables:
    every value once, whatever the number of tables that contain it. *)
Theorem boundaries_strictly_ascending (all_tables : list table) :
  StronglySorted Z.lt (sorted_boundaries all_tables) /\
  forall x, In x (sorted_boundaries all_tables)
            <-> exists tbl s e,
                  In tbl all_tables /\
                  In (s, e) (combine (RangeTable.starts tbl) (RangeTable.ends tbl)) /\
                  (x = s \/ x = e).
Proof.
  split; [apply sorted_boundaries_sorted|].
  intros x. rewrite sorted_boundaries_In. split.
  - intros (tbl & Ht & Hx). apply boundaries_In in Hx as ([s e] & Hse & H).
    exists tbl, s, e. auto.
  - intros (tbl & s & e & Ht & Hse & H). exists tbl. split; [assumption|].
    apply boundaries_In. exists (s, e). auto.
Qed.

(** Two neighbours of a strictly ascending list have no member between
    them. *)
Lemma neighbours_no_member (pre post : list Z) (s n x : Z) :
  StronglySorted Z.lt (pre ++ s :: n :: post) ->
  In x (pre ++ s :: n :: post) -> (x <= s \/ n <= x)%Z.
Proof.
  induction pre as [|y pre IH]; simpl; intros HS Hx.
  - apply StronglySorted_inv in HS as [HS Hs].
    apply StronglySorted_inv in HS as [_ Hn].
    rewrite Forall_forall in Hn.
    destruct Hx as [<-|[<-|Hx]]; [lia | lia |].
    specialize (Hn x Hx). cbv beta in Hn. lia.
  - apply StronglySorted_inv in HS as [HS Hy].
    destruct Hx as [<-|Hx]; [|now apply IH].
    rewrite Forall_forall in Hy.
    specialize (Hy s (in_elt s pre (n :: post))). cbv beta in Hy. lia.
Qed.

(** A point between two members lies between two neighbours. *)
Lemma between_neighbours (bs : list Z) (b p : Z) :
  StronglySorted Z.lt bs -> In b bs -> (p < b)%Z ->
  forall a, In a bs -> (a <= p)%Z ->
  exists pre s n post, bs = pre ++ s :: n :: post /\ (s <= p < n)%Z.
Proof.
  induction 1 as [|x bs HS IH Hx]; intros Hb Hpb a Ha Hap; [contradiction|].
  rewrite Forall_forall in Hx.
  assert (Hxp : (x <= p)%Z).
  { destruct Ha as [<-|Ha]; [assumption|].
    specialize (Hx a Ha). cbv beta in Hx. lia. }
  destruct Hb as [<-|Hb]; [lia|].
  destruct bs as [|y bs]; [contradiction|].
  destruct (Z.lt_ge_cases p y) as [Hpy|Hpy].
  - exists [], x, y, bs. split; [reflexivity | lia].
  - destruct (IH Hb Hpb y (or_introl eq_refl) Hpy) as (pre & s & n & post & E & Hsn).
    exists (x :: pre), s, n, post. split; [simpl; now rewrite E | assumption].
Qed.

End Boundaries.

(** ** Coalescing: what the merged list covers *)

Section CoalescingCoverage.

(** The segment contains [p]; both ends are inclusive. *)
Definition covers (s : segment) (p : Z) : Prop :=
  (seg_start s <= p <= seg_end s)%Z.

(** Some segment of the list contains [p] and carries [(c, lat, lon)]. *)
Definition covered (l : list segment) (p : Z) (c lat lon : string) : Prop :=
  exists s, In s l /\ covers s p /\
            seg_country s = c /\ seg_lat s = lat /\ seg_lon s = lon.

Definition nonempty (s : segment) : Prop := (seg_start s <= seg_end s)%Z.

(** [a] lies wholly before [b]. *)
Definition seg_before (a b : segment) : Prop := (seg_end a < seg_start b)%Z.

Lemma covered_app (l1 l2 : list segment) (p : Z) (c lat lon : string) :
  covered (l1 ++ l2) p c lat lon <-> covered l1 p c lat lon \/ covered l2 p c lat lon.
Proof.
  unfold covered. split.
  - intros (s & Hin & H). apply in_app_iff in Hin as [Hin|Hin]; eauto.
  - intros [(s & Hin & H)|(s & Hin & H)]; exists s; rewrite in_app_iff; auto.
Qed.

Lemma covered_rev (l : list segment) (p : Z) (c lat lon : string) :
  covered (rev l) p c lat lon <-> covered l p c lat lon.
Proof.
  unfold covered. split; intros (s & Hin & H); exists s;
    (split; [|assumption]); [now apply in_rev | now apply in_rev in Hin].
Qed.

Lemma step_rev_sound (acc : list segment) (entry : segment) (p : Z)
    (c lat lon : string) :
  covered (step_rev acc entry) p c lat lon -> covered (entry :: acc) p c lat lon.
Proof.
  destruct acc as [|last before]; simpl; [auto|].
  destruct (same_value last entry && (seg_end last + 1 =? seg_start entry)%Z) eqn:E;
    [|auto].
  apply mergeable_test in E. destruct E as (Hc & Hla & Hlo & Hadj).
  intros (s & [<-|Hin] & Hcov & Hv).
  - unfold covers in Hcov; simpl in Hcov, Hv.
    destruct (Z.le_gt_cases p (seg_end last)) as [Hp|Hp].
    + exists last. split; [right; now left|].
      split; [unfold covers; lia|]. rewrite Hc, Hla, Hlo. exact Hv.
    + exists entry. split; [now left|].
      split; [unfold covers; lia | exact Hv].
  - exists s. split; [right; now right | auto].
Qed.

Lemma fold_step_rev_sound (output acc : list segment) (p : Z)
    (c lat lon : string) :
  covered (fold_left step_rev output acc) p c lat lon ->
  covered (output ++ acc) p c lat lon.
Proof.
  revert acc; induction output as [|e output IH]; intros acc; simpl; [auto|].
  intros H. apply IH in H. apply covered_app in H as [H|H].
  - change (e :: output ++ acc) with ([e] ++ output ++ acc).
    rewrite !covered_app. auto.
  - apply step_rev_sound in H.
    change (e :: acc) with ([e] ++ acc) in H.
    change (e :: output ++ acc) with ([e] ++ output ++ acc).
    rewrite !covered_app in *. tauto.
Qed.

Lemma step_rev_complete (acc : list segment) (entry : segment) (p : Z)
    (c lat lon : string) :
  Forall nonempty (entry :: acc) ->
  Forall nonempty (step_rev acc entry) /\
  (covered (entry :: acc) p c lat lon -> covered (step_rev acc entry) p c lat lon).
Proof.
  intros Hne. destruct acc as [|last before]; simpl; [auto|].
  destruct (same_value last entry && (seg_end last + 1 =? seg_start entry)%Z) eqn:E;
    [|auto].
  apply mergeable_test in E. destruct E as (Hc & Hla & Hlo & Hadj).
  apply Forall_inv in Hne as He, Hne as Hne'. apply Forall_inv_tail in Hne.
  apply Forall_inv in Hne as Hl. apply Forall_inv_tail in Hne.
  unfold nonempty in He, Hl.
  split.
  - constructor; [unfold nonempty; simpl; lia | assumption].
  - intros (s & [<-|[<-|Hin]] & Hcov & Hv); unfold covers in Hcov.
    + eexists. split; [now left|]. split; [unfold covers; simpl; lia | exact Hv].
    + eexists. split; [now left|]. split; [unfold covers; simpl; lia|].
      simpl. rewrite <- Hc, <- Hla, <- Hlo. exact Hv.
    + exists s. split; [now right | auto].
Qed.

Lemma fold_step_rev_complete (output acc : list segment) (p : Z)
    (c lat lon : string) :
  Forall nonempty (output ++ acc) ->
  Forall nonempty (fold_left step_rev output acc) /\
  (covered (output ++ acc) p c lat lon ->
   covered (fold_left step_rev output acc) p c lat lon).
Proof.
  revert acc; induction output as [|e output IH]; intros acc Hne; simpl;
    [auto|].
  simpl in Hne.
  assert (Hea : Forall nonempty (e :: acc)).
  { apply Forall_inv in Hne as He. apply Forall_inv_tail in Hne.
    apply Forall_app in Hne as [_ Ha]. now constructor. }
  destruct (step_rev_complete p c lat lon Hea) as [Hne' Hcov'].
  assert (Hne'' : Forall nonempty (output ++ step_rev acc e)).
  { apply Forall_inv_tail in Hne. apply Forall_app in Hne as [Ho _].
    apply Forall_app. auto. }
  destruct (IH _ Hne'') as [Hfin Hcov].
  split; [assumption|].
  intros H. apply Hcov.
  change (e :: output ++ acc) with ([e] ++ output ++ acc) in H.
  change (e :: acc) with ([e] ++ acc) in Hcov'.
  rewrite !covered_app in *. tauto.
Qed.

Lemma coalesce_as_fold (output : list segment) :
  coalesce output = rev (fold_left step_rev output []).
Proof.
  unfold coalesce. rewrite <- (rev_involutive (fold_left coalesce_step output [])).
  now rewrite coalesce_rev.
Qed.

Lemma coalesce_sound (output : list segment) (p : Z) (c lat lon : string) :
  covered (coalesce output) p c lat lon -> covered output p c lat lon.
Proof.
  rewrite coalesce_as_fold, covered_rev. intros H.
  apply fold_step_rev_sound in H. now rewrite app_nil_r in H.
Qed.

Lemma coalesce_complete (output : list segment) (p : Z) (c lat lon : string) :
  Forall nonempty output ->
  Forall nonempty (coalesce output) /\
  (covered output p c lat lon -> covered (coalesce output) p c lat lon).
Proof.
  intros Hne. rewrite coalesce_as_fold.
  rewrite <- (app_nil_r output) in Hne.
  destruct (@fold_step_rev_complete output [] p c lat lon Hne) as [H1 H2].
  split.
  - apply Forall_forall. intros s Hs. apply in_rev in Hs.
    rewrite Forall_forall in H1. auto.
  - rewrite covered_rev. intros H. apply H2. now rewrite app_nil_r.
Qed.

(** X6. Coalescing changes no value at any point: when every segment of
    the sweep's output has [start <= end], a point is covered by a merged
    segment with country, lat and lon [(c, lat, lon)] exactly when it was
    covered by a segment of the output with these values. *)
Theorem coalesce_preserves_coverage (output : list segment) (p : Z)
    (c lat lon : string) :
  Forall nonempty output ->
  (covered (coalesce output) p c lat lon <-> covered output p c lat lon).
Proof.
  intros Hne. split; [apply coalesce_sound|].
  now apply coalesce_complete.
Qed.

(** *** A list without mergeable neighbours is left as it is *)

Lemma fold_step_rev_fixed (l acc : list segment) :
  Sorted separated (rev l ++ acc) -> fold_left step_rev l acc = rev l ++ acc.
Proof.
  revert acc; induction l as [|e l IH]; intros acc HS; simpl; [reflexivity|].
  simpl in HS. rewrite <- app_assoc in HS. simpl in HS.
  rewrite <- app_assoc. simpl.
  assert (Hstep : step_rev acc e = e :: acc).
  { destruct acc as [|last before]; simpl; [reflexivity|].
    destruct (same_value last e && (seg_end last + 1 =? seg_start e)%Z) eqn:E;
      [|reflexivity].
    apply mergeable_test in E.
    apply (@Sorted_middle separated) in HS. contradiction. }
  rewrite Hstep. now apply IH.
Qed.

(** X7. Coalescing a coalesced list changes nothing: one pass combines
    everything that can be combined. *)
Theorem coalesce_idempotent (output : list segment) :
  coalesce (coalesce output) = coalesce output.
Proof.
  pose proof (fold_step_rev_separated output (Sorted_nil separated)) as HS.
  rewrite (coalesce_as_fold (coalesce output)).
  rewrite fold_step_rev_fixed.
  - now rewrite app_nil_r, rev_involutive.
  - rewrite app_nil_r, coalesce_as_fold, rev_involutive. exact HS.
Qed.

(** *** Ascending input stays ascending *)

(** Newest first: every older segment lies wholly before a newer one. *)
Definition seg_after (newer older : segment) : Prop := seg_before older newer.

Lemma step_rev_ascending (acc : list segment) (entry : segment) :
  StronglySorted seg_after acc -> Forall nonempty (entry :: acc) ->
  Forall (fun x => seg_before x entry) acc ->
  StronglySorted seg_after (step_rev acc entry) /\
  Forall nonempty (step_rev acc entry) /\
  Forall (fun x => (seg_end x <= seg_end entry)%Z) (step_rev acc entry).
Proof.
  intros HS Hne Hbefore.
  assert (Hends : Forall (fun x => (seg_end x <= seg_end entry)%Z) acc).
  { apply Forall_inv in Hne as He. unfold nonempty in He.
    eapply Forall_impl; [|exact Hbefore]. unfold seg_before. intros x Hx. lia. }
  destruct acc as [|last before]; simpl.
  - repeat split; [repeat constructor | assumption | constructor; [lia|constructor]].
  - destruct (same_value last entry && (seg_end last + 1 =? seg_start entry)%Z) eqn:E.
    + apply mergeable_test in E. destruct E as (_ & _ & _ & Hadj).
      apply StronglySorted_inv in HS as [HS Hl].
      apply Forall_inv in Hne as He. apply Forall_inv_tail in Hne.
      apply Forall_inv in Hne as Hlast. apply Forall_inv_tail in Hne.
      unfold nonempty in *.
      repeat split.
      * constructor; [assumption|]. exact Hl.
      * constructor; [simpl; lia | assumption].
      * constructor; [simpl; lia|]. now apply Forall_inv_tail in Hends.
    + repeat split.
      * constructor; [assumption|]. exact Hbefore.
      * assumption.
      * constructor; [lia | assumption].
Qed.

Lemma fold_step_rev_ascending (output acc : list segment) :
  StronglySorted seg_before output -> Forall nonempty (output ++ acc) ->
  StronglySorted seg_after acc ->
  Forall (fun x => Forall (seg_before x) output) acc ->
  StronglySorted seg_after (fold_left step_rev output acc) /\
  Forall nonempty (fold_left step_rev output acc).
Proof.
  revert acc; induction output as [|e output IH]; intros acc HSo Hne HSa Hb;
    simpl; [auto|].
  apply StronglySorted_inv in HSo as [HSo He].
  simpl in Hne. apply Forall_inv in Hne as Hne_e. apply Forall_inv_tail in Hne.
  apply Forall_app in Hne as [Hne_o Hne_a].
  destruct (@step_rev_ascending acc e HSa (Forall_cons _ Hne_e Hne_a))
    as (H1 & H2 & H3).
  { eapply Forall_impl; [|exact Hb]. intros x Hx. now apply Forall_inv in Hx. }
  apply IH; [assumption | apply Forall_app; auto | assumption |].
  eapply Forall_impl; [|exact H3]. intros x Hx; cbv beta in Hx.
  eapply Forall_impl; [|exact He]. unfold seg_before. intros y Hy. lia.
Qed.

Lemma StronglySorted_rev (R : segment -> segment -> Prop) (l : list segment) :
  StronglySorted R l -> StronglySorted (fun a b => R b a) (rev l).
Proof.
  induction 1 as [|x l HS IH Hx]; simpl; [constructor|].
  assert (Hsnoc : forall l', StronglySorted (fun a b => R b a) l' ->
                    Forall (fun y => R x y) l' ->
                    StronglySorted (fun a b => R b a) (l' ++ [x])).
  { induction l' as [|y l' IH']; simpl; intros HS' HF.
    - repeat constructor.
    - apply StronglySorted_inv in HS' as [HS' Hy].
      constructor; [apply IH'; [assumption | now apply Forall_inv_tail in HF]|].
      apply Forall_app. split; [assumption|].
      constructor; [now apply Forall_inv in HF | constructor]. }
  apply Hsnoc; [assumption|].
  apply Forall_forall. intros y Hy. apply in_rev in Hy.
  rewrite Forall_forall in Hx. auto.
Qed.

Lemma coalesce_ascending (output : list segment) :
  Forall nonempty output -> StronglySorted seg_before output ->
  Forall nonempty (coalesce output) /\ StronglySorted seg_before (coalesce output).
Proof.
  intros Hne HS. rewrite coalesce_as_fold.
  rewrite <- (app_nil_r output) in Hne.
  destruct (@fold_step_rev_ascending output [] HS Hne
              (SSorted_nil seg_after) (Forall_nil _)) as [H1 H2].
  split.
  - apply Forall_forall. intros s Hs. apply in_rev in Hs.
    rewrite Forall_forall in H2. auto.
  - apply StronglySorted_rev in H1. exact H1.
Qed.

End CoalescingCoverage.

(** ** The merge loop: what the sources say at a point *)

Section MergeLoop.

Context {PF : PyFloat}.

Variable latlong_name_set : list string.
Variable merge_cfg : merge_config.

Local Abbreviation record := (Z * Z * payload)%type.

(** A table as a loader returns it: filled by [add], then finalized. *)
Definition finalized (tbl : table) : Prop := exists recs, tbl = loaded recs.

(** What one source says at [p], looked up without a cursor: the payload
    of the first row that contains [p]. *)
Definition observe (tbl : table) (p : Z) : option payload :=
  first_enclosing (RangeTable.zip3 tbl) p.

(** [all_data] at [p]: one entry per source name, a later table of a name
    replacing the value of an earlier one. *)
Definition observations (tables : list (string * table)) (p : Z)
  : dict (option payload) :=
  fold_left (fun all_data nt => dict_set all_data (fst nt) (observe (snd nt) p))
            tables [].

(** The resolver decides [(c, lat, lon)] on what the sources say at [p]. *)
Definition decided_at (tables : list (string * table)) (p : Z)
    (c lat lon : string) : Prop :=
  exists label,
    pick_winner (observations tables p) latlong_name_set merge_cfg
    = Ok (Some (c, lat, lon, label)).

(** [tbl] is the table [tbl0] after sweeps at points up to [q]. *)
Definition tracks (q : Z) (nt nt0 : string * table) : Prop :=
  fst nt = fst nt0 /\
  exists L c,
    snd nt0 = columns L 0 /\ snd nt = columns L c /\
    passed L c q /\ StronglySorted (@by_start payload) L.

Lemma finalized_tracks (nt : string * table) (q : Z) :
  finalized (snd nt) -> tracks q nt nt.
Proof.
  intros [recs E]. split; [reflexivity|].
  exists (RangeTable.sorted payload_lt recs), 0.
  unfold loaded in E. rewrite finalize_of_records in E.
  repeat split; try assumption; [apply passed_0 | apply sorted_by_start].
Qed.

Lemma tracks_sweep (q p : Z) (nt nt0 : string * table) :
  tracks q nt nt0 -> (q <= p)%Z ->
  exists tbl',
    RangeTable.sweep (snd nt) p = (observe (snd nt0) p, tbl') /\
    tracks p (fst nt, tbl') nt0.
Proof.
  intros [Hn (L & c & E0 & E & Hpass & HS)] Hqp.
  destruct (@sweep_lookup payload L c q p Hpass Hqp) as (c' & Hsw & _ & Hpass').
  exists (columns L c'). rewrite E, Hsw. split.
  - unfold observe. rewrite E0, zip3_columns.
    now rewrite lookup_first_enclosing.
  - split; [exact Hn|]. exists L, c'. auto.
Qed.

Definition has_data (p : Z) (nt : string * table) : bool :=
  match observe (snd nt) p with Some _ => true | None => false end.

(** The inner loop of [main] on tables whose cursors have passed only rows
    that end at or before [q <= p]. *)
Lemma query_all_observes (q p : Z) (tables tables0 : list (string * table)) :
  Forall2 (tracks q) tables tables0 -> (q <= p)%Z ->
  forall all_data any_data,
  exists tables',
    query_all tables p all_data any_data
    = (fold_left (fun d nt => dict_set d (fst nt) (observe (snd nt) p))
                 tables0 all_data,
       any_data || existsb (has_data p) tables0,
       tables') /\
    Forall2 (tracks p) tables' tables0.
Proof.
  intros HF Hqp; induction HF as [|nt nt0 tables tables0 Hnt HF IH];
    intros all_data any_data.
  - exists []. simpl. rewrite orb_false_r. split; [reflexivity | constructor].
  - destruct (tracks_sweep Hnt Hqp) as (tbl' & Hsw & Htr).
    destruct nt as [name tbl]. cbn [query_all]. simpl in Hsw. rewrite Hsw.
    destruct (IH (dict_set all_data name (observe (snd nt0) p))
                 (match observe (snd nt0) p with
                  | Some _ => true | None => any_data end))
      as (tables' & -> & HF').
    exists ((name, tbl') :: tables'). split; [|constructor; assumption].
    destruct Hnt as [Hn _]. simpl in Hn. subst name.
    cbn [fold_left existsb]. unfold has_data at 2.
    destruct (observe (snd nt0) p); destruct any_data; reflexivity.
Qed.

Lemma dict_set_In {V : Type} (d : dict V) (k : string) (v : V)
    (item : string * V) :
  In item (dict_set d k v) -> item = (k, v) \/ In item d.
Proof.
  induction d as [|[k' v'] d IH]; simpl.
  - intros [<-|[]]. now left.
  - destruct (String.eqb_spec k k') as [->|Hne]; simpl.
    + intros [<-|H]; auto.
    + intros [<-|H]; auto. destruct (IH H); auto.
Qed.

Lemma fold_dict_set_In {V X : Type} (key : X -> string) (val : X -> V)
    (l : list X) (d : dict V) (item : string * V) :
  In item (fold_left (fun d x => dict_set d (key x) (val x)) l d) ->
  In item d \/ exists x, In x l /\ item = (key x, val x).
Proof.
  revert d; induction l as [|x l IH]; intros d; simpl; [auto|].
  intros H. apply IH in H as [H|(y & Hy & E)].
  - apply dict_set_In in H as [->|H]; [right; exists x|]; auto.
  - right. exists y. auto.
Qed.

Lemma fold_dict_set_keys {V X : Type} (key : X -> string) (val : X -> V)
    (l : list X) (d : dict V) (k : string) :
  In k (map fst (fold_left (fun d x => dict_set d (key x) (val x)) l d))
  <-> In k (map fst d) \/ In k (map key l).
Proof.
  revert d; induction l as [|x l IH]; intros d; simpl; [tauto|].
  rewrite IH, dict_set_keys.
  destruct (in_dec string_dec (key x) (map fst d)) as [Hin|Hnin].
  - split; [tauto|]. intros [H|[<-|H]]; auto.
  - rewrite in_app_iff; simpl. tauto.
Qed.

Lemma fold_dict_set_is_dict {V X : Type} (key : X -> string) (val : X -> V)
    (l : list X) (d : dict V) :
  is_dict d -> is_dict (fold_left (fun d x => dict_set d (key x) (val x)) l d).
Proof.
  revert d; induction l as [|x l IH]; intros d Hd; simpl; [assumption|].
  apply IH. now apply dict_set_is_dict.
Qed.

(** Without an observation that is not [None] the resolver returns
    [None]: the test of [any_data] only saves the call. *)
Lemma no_data_no_winner (tables0 : list (string * table)) (p : Z) :
  existsb (has_data p) tables0 = false ->
  pick_winner (observations tables0 p) latlong_name_set merge_cfg = Ok None.
Proof.
  intros H. unfold pick_winner.
  replace (countries (observations tables0 p)) with (@nil (string * string));
    [reflexivity|].
  symmetry. apply countries_nil. intros item Hin.
  apply fold_dict_set_In in Hin as [[]|(nt & Hnt & ->)]. simpl.
  assert (Hd : has_data p nt = false).
  { destruct (has_data p nt) eqn:E; [|reflexivity].
    rewrite <- H. symmetry. apply existsb_exists. eauto. }
  unfold has_data in Hd. now destruct (observe (snd nt) p).
Qed.

(** The segments of the sweep loop, computed without cursors: one for each
    pair of neighbouring boundaries at whose first point the resolver
    decides. *)
Fixpoint segments_between (bs : list Z) (tables0 : list (string * table))
  : outcome (list segment) :=
  match bs with
  | start :: ((next :: _) as bs') =>
      result <- pick_winner (observations tables0 start) latlong_name_set merge_cfg ;;
      rest <- segments_between bs' tables0 ;;
      Ok (match result with
          | Some (country, lat, lon, _) =>
              mk_segment start (next - 1) country lat lon :: rest
          | None => rest
          end)
  | _ => Ok []
  end.

Lemma process_segments_cons (start next : Z) (bs : list Z)
    (tables : list (string * table)) (output : list segment) :
  process_segments latlong_name_set merge_cfg (start :: next :: bs) tables output
  = let '(all_data, any_data, tables') := query_all tables start [] false in
    if any_data then
      result <- pick_winner all_data latlong_name_set merge_cfg ;;
      match result with
      | Some (country, lat, lon, _) =>
          process_segments latlong_name_set merge_cfg (next :: bs) tables'
            (output ++ [mk_segment start (next - 1) country lat lon])
      | None => process_segments latlong_name_set merge_cfg (next :: bs) tables' output
      end
    else process_segments latlong_name_set merge_cfg (next :: bs) tables' output.
Proof. reflexivity. Qed.

Lemma segments_between_cons (start next : Z) (bs : list Z)
    (tables0 : list (string * table)) :
  segments_between (start :: next :: bs) tables0
  = (result <- pick_winner (observations tables0 start) latlong_name_set merge_cfg ;;
     rest <- segments_between (next :: bs) tables0 ;;
     Ok (match result with
         | Some (country, lat, lon, _) =>
             mk_segment start (next - 1) country lat lon :: rest
         | None => rest
         end)).
Proof. reflexivity. Qed.

Lemma process_segments_stateless (tables0 : list (string * table)) (bs : list Z) :
  Sorted Z.le bs ->
  forall q tables output,
    HdRel Z.le q bs -> Forall2 (tracks q) tables tables0 ->
    process_segments latlong_name_set merge_cfg bs tables output
    = (rest <- segments_between bs tables0 ;; Ok (output ++ rest)).
Proof.
  induction 1 as [|start bs HS IH Hhd]; intros q tables output Hq HF.
  - simpl. now rewrite app_nil_r.
  - destruct bs as [|next bs'].
    + simpl. now rewrite app_nil_r.
    + inversion Hq as [|? ? Hqs]; subst.
      rewrite process_segments_cons, segments_between_cons.
      destruct (query_all_observes HF Hqs [] false) as (tables' & -> & HF').
      fold (observations tables0 start).
      assert (Hhd' : HdRel Z.le start (next :: bs')) by exact Hhd.
      rewrite orb_false_l.
      destruct (existsb (has_data start) tables0) eqn:Hany.
      * destruct (pick_winner (observations tables0 start) latlong_name_set merge_cfg)
          as [[[[[country lat] lon] label]|]|e]; cbn [bind].
        -- rewrite (IH start tables' _ Hhd' HF').
           destruct (segments_between (next :: bs') tables0); cbn [bind];
             [|reflexivity].
           now rewrite <- app_assoc.
        -- rewrite (IH start tables' _ Hhd' HF').
           destruct (segments_between (next :: bs') tables0); reflexivity.
        -- reflexivity.
      * rewrite (no_data_no_winner _ _ Hany). cbn [bind].
        rewrite (IH start tables' _ Hhd' HF').
        destruct (segments_between (next :: bs') tables0); reflexivity.
Qed.

(** *** Between two neighbouring boundaries nothing changes *)

Lemma find_ext_In {X : Type} (f g : X -> bool) (l : list X) :
  (forall x, In x l -> f x = g x) -> find f l = find g l.
Proof.
  induction l as [|x l IH]; intros H; simpl; [reflexivity|].
  rewrite (H x (or_introl eq_refl)). destruct (g x); [reflexivity|].
  apply IH. intros y Hy. apply H. now right.
Qed.

Lemma fold_left_ext_In {S X : Type} (f g : S -> X -> S) (l : list X) :
  (forall s x, In x l -> f s x = g s x) ->
  forall s, fold_left f l s = fold_left g l s.
Proof.
  induction l as [|x l IH]; intros H s; simpl; [reflexivity|].
  rewrite (H s x (or_introl eq_refl)). apply IH.
  intros s' y Hy. apply H. now right.
Qed.

Lemma zip3_boundaries (tbl : table) (r : record) :
  In r (RangeTable.zip3 tbl) ->
  In (fst (fst r)) (RangeTable.boundaries tbl)
  /\ In (snd (fst r)) (RangeTable.boundaries tbl).
Proof.
  destruct r as [se d]. unfold RangeTable.zip3. intros H.
  apply in_combine_l in H.
  split; apply boundaries_In; exists se; auto.
Qed.

Lemma observe_constant (tbl : table) (s n p : Z) :
  (forall x, In x (RangeTable.boundaries tbl) -> (x <= s \/ n <= x)%Z) ->
  (s <= p < n)%Z -> observe tbl p = observe tbl s.
Proof.
  intros Hb Hp. unfold observe, first_enclosing. f_equal.
  apply find_ext_In. intros r Hr.
  apply zip3_boundaries in Hr as [Hs He].
  apply Hb in Hs. apply Hb in He.
  destruct (Z.leb_spec (fst (fst r)) p), (Z.leb_spec (fst (fst r)) s),
    (Z.ltb_spec p (snd (fst r))), (Z.ltb_spec s (snd (fst r)));
    try reflexivity; lia.
Qed.

Lemma observations_constant (tables0 : list (string * table)) (s n p : Z) :
  (forall nt x, In nt tables0 -> In x (RangeTable.boundaries (snd nt)) ->
                (x <= s \/ n <= x)%Z) ->
  (s <= p < n)%Z -> observations tables0 p = observations tables0 s.
Proof.
  intros Hb Hp. unfold observations. apply fold_left_ext_In.
  intros d nt Hnt. f_equal. apply observe_constant with (n := n); [|assumption].
  intros x Hx. exact (Hb nt x Hnt Hx).
Qed.

(** *** The segments of the sweep loop *)

Lemma segments_between_In (tables0 : list (string * table)) (bs : list Z)
    (out : list segment) (seg : segment) :
  segments_between bs tables0 = Ok out ->
  (In seg out <->
   exists pre next post label,
     bs = pre ++ seg_start seg :: next :: post /\
     seg_end seg = (next - 1)%Z /\
     pick_winner (observations tables0 (seg_start seg)) latlong_name_set merge_cfg
     = Ok (Some (seg_country seg, seg_lat seg, seg_lon seg, label))).
Proof.
  revert out; induction bs as [|start bs IH]; intros out.
  - intros [= <-]. split; [contradiction|].
    intros (pre & ? & ? & ? & E & _). destruct pre; discriminate.
  - destruct bs as [|next bs'].
    + intros [= <-]. split; [contradiction|].
      intros (pre & ? & ? & ? & E & _). destruct pre as [|? [|? ?]]; discriminate.
    + rewrite segments_between_cons. intros H.
      apply bind_Ok in H as (result & Hres & H).
      apply bind_Ok in H as (rest & Hrest & H). injection H as <-.
      specialize (IH rest Hrest). split.
      * intros Hin.
        assert (Hcases : (exists label, result
                          = Some (seg_country seg, seg_lat seg, seg_lon seg, label)
                          /\ seg_start seg = start /\ seg_end seg = (next - 1)%Z)
                         \/ In seg rest).
        { destruct result as [[[[c lat] lon] label]|]; [|now right].
          destruct Hin as [<-|Hin]; [left; exists label; auto | now right]. }
        destruct Hcases as [(label & -> & Hs & He)|Hin'].
        -- exists [], next, bs', label. rewrite Hs. auto.
        -- apply IH in Hin' as (pre & n & post & label & E & He & Hw).
           exists (start :: pre), n, post, label. simpl. rewrite E. auto.
      * intros (pre & n & post & label & E & He & Hw).
        destruct pre as [|x pre]; simpl in E.
        -- injection E as -> -> ->. rewrite Hw in Hres. injection Hres as <-.
           left. destruct seg; simpl in *. now subst.
        -- injection E as -> E.
           assert (Hin : In seg rest).
           { apply IH. exists pre, n, post, label. auto. }
           destruct result as [[[[c lat] lon] l]|]; [now right | assumption].
Qed.

(** The segments hold, at each of their points, the resolver's decision
    on what the sources say there. *)
Lemma segments_between_sound (tables0 : list (string * table))
    (out : list segment) (seg : segment) (p : Z) :
  segments_between (sorted_boundaries (map snd tables0)) tables0 = Ok out ->
  In seg out -> covers seg p ->
  (seg_start seg <= seg_end seg)%Z /\
  decided_at tables0 p (seg_country seg) (seg_lat seg) (seg_lon seg).
Proof.
  intros Hout Hin Hp.
  apply (segments_between_In _ _ seg Hout) in Hin
    as (pre & n & post & label & E & He & Hw).
  pose proof (sorted_boundaries_sorted (map snd tables0)) as HS.
  rewrite E in HS. unfold covers in Hp.
  split; [lia|]. exists label.
  rewrite (@observations_constant tables0 (seg_start seg) n p);
    [exact Hw | | lia].
  intros nt x Hnt Hx.
  eapply neighbours_no_member; [exact HS|]. rewrite <- E.
  apply sorted_boundaries_In. exists (snd nt). split; [|assumption].
  now apply in_map.
Qed.

Lemma segments_between_complete (tables0 : list (string * table))
    (out : list segment) (p : Z) (c lat lon : string) :
  segments_between (sorted_boundaries (map snd tables0)) tables0 = Ok out ->
  decided_at tables0 p c lat lon ->
  exists seg, In seg out /\ covers seg p /\ (seg_start seg <= seg_end seg)%Z /\
              seg_country seg = c /\ seg_lat seg = lat /\ seg_lon seg = lon.
Proof.
  intros Hout [label Hw].
  assert (Hany : existsb (has_data p) tables0 = true).
  { destruct (existsb (has_data p) tables0) eqn:E; [reflexivity|].
    rewrite (no_data_no_winner _ _ E) in Hw. discriminate. }
  apply existsb_exists in Hany as (nt & Hnt & Hd).
  unfold has_data, observe, first_enclosing in Hd.
  destruct (find _ (RangeTable.zip3 (snd nt))) as [r|] eqn:Hf; [|discriminate].
  apply find_some in Hf as [Hr Hc].
  apply andb_true_iff in Hc as [Hs He].
  apply Z.leb_le in Hs. apply Z.ltb_lt in He.
  apply zip3_boundaries in Hr as [Hbs Hbe].
  assert (Hmem : forall x, In x (RangeTable.boundaries (snd nt)) ->
                           In x (sorted_boundaries (map snd tables0))).
  { intros x Hx. apply sorted_boundaries_In. exists (snd nt).
    split; [now apply in_map | assumption]. }
  pose proof (sorted_boundaries_sorted (map snd tables0)) as HS.
  destruct (@between_neighbours _ _ p HS (Hmem _ Hbe) He _ (Hmem _ Hbs) Hs)
    as (pre & s & n & post & E & Hsn).
  exists (mk_segment s (n - 1) c lat lon). simpl.
  split; [|unfold covers; simpl; repeat split; lia].
  apply (segments_between_In _ _ _ Hout). simpl.
  exists pre, n, post, label. split; [exact E|]. split; [reflexivity|].
  rewrite <- (@observations_constant tables0 s n p); [exact Hw | | exact Hsn].
  intros nt' x Hnt' Hx. rewrite E in HS.
  eapply neighbours_no_member; [exact HS|]. rewrite <- E.
  apply sorted_boundaries_In. exists (snd nt'). split; [|assumption].
  now apply in_map.
Qed.

Lemma neighbours_lt (pre post : list Z) (s n : Z) :
  StronglySorted Z.lt (pre ++ s :: n :: post) -> (s < n)%Z.
Proof.
  induction pre as [|y pre IH]; simpl; intros HS;
    apply StronglySorted_inv in HS as [HS Hs]; [|auto].
  apply Forall_inv in Hs. exact Hs.
Qed.

Lemma segments_between_nonempty (tables0 : list (string * table))
    (out : list segment) :
  segments_between (sorted_boundaries (map snd tables0)) tables0 = Ok out ->
  Forall (fun seg => (seg_start seg <= seg_end seg)%Z) out.
Proof.
  intros Hout. apply Forall_forall. intros seg Hin.
  apply (segments_between_In _ _ seg Hout) in Hin
    as (pre & n & post & label & E & He & Hw).
  pose proof (sorted_boundaries_sorted (map snd tables0)) as HS.
  rewrite E in HS. apply neighbours_lt in HS. lia.
Qed.

(** *** The merged list of [main] *)

Lemma StronglySorted_lt_le (bs : list Z) :
  StronglySorted Z.lt bs -> Sorted Z.le bs.
Proof.
  intros HS. apply StronglySorted_Sorted.
  induction HS as [|x bs HS IH Hx]; constructor; [assumption|].
  eapply Forall_impl; [|exact Hx]. intros y Hy; cbv beta in *; lia.
Qed.

Lemma Forall2_tracks_refl (tables0 : list (string * table)) (q : Z) :
  Forall (fun nt => finalized (snd nt)) tables0 ->
  Forall2 (tracks q) tables0 tables0.
Proof.
  induction 1 as [|nt l Hnt Hl IH]; constructor; [|assumption].
  now apply finalized_tracks.
Qed.

(** On finalized tables the sweep loop, cursors and all, computes the
    segments between the boundaries. *)
Lemma merge_as_segments (latlong_sources country_sources : dict table) :
  Forall (fun nt => finalized (snd nt)) (latlong_sources ++ country_sources) ->
  merge latlong_name_set merge_cfg latlong_sources country_sources
  = (output <- segments_between
                 (sorted_boundaries (map snd (latlong_sources ++ country_sources)))
                 (latlong_sources ++ country_sources) ;;
     Ok (coalesce output)).
Proof.
  intros Hfin. unfold merge.
  set (tables0 := latlong_sources ++ country_sources) in *.
  set (bs := sorted_boundaries (map snd tables0)).
  rewrite (@process_segments_stateless tables0 bs
             (StronglySorted_lt_le (sorted_boundaries_sorted _))
             (match bs with [] => 0%Z | b :: _ => b end) tables0 []
             (HdRel_self bs) (Forall2_tracks_refl _ Hfin)).
  destruct (segments_between bs tables0); reflexivity.
Qed.

(** X9. Every written range is right at each of its addresses: when the
    tables are finalized and [main] reaches the merged list, every point
    [p] of every merged segment [(start, end, c, lat, lon)] is a point at
    which [pick_winner], given what the sources say at [p], returns
    [(c, lat, lon, _)]. *)
Theorem merge_sound (latlong_sources country_sources : dict table)
    (merged : list segment) (seg : segment) (p : Z) :
  Forall (fun nt => finalized (snd nt)) (latlong_sources ++ country_sources) ->
  merge latlong_name_set merge_cfg latlong_sources country_sources = Ok merged ->
  In seg merged -> covers seg p ->
  decided_at (latlong_sources ++ country_sources) p
             (seg_country seg) (seg_lat seg) (seg_lon seg).
Proof.
  intros Hfin Hm Hin Hp. rewrite merge_as_segments in Hm by assumption.
  apply bind_Ok in Hm as (output & Hout & [= <-]).
  assert (Hc : covered (coalesce output) p (seg_country seg) (seg_lat seg)
                       (seg_lon seg)) by (exists seg; auto).
  apply coalesce_sound in Hc as (s & Hs & Hcov & <- & <- & <-).
  exact (proj2 (@segments_between_sound _ _ _ _ Hout Hs Hcov)).
Qed.

(** X10. No decided address is left out: when the tables are finalized and
    [main] reaches the merged list, every point [p] at which [pick_winner],
    given what the sources say at [p], returns [(c, lat, lon, _)] lies in a
    merged segment with these values. *)
Theorem merge_complete (latlong_sources country_sources : dict table)
    (merged : list segment) (p : Z) (c lat lon : string) :
  Forall (fun nt => finalized (snd nt)) (latlong_sources ++ country_sources) ->
  merge latlong_name_set merge_cfg latlong_sources country_sources = Ok merged ->
  decided_at (latlong_sources ++ country_sources) p c lat lon ->
  covered merged p c lat lon.
Proof.
  intros Hfin Hm Hd. rewrite merge_as_segments in Hm by assumption.
  apply bind_Ok in Hm as (output & Hout & [= <-]).
  apply coalesce_complete; [exact (@segments_between_nonempty _ _ Hout)|].
  destruct (@segments_between_complete _ _ _ _ _ _ Hout Hd) as (s & Hs & Hcov & _ & Hv).
  exists s. auto.
Qed.

(** *** The shape of the output, for any tables *)

Lemma process_segments_ascending (bs : list Z) :
  StronglySorted Z.lt bs ->
  forall tables output output',
    process_segments latlong_name_set merge_cfg bs tables output = Ok output' ->
    exists new,
      output' = output ++ new /\ Forall nonempty new /\
      StronglySorted seg_before new /\
      Forall (fun s => forall b, hd_error bs = Some b -> (b <= seg_start s)%Z) new.
Proof.
  induction 1 as [|start bs HS IH Hstart]; intros tables output output' H.
  - injection H as <-. exists []. rewrite app_nil_r. repeat constructor.
  - destruct bs as [|next bs'].
    + injection H as <-. exists []. rewrite app_nil_r. repeat constructor.
    + rewrite process_segments_cons in H.
      apply Forall_inv in Hstart as Hlt.
      destruct (query_all tables start [] false) as [[all_data any_data] tables'].
      assert (Hskip : forall out,
                 process_segments latlong_name_set merge_cfg (next :: bs') tables' out
                 = Ok output' ->
                 exists new,
                   output' = out ++ new /\ Forall nonempty new /\
                   StronglySorted seg_before new /\
                   Forall (fun s => forall b, hd_error (start :: next :: bs') = Some b ->
                                              (b <= seg_start s)%Z) new).
      { intros out Hout. destruct (IH _ _ _ Hout) as (new & E & Hne & Hasc & Hlo).
        exists new. repeat split; try assumption.
        eapply Forall_impl; [|exact Hlo]. intros s Hs b [= <-].
        specialize (Hs next eq_refl). lia. }
      destruct any_data; [|now apply Hskip].
      apply bind_Ok in H as (result & _ & H).
      destruct result as [[[[country lat] lon] label]|]; [|now apply Hskip].
      destruct (IH _ _ _ H) as (new & E & Hne & Hasc & Hlo).
      exists (mk_segment start (next - 1) country lat lon :: new).
      rewrite E, <- app_assoc. repeat split.
      * constructor; [unfold nonempty; simpl; lia | assumption].
      * constructor; [assumption|].
        eapply Forall_impl; [|exact Hlo]. intros s Hs.
        specialize (Hs next eq_refl). unfold seg_before; simpl. lia.
      * constructor; [intros b [= <-]; simpl; lia|].
        eapply Forall_impl; [|exact Hlo]. intros s Hs b [= <-].
        specialize (Hs next eq_refl). lia.
Qed.

(** X8. The merged list is well formed for any tables: every segment has
    [start <= end], and the segments are in ascending order without a
    common point (each ends before every later one starts). *)
Theorem merge_ascending (latlong_sources country_sources : dict table)
    (merged : list segment) :
  merge latlong_name_set merge_cfg latlong_sources country_sources = Ok merged ->
  Forall nonempty merged /\ StronglySorted seg_before merged.
Proof.
  unfold merge. intros H. apply bind_Ok in H as (output & Hout & [= <-]).
  apply (process_segments_ascending (sorted_boundaries_sorted _)) in Hout
    as (new & E & Hne & Hasc & _).
  simpl in E. subst output. now apply coalesce_ascending.
Qed.

(** *** [all_data] is a dict *)

Lemma query_all_keys (tables : list (string * table)) (start : Z) :
  forall all_data any_data,
    is_dict all_data ->
    is_dict (fst (fst (query_all tables start all_data any_data))) /\
    forall name,
      In name (map fst (fst (fst (query_all tables start all_data any_data))))
      <-> In name (map fst all_data) \/ In name (map fst tables).
Proof.
  induction tables as [|[name tbl] tables IH]; intros all_data any_data Hd.
  - simpl. split; [assumption | tauto].
  - cbn [query_all].
    destruct (RangeTable.sweep tbl start) as [val tbl'].
    specialize (IH (dict_set all_data name val)
                   (match val with Some _ => true | None => any_data end)
                   (dict_set_is_dict _ _ Hd)).
    destruct (query_all tables start (dict_set all_data name val) _)
      as [[all_data' any_data'] rest].
    simpl in *. destruct IH as [IH1 IH2]. split; [assumption|].
    intros k. rewrite IH2, dict_set_keys.
    destruct (in_dec string_dec name (map fst all_data)) as [Hin|Hnin].
    + split; [tauto|]. intros [H|[<-|H]]; auto.
    + rewrite in_app_iff; simpl. tauto.
Qed.

(** X11. The observations [main] hands to [pick_winner] form a dict whose
    keys are the names of the tables: each name once, also when a name is
    listed both as a latlong and as a country source. *)
Theorem query_all_is_dict (tables : list (string * table)) (start : Z) :
  is_dict (fst (fst (query_all tables start [] false))) /\
  forall name,
    In name (map fst (fst (fst (query_all tables start [] false))))
    <-> In name (map fst tables).
Proof.
  destruct (@query_all_keys tables start [] false (NoDup_nil _)) as [H1 H2].
  split; [assumption|]. intros name. rewrite H2. simpl. tauto.
Qed.

End MergeLoop.

(** *** Worked inputs *)

Section MergeLoopExamples.

Lemma coalesce_preserves_coverage_witness :
  covered (coalesce three_segments) 600 "FR" "48.8" "2.3"
  <-> covered three_segments 600 "FR" "48.8" "2.3".
Proof.
  apply (@coalesce_preserves_coverage three_segments 600 "FR" "48.8" "2.3").
  repeat constructor; unfold nonempty; simpl; lia.
Defined.

(** A latlong source with FR on [0x100, 0x200) and a country source with
    DE on [0x180, 0x280): three segments, of which the first two carry the
    same value. *)
Definition latlong_a : dict table :=
  [("A", loaded [(256%Z, 512%Z, WithCoords "FR" "48.8" "2.3")])].

Definition country_c : dict table :=
  [("c1", loaded [(384%Z, 640%Z, CountryOnly "DE")])].

Lemma latlong_a_country_c_finalized :
  Forall (fun nt => finalized (snd nt)) (latlong_a ++ country_c).
Proof. repeat constructor; eexists; reflexivity. Qed.

Lemma latlong_a_country_c_merged :
  merge ["A"] (config (Some ["A"]) [] []) latlong_a country_c
  = Ok [mk_segment 256 511 "FR" "48.8" "2.3"; mk_segment 512 639 "DE" "0" "0"].
Proof. reflexivity. Qed.

Lemma merge_ascending_witness :
  Forall nonempty
    [mk_segment 256 511 "FR" "48.8" "2.3"; mk_segment 512 639 "DE" "0" "0"]
  /\ StronglySorted seg_before
       [mk_segment 256 511 "FR" "48.8" "2.3"; mk_segment 512 639 "DE" "0" "0"].
Proof.
  apply (@merge_ascending Float64.binary64 ["A"] (config (Some ["A"]) [] [])
           latlong_a country_c).
  exact latlong_a_country_c_merged.
Defined.

Lemma merge_sound_witness :
  decided_at ["A"] (config (Some ["A"]) [] []) (latlong_a ++ country_c)
             400 "FR" "48.8" "2.3".
Proof.
  apply (@merge_sound Float64.binary64 ["A"] (config (Some ["A"]) [] [])
           latlong_a country_c
           [mk_segment 256 511 "FR" "48.8" "2.3"; mk_segment 512 639 "DE" "0" "0"]
           (mk_segment 256 511 "FR" "48.8" "2.3") 400).
  - exact latlong_a_country_c_finalized.
  - exact latlong_a_country_c_merged.
  - now left.
  - unfold covers; simpl; lia.
Defined.

Lemma merge_complete_witness :
  covered [mk_segment 256 511 "FR" "48.8" "2.3"; mk_segment 512 639 "DE" "0" "0"]
          600 "DE" "0" "0".
Proof.
  apply (@merge_complete Float64.binary64 ["A"] (config (Some ["A"]) [] [])
           latlong_a country_c
           [mk_segment 256 511 "FR" "48.8" "2.3"; mk_segment 512 639 "DE" "0" "0"]
           600 "DE" "0" "0").
  - exact latlong_a_country_c_finalized.
  - exact latlong_a_country_c_merged.
  - exists "no_coords". reflexivity.
Defined.

End MergeLoopExamples.

(** ** Resolver: where the coordinates come from *)

Section CoordinateOrigin.

Context {PF : PyFloat}.

Lemma entry_at (named_ll : list (string * payload)) (i : nat)
    (lat lon name : string) :
  (e <- list_getitem named_ll i ;; entry_coords e) = Ok (lat, lon, name) ->
  exists data,
    nth_error named_ll i = Some (name, data) /\
    payload_getitem data 1 = Ok lat /\ payload_getitem data 2 = Ok lon.
Proof.
  intros H. apply bind_Ok in H as ([name' data] & He & H).
  unfold list_getitem in He.
  destruct (nth_error named_ll i) as [e|] eqn:Hn; [|discriminate].
  injection He as ->. unfold entry_coords in H.
  apply bind_Ok in H as (la & Hla & H). apply bind_Ok in H as (lo & Hlo & H).
  injection H as <- <- <-. exists data. auto.
Qed.

Lemma pick_center_coords_index (named_ll : list (string * payload))
    (threshold : F) (r : string * string * string) :
  pick_center_coords named_ll threshold = Ok r ->
  exists i,
    (e <- list_getitem named_ll i ;; entry_coords e) = Ok r /\
    (List.length named_ll < 3 -> i = 0).
Proof.
  unfold pick_center_coords. intros H.
  destruct (Nat.ltb_spec (List.length named_ll) 3) as [Hlen|Hlen];
    [exists 0; auto|].
  apply bind_Ok in H as (coords & _ & H).
  apply bind_Ok in H as (max_dist & _ & H).
  destruct (fle max_dist threshold); [exists 0; auto|].
  apply bind_Ok in H as (best & _ & H).
  exists best. split; [assumption | lia].
Qed.

(** X12. Whatever the float arithmetic and whatever the coordinate
    strings, a result [(lat, lon, name)] of the center picker is one entry
    of its argument: [name] is the entry's name and [lat], [lon] are items 1
    and 2 of the same entry's data; with fewer than three entries it is the
    first entry. *)
Theorem pick_center_coords_from_entry (named_ll : list (string * payload))
    (threshold : F) (lat lon name : string) :
  pick_center_coords named_ll threshold = Ok (lat, lon, name) ->
  exists i data,
    nth_error named_ll i = Some (name, data) /\
    payload_getitem data 1 = Ok lat /\ payload_getitem data 2 = Ok lon /\
    (List.length named_ll < 3 -> i = 0).
Proof.
  intros H. apply pick_center_coords_index in H as (i & H & Hi).
  apply entry_at in H as (data & H1 & H2 & H3).
  exists i, data. auto.
Qed.

Variable all_data : dict (option payload).
Variable latlong_names : list string.
Variable cfg : merge_config.

Local Abbreviation cp := (coord_priority_list latlong_names cfg).
Local Abbreviation avail := (available_ll all_data latlong_names cfg).
Local Abbreviation winner := (pick_winner all_data latlong_names cfg).
Local Abbreviation find_c := (find_coords all_data latlong_names cfg).

(** [src] is a source of the coordinate priority list that reports country
    [c] with coordinates [(lat, lon)]; [label] ends in its name. *)
Definition coords_of_source (c lat lon label : string) : Prop :=
  exists src data pre,
    In src cp /\ get_obs all_data src = Some data /\
    payload_getitem data 0 = Ok c /\
    payload_getitem data 1 = Ok lat /\ payload_getitem data 2 = Ok lon /\
    label = (pre ++ "->" ++ src)%string.

Lemma find_coords_source (c lat lon src pre : string) :
  find_c c = Some (lat, lon, src) ->
  coords_of_source c lat lon (pre ++ "->" ++ src)%string.
Proof.
  intros H. apply find_coords_Some in H as (before & after & Hcp & Hobs & _).
  exists src, (WithCoords c lat lon), pre. repeat split; try assumption.
  rewrite Hcp. apply in_elt.
Qed.

Lemma walk_overrides_source (rules : list (list string))
    (c lat lon label : string) :
  walk_overrides all_data latlong_names cfg rules = Some (c, lat, lon, label) ->
  coords_of_source c lat lon label.
Proof.
  induction rules as [|rule rules IH]; simpl; [discriminate|].
  destruct (match_countries all_data rule) as [[|mc0 mc]|]; try exact IH.
  destruct (distinct (mc0 :: mc) =? 1); [|exact IH].
  destruct (find_c mc0) as [[[la lo] src]|] eqn:E; [|exact IH].
  intros [= <- <- <- <-]. now apply find_coords_source.
Qed.

Lemma walk_vote_priority_source (tied names : list string)
    (c lat lon label : string) :
  walk_vote_priority all_data latlong_names cfg tied names
  = Some (c, lat, lon, label) ->
  coords_of_source c lat lon label.
Proof.
  induction names as [|x names IH]; simpl; [discriminate|].
  destruct (dict_get (countries all_data) x) as [cx|]; [|exact IH].
  destruct (mem cx tied); [|exact IH].
  destruct (find_c cx) as [[[la lo] src]|] eqn:E; [|exact IH].
  intros [= <- <- <- <-]. now apply (@find_coords_source cx la lo src "vote").
Qed.

Lemma walk_top_source (top : list (string * nat)) (c lat lon label : string) :
  walk_top all_data latlong_names cfg top = Some (c, lat, lon, label) ->
  coords_of_source c lat lon label.
Proof.
  induction top as [|[c0 k] top IH]; simpl; [discriminate|].
  destruct (find_c c0) as [[[la lo] src]|] eqn:E; [|exact IH].
  intros [= <- <- <- <-]. now apply (@find_coords_source c0 la lo src "vote").
Qed.

(** X13. The coordinates of a decision are never mixed or made up: a
    decision [(c, lat, lon, label)] of [pick_winner] either has the
    placeholder coordinates ["0"], ["0"] (labels [no_coords], [no_match]),
    or [lat] and [lon] are the coordinates of one source of the coordinate
    priority list whose own country is [c], and [label] ends in [->] and
    that source's name. *)
Theorem pick_winner_coords_from_source (c lat lon label : string) :
  winner = Ok (Some (c, lat, lon, label)) ->
  (lat = "0" /\ lon = "0" /\ (label = "no_coords" \/ label = "no_match"))
  \/ coords_of_source c lat lon label.
Proof.
  intros H.
  assert (Hne : countries all_data <> []).
  { intros E. unfold pick_winner in H. rewrite E in H. discriminate. }
  destruct (center_call_cases all_data latlong_names cfg) as [[Hu _]|[Hnu _]].
  - right. pose proof Hu as [Hlen Hd].
    destruct avail as [|[n0 d0] rest] eqn:Ea; [simpl in Hlen; lia|].
    assert (Hall : forall e, In e avail -> item0 (snd e) = item0 d0).
    { rewrite Ea. intros e He.
      assert (Hone : distinct (map (fun e => item0 (snd e)) ((n0, d0) :: rest)) = 1
                     /\ In (item0 d0) (map (fun e => item0 (snd e)) ((n0, d0) :: rest)))
        by (split; [exact Hd | now left]).
      apply distinct_one in Hone as [_ Hone]. apply Hone.
      now apply (in_map (fun e => item0 (snd e))). }
    rewrite (pick_winner_unanimous Hu Hall) in H.
    apply bind_Ok in H as ([[la lo] src] & Hpick & H).
    injection H as <- <- <- <-. simpl.
    apply pick_center_coords_index in Hpick as (i & Hpick & _).
    apply entry_at in Hpick as (data & Hin & H1 & H2).
    apply nth_error_In in Hin.
    pose proof (Hall _ Hin) as Hc. simpl in Hc.
    apply available_ll_In in Hin as (Hcp & _ & Hobs & Ht).
    exists src, data, "unanimous". repeat split; try assumption.
    rewrite <- Hc. now apply truthy_item0.
  - rewrite (pick_winner_not_unanimous Hne Hnu) in H.
    destruct (walk_overrides all_data latlong_names cfg (overrides cfg))
      as [d|] eqn:Ew.
    + injection H as ->. right. now apply (walk_overrides_source _ Ew).
    + unfold vote_steps in H.
      destruct (coord_sources all_data latlong_names cfg) as [|cs css].
      * apply bind_Ok in H as (t & _ & H). injection H as <- <- <- <-. auto.
      * destruct (if top_two_tied (most_common (votes all_data))
                  then walk_vote_priority all_data latlong_names cfg
                         (tied_set (most_common (votes all_data)))
                         (vote_priority cfg)
                  else None) as [d|] eqn:Ev.
        -- injection H as ->. right.
           destruct (top_two_tied (most_common (votes all_data))); [|discriminate].
           now apply (walk_vote_priority_source _ _ Ev).
        -- destruct (walk_top all_data latlong_names cfg
                       (most_common (votes all_data))) as [d|] eqn:Et.
           ++ injection H as ->. right. now apply (walk_top_source _ Et).
           ++ apply bind_Ok in H as (t & _ & H). injection H as <- <- <- <-. auto.
Qed.

End CoordinateOrigin.

(** ** Resolver: sources without data *)

Section SameObservations.

Context {PF : PyFloat}.

Variable latlong_names : list string.
Variable cfg : merge_config.

(** Two dicts of observations that agree on the collected countries and on
    what [all_data.get(name)] returns. *)
Variables d1 d2 : dict (option payload).
Hypothesis same_countries : countries d1 = countries d2.
Hypothesis same_obs : forall name, get_obs d1 name = get_obs d2 name.

Lemma coord_sources_ext :
  coord_sources d1 latlong_names cfg = coord_sources d2 latlong_names cfg.
Proof.
  unfold coord_sources. apply flat_map_ext. intros name. now rewrite same_obs.
Qed.

Lemma find_coords_ext (c : string) :
  find_coords d1 latlong_names cfg c = find_coords d2 latlong_names cfg c.
Proof. unfold find_coords. now rewrite coord_sources_ext. Qed.

Lemma available_ll_ext :
  available_ll d1 latlong_names cfg = available_ll d2 latlong_names cfg.
Proof.
  unfold available_ll. apply flat_map_ext. intros name. now rewrite same_obs.
Qed.

Lemma match_countries_ext (rule : list string) :
  match_countries d1 rule = match_countries d2 rule.
Proof.
  induction rule as [|s rule IH]; simpl; [reflexivity|].
  now rewrite same_countries, IH.
Qed.

Lemma walk_overrides_ext (rules : list (list string)) :
  walk_overrides d1 latlong_names cfg rules
  = walk_overrides d2 latlong_names cfg rules.
Proof.
  induction rules as [|r rules IH]; simpl; [reflexivity|].
  rewrite IH, match_countries_ext.
  destruct (match_countries d2 r) as [[|c mc]|]; try reflexivity.
  now rewrite find_coords_ext.
Qed.

Lemma walk_vote_priority_ext (tied names : list string) :
  walk_vote_priority d1 latlong_names cfg tied names
  = walk_vote_priority d2 latlong_names cfg tied names.
Proof.
  induction names as [|x names IH]; simpl; [reflexivity|].
  rewrite IH, same_countries.
  destruct (dict_get (countries d2) x); [|reflexivity].
  now rewrite find_coords_ext.
Qed.

Lemma walk_top_ext (top : list (string * nat)) :
  walk_top d1 latlong_names cfg top = walk_top d2 latlong_names cfg top.
Proof.
  induction top as [|[c k] top IH]; simpl; [reflexivity|].
  now rewrite IH, find_coords_ext.
Qed.

Lemma vote_steps_ext :
  vote_steps d1 latlong_names cfg = vote_steps d2 latlong_names cfg.
Proof.
  unfold vote_steps, votes.
  now rewrite coord_sources_ext, walk_vote_priority_ext, walk_top_ext,
    same_countries.
Qed.

Lemma pick_winner_ext :
  pick_winner d1 latlong_names cfg = pick_winner d2 latlong_names cfg.
Proof.
  unfold pick_winner, center_call, ll_country_list.
  now rewrite available_ll_ext, walk_overrides_ext, vote_steps_ext,
    same_countries.
Qed.

End SameObservations.

Section AbsentSources.

Context {PF : PyFloat}.

(** The entries of the sources that have data. *)
Definition with_data (all_data : dict (option payload)) : dict (option payload) :=
  filter (fun item => match snd item with Some _ => true | None => false end)
         all_data.

Lemma countries_with_data (all_data : dict (option payload)) :
  countries (with_data all_data) = countries all_data.
Proof.
  unfold countries. generalize (@nil (string * string)).
  induction all_data as [|[k [d|]] l IH]; intros acc; simpl; auto.
Qed.

Lemma with_data_keys (all_data : dict (option payload)) (k : string) :
  In k (map fst (with_data all_data)) -> In k (map fst all_data).
Proof.
  unfold with_data. rewrite !in_map_iff. intros (item & E & Hin).
  apply filter_In in Hin as [Hin _]. eauto.
Qed.

Lemma get_obs_with_data (all_data : dict (option payload)) (name : string) :
  is_dict all_data -> get_obs (with_data all_data) name = get_obs all_data name.
Proof.
  unfold is_dict, get_obs.
  induction all_data as [|[k o] l IH]; intros Hd; simpl; [reflexivity|].
  apply NoDup_cons_iff in Hd as [Hk Hd].
  destruct o as [d|]; simpl.
  - destruct (String.eqb name k); [reflexivity | now apply IH].
  - destruct (String.eqb_spec name k) as [->|Hne]; [|now apply IH].
    replace (dict_get (with_data l) k) with (@None (option payload));
      [reflexivity|].
    symmetry. apply dict_get_None. intros H. apply Hk.
    now apply with_data_keys.
Qed.

(** X14. A source without data at a point counts for nothing: for a dict of
    observations, the resolver returns the same on the dict and on the dict
    without its [None] entries. *)
Theorem pick_winner_ignores_none (all_data : dict (option payload))
    (latlong_names : list string) (cfg : merge_config) :
  is_dict all_data ->
  pick_winner (with_data all_data) latlong_names cfg
  = pick_winner all_data latlong_names cfg.
Proof.
  intros Hd. apply pick_winner_ext.
  - apply countries_with_data.
  - intros name. now apply get_obs_with_data.
Qed.

End AbsentSources.

(** *** Worked inputs *)

Section ResolverOriginExamples.

(** A latlong source with data, a latlong source and a country source
    without. *)
Definition one_of_three : dict (option payload) :=
  [("A", None); ("B", Some (WithCoords "FR" "48.8" "2.3")); ("c1", None)].

Lemma pick_center_coords_from_entry_witness :
  exists i data,
    nth_error (map tuple_entry three_entries) i = Some ("b", data) /\
    payload_getitem data 1 = Ok "3" /\ payload_getitem data 2 = Ok "4" /\
    (List.length (map tuple_entry three_entries) < 3 -> i = 0).
Proof.
  apply (@pick_center_coords_from_entry Float64.binary64
           (map tuple_entry three_entries) (of_int 2) "3" "4" "b").
  reflexivity.
Defined.

Lemma pick_winner_coords_from_source_witness :
  ("48.8" = "0" /\ "2.3" = "0" /\ ("vote->B" = "no_coords" \/ "vote->B" = "no_match"))
  \/ coords_of_source one_of_three ["A"; "B"] (config (Some ["A"; "B"]) [] [])
       "FR" "48.8" "2.3" "vote->B".
Proof.
  apply (@pick_winner_coords_from_source Float64.binary64 one_of_three
           ["A"; "B"] (config (Some ["A"; "B"]) [] []) "FR" "48.8" "2.3" "vote->B").
  reflexivity.
Defined.

Lemma pick_winner_ignores_none_witness :
  pick_winner (with_data one_of_three) ["A"; "B"] (config (Some ["A"; "B"]) [] [])
  = pick_winner one_of_three ["A"; "B"] (config (Some ["A"; "B"]) [] []).
Proof.
  apply (@pick_winner_ignores_none Float64.binary64 one_of_three ["A"; "B"]
           (config (Some ["A"; "B"]) [] [])).
  repeat constructor; simpl; intuition discriminate.
Defined.

End ResolverOriginExamples.


(** ** Conversion helpers: hexadecimal text *)

Section HexText.

  Local Abbreviation digits_of := HexadecimalString.NilEmpty.string_of_uint.

Lemma scan_digits_digit (c : ascii) (s : string) (acc v : Z) (n : nat) :
  Ascii.eqb c "_" = false -> hex_digit c = Some v ->
  scan_digits (String c s) false acc n
  = scan_digits s false (16 * acc + v)%Z (S n).
Proof. intros H1 H2. cbn [scan_digits]. now rewrite H1, H2. Qed.

Ltac digit_value :=
  match goal with
  | |- context [Z.of_nat ?t] =>
      let v := eval vm_compute in (Z.of_nat t) in change (Z.of_nat t) with v
  end.

(** The scan over the digits of a numeral is the accumulation the standard
    library reads numerals with. *)
Lemma scan_digits_acc (d : Hexadecimal.uint) :
  forall (acc : positive) (n : nat),
    scan_digits (digits_of d) false (Z.pos acc) n
    = Some (Z.pos (Pos.of_hex_uint_acc d acc),
            n + String.length (digits_of d), EmptyString).
Proof.
  induction d; intros acc n;
    cbn [HexadecimalString.NilEmpty.string_of_uint Pos.of_hex_uint_acc String.length];
    try (cbn [scan_digits]; now rewrite Nat.add_0_r);
    erewrite scan_digits_digit by reflexivity;
    digit_value;
    match goal with
    | |- scan_digits _ false ?a _ = Some (Z.pos (Pos.of_hex_uint_acc _ ?p), _, _) =>
        replace a with (Z.pos p) by lia
    end;
    rewrite IHd; now rewrite Nat.add_succ_r.
Qed.

Lemma scan_digits_zero (d : Hexadecimal.uint) :
  forall n : nat,
    scan_digits (digits_of d) false 0 n
    = Some (Z.of_N (Pos.of_hex_uint d),
            n + String.length (digits_of d), EmptyString).
Proof.
  induction d; intros n;
    cbn [HexadecimalString.NilEmpty.string_of_uint Pos.of_hex_uint String.length];
    try (cbn [scan_digits]; now rewrite Nat.add_0_r);
    erewrite scan_digits_digit by reflexivity;
    digit_value;
    first [ rewrite IHd; now rewrite Nat.add_succ_r
          | cbn [Z.mul Z.add Z.of_N]; rewrite scan_digits_acc;
            now rewrite Nat.add_succ_r ].
Qed.

(** The text of a numeral is ASCII. *)
Lemma digits_ascii (d : Hexadecimal.uint) : all_ascii (digits_of d) = true.
Proof. induction d; simpl; auto. Qed.

Lemma to_ascii_digits (d : Hexadecimal.uint) :
  to_ascii (digits_of d) = digits_of d
  /\ to_ascii (String "-" (digits_of d)) = String "-" (digits_of d).
Proof.
  unfold to_ascii. cbn [all_ascii]. rewrite digits_ascii. split; reflexivity.
Qed.

Lemma int_base16_uint (d : Hexadecimal.uint) :
  d <> Hexadecimal.Nil ->
  int_base16 (digits_of d) = Ok (Z.of_N (Pos.of_hex_uint d))
  /\ int_base16 (String "-" (digits_of d)) = Ok (- Z.of_N (Pos.of_hex_uint d))%Z.
Proof.
  intros Hd. unfold int_base16.
  destruct (to_ascii_digits d) as [-> ->].
  destruct d as [|d|d|d|d|d|d|d|d|d|d|d|d|d|d|d|d]; [contradiction|..].
  1: destruct d as [|d|d|d|d|d|d|d|d|d|d|d|d|d|d|d|d]; [split; reflexivity|..].
  all: split; simpl;
    first [rewrite scan_digits_acc | rewrite scan_digits_zero]; reflexivity.
Qed.

Lemma to_hex_uint_not_nil (p : positive) : Pos.to_hex_uint p <> Hexadecimal.Nil.
Proof.
  intros E. pose proof (HexadecimalPos.Unsigned.of_to p) as H.
  rewrite E in H. discriminate.
Qed.

Lemma hex_text_read (n : Z) : hex_to_int (int_to_hex n) = Ok n.
Proof.
  unfold hex_to_int, int_to_hex. destruct n as [|p|p].
  - reflexivity.
  - cbn [Z.to_hex_int HexadecimalString.NilZero.string_of_int].
    pose proof (to_hex_uint_not_nil p) as Hp.
    destruct (int_base16_uint Hp) as [H _].
    unfold HexadecimalString.NilZero.string_of_uint.
    destruct (Pos.to_hex_uint p) eqn:E; try contradiction;
      rewrite H, <- E, HexadecimalPos.Unsigned.of_to; reflexivity.
  - cbn [Z.to_hex_int HexadecimalString.NilZero.string_of_int].
    pose proof (to_hex_uint_not_nil p) as Hp.
    destruct (int_base16_uint Hp) as [_ H].
    unfold HexadecimalString.NilZero.string_of_uint.
    destruct (Pos.to_hex_uint p) eqn:E; try contradiction;
      rewrite H, <- E, HexadecimalPos.Unsigned.of_to; reflexivity.
Qed.

(** X15. Reading back what [int_to_hex] writes gives the number again, for
    every integer, negative ones included; so two numbers never share a
    text. *)
Theorem hex_round_trip :
  (forall n : Z, hex_to_int (int_to_hex n) = Ok n)
  /\ (forall n m : Z, int_to_hex n = int_to_hex m -> n = m).
Proof.
  split; [exact hex_text_read|].
  intros n m E. pose proof (hex_text_read n) as Hn.
  rewrite E, hex_text_read in Hn. now injection Hn.
Qed.

End HexText.

(** ** File loaders *)

Section Loaders.

  Local Abbreviation record := (Z * Z * payload)%type.

Lemma of_records_snoc (recs : list record) (r : record) :
  RangeTable.of_records (recs ++ [r])
  = RangeTable.add (RangeTable.of_records recs) (fst (fst r)) (snd (fst r)) (snd r).
Proof. unfold RangeTable.of_records. now rewrite fold_left_app. Qed.

Lemma add_latlong_line_cases (lat_col long_col : Z) (tbl : RangeTable.t payload)
    (line : string) :
  add_latlong_line lat_col long_col tbl line = tbl
  \/ exists r, add_latlong_line lat_col long_col tbl line
               = RangeTable.add tbl (fst (fst r)) (snd (fst r)) (snd r).
Proof.
  unfold add_latlong_line.
  destruct (_ <? _)%Z; [|now left].
  destruct (list_getitem_int _ 0) as [p0|]; cbn [bind]; [|now left].
  destruct (hex_to_int p0) as [start|]; cbn [bind]; [|now left].
  destruct (list_getitem_int _ 1) as [p1|]; cbn [bind]; [|now left].
  destruct (hex_to_int p1) as [end_|]; cbn [bind]; [|now left].
  destruct (list_getitem_int _ 2) as [p2|]; cbn [bind]; [|now left].
  destruct (list_getitem_int _ lat_col) as [lat|]; cbn [bind]; [|now left].
  destruct (list_getitem_int _ long_col) as [lon|]; cbn [bind]; [|now left].
  right. now exists (start, (end_ + 1)%Z, WithCoords p2 lat lon).
Qed.

Lemma add_country_line_cases (tbl : RangeTable.t payload) (line : string) :
  add_country_line tbl line = tbl
  \/ exists r, add_country_line tbl line
               = RangeTable.add tbl (fst (fst r)) (snd (fst r)) (snd r).
Proof.
  unfold add_country_line.
  destruct (3 <=? _); [|now left].
  destruct (list_getitem_int _ 0) as [p0|]; cbn [bind]; [|now left].
  destruct (hex_to_int p0) as [start|]; cbn [bind]; [|now left].
  destruct (list_getitem_int _ 1) as [p1|]; cbn [bind]; [|now left].
  destruct (hex_to_int p1) as [end_|]; cbn [bind]; [|now left].
  destruct (list_getitem_int _ 2) as [p2|]; cbn [bind]; [|now left].
  right. now exists (start, (end_ + 1)%Z, CountryOnly p2).
Qed.

(** A loop that adds at most one record per line fills the table like a
    sequence of calls of [add]. *)
Lemma fold_lines_records
    (step : RangeTable.t payload -> string -> RangeTable.t payload)
    (lines : list string) :
  (forall tbl line,
      step tbl line = tbl
      \/ exists r, step tbl line
                   = RangeTable.add tbl (fst (fst r)) (snd (fst r)) (snd r)) ->
  forall recs,
  exists recs',
    fold_left step lines (RangeTable.of_records recs)
    = RangeTable.of_records (recs ++ recs').
Proof.
  intros Hstep. induction lines as [|line lines IH]; intros recs; simpl.
  - exists []. now rewrite app_nil_r.
  - destruct (Hstep (RangeTable.of_records recs) line) as [->|[r ->]].
    + apply IH.
    + rewrite <- of_records_snoc.
      destruct (IH (recs ++ [r])) as [recs' ->].
      exists (r :: recs'). now rewrite <- app_assoc.
Qed.

(** X16. A loader returns a table in the state the sweep needs: whatever
    the lines read from the file, and also when the file does not exist,
    the table of [load_latlong_tsv] and of [load_country_tsv] is a table
    filled by [add] and then finalized, with its cursor at the first row. *)
Theorem loaders_return_finalized (file : option (list string))
    (lat_col long_col : Z) :
  finalized (load_latlong_tsv file lat_col long_col)
  /\ finalized (load_country_tsv file).
Proof.
  unfold finalized, loaded, load_latlong_tsv, load_country_tsv.
  destruct file as [lines|]; [|split; exists []; reflexivity].
  split.
  - destruct (@fold_lines_records (add_latlong_line lat_col long_col) lines
                (add_latlong_line_cases lat_col long_col) []) as [recs E].
    exists recs. change (RangeTable.init payload) with (@RangeTable.of_records payload []).
    now rewrite E.
  - destruct (@fold_lines_records add_country_line lines
                add_country_line_cases []) as [recs E].
    exists recs. change (RangeTable.init payload) with (@RangeTable.of_records payload []).
    now rewrite E.
Qed.

(** *** Reading back the written output *)

(** The string has no character [c]. *)
Fixpoint without (c : ascii) (s : string) : Prop :=
  match s with
  | String c' s' => c' <> c /\ without c s'
  | EmptyString => True
  end.

(** A character a field may hold: ASCII, and none of tab, line feed and
    carriage return. *)
Definition field_char (c : ascii) : bool :=
  let n := nat_of_ascii c in
  (n <? 128) && negb ((n =? 9) || (n =? 10) || (n =? 13)).

Fixpoint field (s : string) : Prop :=
  match s with
  | String c s' => field_char c = true /\ field s'
  | EmptyString => True
  end.

(** What the loader needs of the three text fields of a written line:
    ASCII text without tab, line feed and carriage return, and a last
    field that is not empty and does not end in whitespace, so that
    [strip] takes the line feed only. *)
Definition reloadable (s : segment) : Prop :=
  field (seg_country s) /\ field (seg_lat s) /\ field (seg_lon s) /\
  seg_lon s <> EmptyString /\ rstrip (seg_lon s) = seg_lon s.

(** The three separators. *)
Definition separator (c : ascii) : Prop :=
  c = ascii_of_nat 9 \/ c = ascii_of_nat 10 \/ c = ascii_of_nat 13.

Lemma field_without (c : ascii) (s : string) :
  separator c -> field s -> without c s.
Proof.
  intros Hc. induction s as [|c' s IH]; simpl; [auto|].
  intros [Hc' Hs]. split; [|auto].
  intros ->. destruct Hc as [-> | [-> | ->]]; discriminate.
Qed.

Lemma without_append (c : ascii) (s t : string) :
  without c s -> without c t -> without c (s ++ t).
Proof. induction s as [|c' s IH]; simpl; [auto|]. intros [H1 H2] Ht. auto. Qed.

Lemma split_field (sep : ascii) (f rest : string) :
  without sep f ->
  split sep (f ++ String sep rest) = f :: split sep rest.
Proof.
  induction f as [|c f IH]; simpl.
  - intros _. now rewrite Ascii.eqb_refl.
  - intros [Hc Hf]. apply Ascii.eqb_neq in Hc. rewrite Hc.
    now rewrite (IH Hf).
Qed.

Lemma split_last (sep : ascii) (f : string) :
  without sep f -> split sep f = [f].
Proof.
  induction f as [|c f IH]; simpl; [reflexivity|].
  intros [Hc Hf]. apply Ascii.eqb_neq in Hc. rewrite Hc.
  now rewrite (IH Hf).
Qed.

Lemma rstrip_newline (s : string) : rstrip (s ++ newline) = rstrip s.
Proof.
  induction s as [|c s IH]; [reflexivity|].
  cbn [append rstrip]. now rewrite IH.
Qed.

Lemma rstrip_keep (s t : string) :
  rstrip t <> EmptyString ->
  rstrip (s ++ t) = (s ++ rstrip t)%string
  /\ (s ++ rstrip t)%string <> EmptyString.
Proof.
  intros Ht. induction s as [|c s [IH1 IH2]]; [now split|].
  cbn [append rstrip]. rewrite IH1.
  split; [|discriminate].
  destruct (s ++ rstrip t)%string; [contradiction | reflexivity].
Qed.

  Local Abbreviation digits_of := HexadecimalString.NilEmpty.string_of_uint.

Lemma digits_without (c : ascii) (d : Hexadecimal.uint) :
  separator c -> without c (digits_of d).
Proof.
  intros [-> | [-> | ->]]; induction d; simpl; auto;
    (split; [discriminate | assumption]).
Qed.

(** The text of a number starts with a digit or a minus sign and has no
    separator. *)
Lemma int_to_hex_plain (n : Z) :
  (forall c, separator c -> without c (int_to_hex n))
  /\ forall t, lstrip (int_to_hex n ++ t) = (int_to_hex n ++ t)%string.
Proof.
  unfold int_to_hex. destruct n as [|p|p].
  - split; [|reflexivity].
    intros c [-> | [-> | ->]]; simpl; (split; [discriminate | exact I]).
  - cbn [Z.to_hex_int HexadecimalString.NilZero.string_of_int].
    unfold HexadecimalString.NilZero.string_of_uint.
    pose proof (to_hex_uint_not_nil p) as Hp.
    pose proof (fun c => @digits_without c (Pos.to_hex_uint p)) as Hw.
    destruct (Pos.to_hex_uint p); try contradiction; (split; [exact Hw | reflexivity]).
  - cbn [Z.to_hex_int HexadecimalString.NilZero.string_of_int].
    unfold HexadecimalString.NilZero.string_of_uint.
    pose proof (to_hex_uint_not_nil p) as Hp.
    pose proof (fun c => @digits_without c (Pos.to_hex_uint p)) as Hw.
    split; [|reflexivity].
    intros c Hc. split; [destruct Hc as [-> | [-> | ->]]; discriminate|].
    destruct (Pos.to_hex_uint p); try contradiction; exact (Hw c Hc).
Qed.

Lemma tab_append (s : string) : (tab ++ s)%string = String (ascii_of_nat 9) s.
Proof. reflexivity. Qed.

(** [line.strip().split('\t')] on a written line. *)
Lemma write_line_parts (s : segment) :
  reloadable s ->
  split (ascii_of_nat 9) (strip (write_line s))
  = [int_to_hex (seg_start s); int_to_hex (seg_end s);
     seg_country s; seg_lat s; seg_lon s].
Proof.
  intros (Hc & Hla & Hlo & Hne & Hr).
  assert (Htab : separator (ascii_of_nat 9)) by now left.
  apply (@field_without _ _ Htab) in Hc, Hla, Hlo.
  destruct (int_to_hex_plain (seg_start s)) as [Hs1 Hs2].
  destruct (int_to_hex_plain (seg_end s)) as [He1 _].
  specialize (Hs1 _ Htab). specialize (He1 _ Htab).
  unfold strip, write_line. rewrite Hs2, !tab_append.
  assert (H5 : rstrip (seg_lon s ++ newline) <> EmptyString)
    by (rewrite rstrip_newline, Hr; exact Hne).
  destruct (@rstrip_keep (String (ascii_of_nat 9) EmptyString) _ H5) as [E4 H4].
  cbn [append] in E4, H4. rewrite <- E4 in H4.
  destruct (@rstrip_keep (seg_lat s) _ H4) as [E3 H3]. rewrite <- E3 in H3.
  destruct (@rstrip_keep (String (ascii_of_nat 9) EmptyString) _ H3) as [E2' H2'].
  cbn [append] in E2', H2'. rewrite <- E2' in H2'.
  destruct (@rstrip_keep (seg_country s) _ H2') as [E2 H2]. rewrite <- E2 in H2.
  destruct (@rstrip_keep (String (ascii_of_nat 9) EmptyString) _ H2) as [E1' H1'].
  cbn [append] in E1', H1'. rewrite <- E1' in H1'.
  destruct (@rstrip_keep (int_to_hex (seg_end s)) _ H1') as [E1 H1]. rewrite <- E1 in H1.
  destruct (@rstrip_keep (String (ascii_of_nat 9) EmptyString) _ H1) as [E0' H0'].
  cbn [append] in E0', H0'. rewrite <- E0' in H0'.
  destruct (@rstrip_keep (int_to_hex (seg_start s)) _ H0') as [E0 _].
  rewrite E0, E0', E1, E1', E2, E2', E3, E4, rstrip_newline, Hr.
  rewrite (@split_field _ _ _ Hs1), (@split_field _ _ _ He1), (@split_field _ _ _ Hc),
    (@split_field _ _ _ Hla), (@split_last _ _ Hlo).
  reflexivity.
Qed.

(** The record a written line is read as. *)
Definition as_record (s : segment) : record :=
  (seg_start s, (seg_end s + 1)%Z, WithCoords (seg_country s) (seg_lat s) (seg_lon s)).

Lemma add_written_line (tbl : RangeTable.t payload) (s : segment) :
  reloadable s ->
  add_latlong_line 3 4 tbl (write_line s)
  = RangeTable.add tbl (seg_start s) (seg_end s + 1)
      (WithCoords (seg_country s) (seg_lat s) (seg_lon s)).
Proof.
  intros Hs. unfold add_latlong_line. rewrite (write_line_parts Hs).
  cbn [List.length Z.max Z.of_nat]. simpl (_ <? _)%Z. cbv iota.
  change (list_getitem_int [int_to_hex (seg_start s); int_to_hex (seg_end s);
                            seg_country s; seg_lat s; seg_lon s] 0)
    with (Ok (int_to_hex (seg_start s))).
  change (list_getitem_int [int_to_hex (seg_start s); int_to_hex (seg_end s);
                            seg_country s; seg_lat s; seg_lon s] 1)
    with (Ok (int_to_hex (seg_end s))).
  change (list_getitem_int [int_to_hex (seg_start s); int_to_hex (seg_end s);
                            seg_country s; seg_lat s; seg_lon s] 2)
    with (Ok (seg_country s)).
  change (list_getitem_int [int_to_hex (seg_start s); int_to_hex (seg_end s);
                            seg_country s; seg_lat s; seg_lon s] 3)
    with (Ok (seg_lat s)).
  change (list_getitem_int [int_to_hex (seg_start s); int_to_hex (seg_end s);
                            seg_country s; seg_lat s; seg_lon s] 4)
    with (Ok (seg_lon s)).
  cbn [bind]. rewrite !hex_text_read. reflexivity.
Qed.

Lemma fold_written_lines (merged : list segment) :
  Forall reloadable merged ->
  forall recs,
    fold_left (add_latlong_line 3 4) (map write_line merged)
              (RangeTable.of_records recs)
    = RangeTable.of_records (recs ++ map as_record merged).
Proof.
  induction 1 as [|s merged Hs _ IH]; intros recs; simpl.
  - now rewrite app_nil_r.
  - rewrite (add_written_line _ Hs).
    change (RangeTable.add (RangeTable.of_records recs) (seg_start s)
              (seg_end s + 1) (WithCoords (seg_country s) (seg_lat s) (seg_lon s)))
      with (RangeTable.add (RangeTable.of_records recs) (fst (fst (as_record s)))
              (snd (fst (as_record s))) (snd (as_record s))).
    rewrite <- of_records_snoc, IH, <- app_assoc. reflexivity.
Qed.

(** Sorting rows whose starts ascend strictly changes nothing. *)
Lemma sorted_ascending (L : list record) :
  StronglySorted (fun a b => (fst (fst a) < fst (fst b))%Z) L ->
  RangeTable.sorted payload_lt L = L.
Proof.
  induction 1 as [|x L HS IH Hx]; simpl; [reflexivity|].
  rewrite IH. destruct L as [|y L]; [reflexivity|]. simpl.
  apply Forall_inv in Hx.
  destruct x as [[s1 e1] d1], y as [[s2 e2] d2]; simpl in *.
  destruct (Z.eqb_spec s2 s1); [lia|]. simpl.
  destruct (Z.ltb_spec s2 s1); [lia | reflexivity].
Qed.

(** *** The lines of the written text *)

Lemma universal_newlines_plain (s : string) :
  without (ascii_of_nat 13) s -> universal_newlines s = s.
Proof.
  induction s as [|c s IH]; simpl; [reflexivity|].
  intros [Hc Hs]. apply Ascii.eqb_neq in Hc. rewrite Hc. now rewrite IH.
Qed.

Lemma lines_of_first (body rest : string) :
  without (ascii_of_nat 10) body ->
  lines_of ((body ++ newline) ++ rest) = (body ++ newline)%string :: lines_of rest.
Proof.
  induction body as [|c body IH]; [reflexivity|].
  intros [Hc Hb]. cbn [append lines_of]. apply Ascii.eqb_neq in Hc. rewrite Hc.
  now rewrite (IH Hb).
Qed.

(** A written line without its line feed. *)
Definition line_body (s : segment) : string :=
  (int_to_hex (seg_start s) ++ tab ++ int_to_hex (seg_end s) ++ tab
   ++ seg_country s ++ tab ++ seg_lat s ++ tab ++ seg_lon s)%string.

Lemma append_assoc (a b c : string) : ((a ++ b) ++ c)%string = (a ++ b ++ c)%string.
Proof. induction a as [|x a IH]; simpl; [reflexivity | now rewrite IH]. Qed.

Lemma append_nil_r (a : string) : (a ++ EmptyString)%string = a.
Proof. induction a as [|x a IH]; simpl; [reflexivity | now rewrite IH]. Qed.

Lemma write_line_body (s : segment) : write_line s = (line_body s ++ newline)%string.
Proof. unfold write_line, line_body. now rewrite !append_assoc. Qed.

(** Within a written line, the only line feed is the one at the end, and
    there is no carriage return. *)
Lemma line_body_plain (s : segment) (c : ascii) :
  reloadable s -> c = ascii_of_nat 10 \/ c = ascii_of_nat 13 ->
  without c (line_body s).
Proof.
  intros (Hc & Hla & Hlo & _) Hsep.
  assert (Hs : separator c) by (unfold separator; tauto).
  assert (Ht : without c tab).
  { destruct Hsep as [-> | ->]; simpl; (split; [discriminate | exact I]). }
  unfold line_body.
  repeat apply without_append;
    auto using field_without; now apply int_to_hex_plain.
Qed.

Lemma concat_cons (l : string) (ls : list string) :
  String.concat EmptyString (l :: ls) = (l ++ String.concat EmptyString ls)%string.
Proof. destruct ls; simpl; [now rewrite append_nil_r | reflexivity]. Qed.

(** What [main] writes has no carriage return. *)
Lemma written_text_plain (merged : list segment) :
  Forall reloadable merged ->
  without (ascii_of_nat 13) (String.concat EmptyString (map write_line merged)).
Proof.
  induction 1 as [|s merged Hs _ IH]; [exact I|].
  cbn [map]. rewrite concat_cons, write_line_body.
  apply without_append; [apply without_append | exact IH].
  - apply (line_body_plain Hs). now right.
  - simpl. split; [discriminate | exact I].
Qed.

(** The lines read from the written text are the lines written. *)
Lemma read_written_lines (merged : list segment) :
  Forall reloadable merged ->
  read_lines (String.concat EmptyString (map write_line merged))
  = map write_line merged.
Proof.
  intros Hre. unfold read_lines.
  rewrite (universal_newlines_plain _ (written_text_plain Hre)).
  induction Hre as [|s merged Hs _ IH]; [reflexivity|].
  cbn [map]. rewrite concat_cons, write_line_body, lines_of_first.
  - now rewrite IH.
  - apply (line_body_plain Hs). now left.
Qed.

(** X17. The written output can be read back: for merged segments that
    are in ascending order without a common point, as [main] produces them,
    and whose text fields are ASCII text without tab, line feed and
    carriage return, the last of them not empty and not ending in
    whitespace, [load_latlong_tsv] with columns 3 and 4 on the lines read
    from the text [main] writes returns the table with exactly these
    segments as rows, every end moved by one from inclusive to exclusive. *)
Theorem written_output_reloads (merged : list segment) :
  Forall nonempty merged -> StronglySorted seg_before merged ->
  Forall reloadable merged ->
  load_latlong_tsv
    (Some (read_lines (String.concat EmptyString (map write_line merged)))) 3 4
  = RangeTable.mk (map seg_start merged)
                  (map (fun s => (seg_end s + 1)%Z) merged)
                  (map (fun s => WithCoords (seg_country s) (seg_lat s) (seg_lon s))
                       merged)
                  0.
Proof.
  intros Hne Hasc Hre. rewrite (read_written_lines Hre). unfold load_latlong_tsv.
  change (RangeTable.init payload) with (@RangeTable.of_records payload []).
  rewrite (fold_written_lines Hre []). cbn [app].
  rewrite finalize_of_records, sorted_ascending.
  - unfold columns. rewrite !map_map. reflexivity.
  - clear Hre. induction Hasc as [|a l Hl IH Ha]; [constructor|].
    apply Forall_inv in Hne as Hna. apply Forall_inv_tail in Hne.
    constructor; [now apply IH|].
    apply Forall_forall. intros r Hr. apply in_map_iff in Hr as (b & <- & Hb).
    rewrite Forall_forall in Ha. specialize (Ha b Hb).
    unfold seg_before, nonempty in *. simpl. lia.
Qed.

End Loaders.

(** *** Worked inputs *)

Section LoaderExamples.

Lemma written_output_reloads_witness :
  load_latlong_tsv
    (Some (read_lines
             (String.concat EmptyString
                (map write_line
                   [mk_segment 256 511 "FR" "48.8" "2.3";
                    mk_segment 512 639 "DE" "0" "0"]))))
    3 4
  = RangeTable.mk [256%Z; 512%Z] [512%Z; 640%Z]
                  [WithCoords "FR" "48.8" "2.3"; WithCoords "DE" "0" "0"] 0.
Proof.
  apply (@written_output_reloads
           [mk_segment 256 511 "FR" "48.8" "2.3"; mk_segment 512 639 "DE" "0" "0"]).
  - repeat constructor; unfold nonempty; simpl; lia.
  - repeat constructor; unfold seg_before; simpl; lia.
  - repeat constructor; simpl; discriminate.
Defined.

(** A country with a line feed in it is written as two short lines, and
    nothing is read back. *)
Lemma line_feed_in_field_not_reloaded :
  load_latlong_tsv
    (Some (read_lines
             (String.concat EmptyString
                (map write_line
                   [mk_segment 256 511 ("F" ++ newline ++ "R") "48.8" "2.3"]))))
    3 4
  = RangeTable.mk [] [] [] 0.
Proof. reflexivity. Qed.

(** A line with too few fields, a line whose start is no hexadecimal
    number and a well-formed line. *)
Lemma load_country_tsv_skips :
  load_country_tsv
    (Some [("200" ++ tab ++ "2ff" ++ newline)%string;
           ("xyz" ++ tab ++ "2ff" ++ tab ++ "DE" ++ newline)%string;
           (" 100" ++ tab ++ "0x1FF" ++ tab ++ "US" ++ tab ++ "more" ++ newline)%string])
  = RangeTable.mk [256%Z] [512%Z] [CountryOnly "US"] 0.
Proof. reflexivity. Qed.

End LoaderExamples.

